(** * cplate: the parallel MCMC sampler of [lib/cplate/deconvolve_mcmc.py]

    A shallow embedding of [load_data], [initialize], [master] and [worker].
    Integers (offsets, sizes, tags) are [Z], Python 2 integer division is
    [Z.div], real values are rationals [Q] (an idealisation of the float64
    arithmetic of numpy: no rounding, no NaN, no infinity), numpy vectors are
    lists, slices are [pyslice] with Python's index clipping.  The numerical
    library ([lib_deconvolve_em], [cholmod]), the transcendental functions and
    the random generator are parameters of the development.

    The second part embeds the summaries of [lib/cplate/summarise_mcmc.py]
    that are functions of their arguments: [find_maxima],
    [greedy_maxima_search], [condense_detections], [mean_abs_dev],
    [localization_index] and the loop of [summarise] over the draws. *)

From Stdlib Require Import ZArith QArith Qabs Lia Lqa.
From stdpp Require Import base tactics option list sorting.

Local Open Scope Z_scope.

(** ** Python and numpy helpers *)

Module Py.

  (** [slice(start, stop)], step 1. *)
Record pyslice := Slice { sl_start : Z; sl_stop : Z }.

  (** How Python clips a slice bound against a sequence of length [n]:
      a negative bound counts from the end. *)
Definition clip (n i : Z) : Z :=
    if i <? 0 then Z.max (i + n) 0 else Z.min i n.

Definition slice_lo {A} (s : pyslice) (l : list A) : Z :=
    clip (Z.of_nat (length l)) (sl_start s).

Definition slice_len {A} (s : pyslice) (l : list A) : nat :=
    Z.to_nat (clip (Z.of_nat (length l)) (sl_stop s) - slice_lo s l).

  (** [l[s]] *)
Definition getslice {A} (s : pyslice) (l : list A) : list A :=
    take (slice_len s l) (drop (Z.to_nat (slice_lo s l)) l).

  (** [l[s] = v] on a numpy vector: the shapes must agree, a vector of
      length one is broadcast, anything else raises [ValueError] ([None]). *)
Definition setslice {A} (s : pyslice) (v l : list A) : option (list A) :=
    if decide (length v = slice_len s l)
    then Some (list_inserts (Z.to_nat (slice_lo s l)) v l)
    else match v with
         | [x] => Some (list_inserts (Z.to_nat (slice_lo s l))
                                     (replicate (slice_len s l) x) l)
         | _ => None
         end.

  (** [l[s] = x] for a scalar [x] (always broadcast). *)
Definition fillslice {A} (s : pyslice) (x : A) (l : list A) : list A :=
    list_inserts (Z.to_nat (slice_lo s l)) (replicate (slice_len s l) x) l.

  (** The slices [:n] and, on a sequence [l], [n:]. *)
Definition upto (n : Z) : pyslice := Slice 0 n.
Definition from {A} (n : Z) (l : list A) : pyslice :=
    Slice n (Z.of_nat (length l)).

  (** Python 2 [range(a, b)]. *)
Definition prange (a b : Z) : list Z :=
    map (fun i : nat => a + Z.of_nat i) (seq 0 (Z.to_nat (b - a))).

  (** Elementwise arithmetic on vectors of one shape. *)
Definition vadd : list Q -> list Q -> list Q := zip_with Qplus.
Definition vsub : list Q -> list Q -> list Q := zip_with Qminus.
Definition vmul : list Q -> list Q -> list Q := zip_with Qmult.
Definition vdiv : list Q -> list Q -> list Q := zip_with Qdiv.

  (** [np.arange(start, stop, step, dtype=int)]: [ceil((stop-start)/step)]
      elements; a zero step raises ([None]). *)
Definition arange (start stop step : Z) : option (list Z) :=
    if step =? 0 then None
    else Some (map (fun i : nat => start + Z.of_nat i * step)
                   (seq 0 (Z.to_nat (- ((start - stop) / step))))).

  (** [l[s] += x] *)
Definition addslice (s : pyslice) (x : Z) (l : list Z) : list Z :=
    list_inserts (Z.to_nat (slice_lo s l)) (map (Z.add x) (getslice s l)) l.

  (** [l[i]] and [l[i] = x] for an integer index: a negative index counts
      from the end, an index out of range raises ([None]). *)
Definition getitem {A} (l : list A) (i : Z) : option A :=
    let n := Z.of_nat (length l) in
    if (0 <=? i) && (i <? n) then l !! Z.to_nat i
    else if (- n <=? i) && (i <? 0) then l !! Z.to_nat (i + n)
    else None.
Definition setitem {A} (l : list A) (i : Z) (x : A) : option (list A) :=
    let n := Z.of_nat (length l) in
    if (0 <=? i) && (i <? n) then Some (<[Z.to_nat i := x]> l)
    else if (- n <=? i) && (i <? 0) then Some (<[Z.to_nat (i + n) := x]> l)
    else None.

  (** Truth value of a comparison used as an integer, as in [w*(start!=0)]. *)
Definition b2z (b : bool) : Z := if b then 1 else 0.

  (** Comparisons of reals. *)
Definition Qltb (x y : Q) : bool := negb (Qle_bool y x).
Definition Qgeb (x y : Q) : bool := Qle_bool y x.

Definition qsum (l : list Q) : Q := foldr Qplus 0%Q l.
Definition qlen {A} (l : list A) : Q := inject_Z (Z.of_nat (length l)).

  (** [np.mean], [np.var] (population variance) and [np.max]. *)
Definition mean (l : list Q) : Q := (qsum l / qlen l)%Q.
Definition var (l : list Q) : Q :=
    mean (map (fun x => ((x - mean l) * (x - mean l))%Q) l).
Definition qmax (x y : Q) : Q := if Qle_bool x y then y else x.
Definition amax (l : list Q) : option Q :=
    match l with
    | [] => None
    | x :: l' => Some (foldl qmax x l')
    end.

End Py.
Import Py.

(** ** Block geometry shared by [master] and [worker] *)

Section Geometry.

  (** [chrom_length = y.size], the block width and the padding [w]. *)
Variables (chrom_length block_width w : Z).

  (** [end = min(chrom_length, start + block_width)] *)
Definition block_end (start : Z) : Z :=
    Z.min chrom_length (start + block_width).

  (** [block = slice(max(start-w, 0), min(end+w, chrom_length))] *)
Definition block (start : Z) : pyslice :=
    Slice (Z.max (start - w) 0) (Z.min (block_end start + w) chrom_length).

Definition size_block (start : Z) : Z :=
    sl_stop (block start) - sl_start (block start).

  (** [subset = slice(w*(start!=0)+start-block.start,
                      size_block-w*(end!=chrom_length) - (block.stop-end))] *)
Definition subset (start : Z) : pyslice :=
    Slice (w * b2z (negb (start =? 0)) + start - sl_start (block start))
          (size_block start
           - w * b2z (negb (block_end start =? chrom_length))
           - (sl_stop (block start) - block_end start)).

Definition size_subset (start : Z) : Z :=
    sl_stop (subset start) - sl_start (subset start).

  (** [original = slice(start-block.start, size_block - (block.stop-end))] *)
Definition original (start : Z) : pyslice :=
    Slice (start - sl_start (block start))
          (size_block start - (sl_stop (block start) - block_end start)).

End Geometry.

(** [w = template.size/2 + 1] in [worker] (Python 2 integer division). *)
Definition worker_w (template : list Q) : Z :=
  Z.of_nat (length template) / 2 + 1.

(** ** Inputs: the dictionaries [data] and [cfg] *)

(** The dictionary returned by [load_data]. *)
Record data := Data {
  chrom : Z;
  y : list Q;
  template : list Q;
  region_types : list Z;
  region_list : list (option pyslice);
  region_sizes : list Z;
  region_ids : list Z
}.

(** [chrom_length = y.size] *)
Definition chrom_length (d : data) : Z := Z.of_nat (length (y d)).

(** The entries of [cfg] read by the sampler; [None] is Python's [None]. *)
Record config := Config {
  mu0 : option Q;
  k0 : Q;
  a0 : Q;
  b0 : Q;
  mcmc_iterations : Z;
  cfg_block_width : option Z;
  initialize_theta_from_em : bool;
  initialize_params_from_em : bool
}.

(** Message tags. *)
Definition STOPTAG : Z := 0.
Definition SYNCTAG : Z := 1.
Definition WORKTAG : Z := 2.
Definition UPDATETAG : Z := 3.

(** What the coordinator sends to a worker.  [SYNC] carries the three
    broadcasts that follow the tag, [UPDATE] the vector received after it. *)
Inductive command :=
| STOP
| SYNC (theta mu sigmasq : list Q)
| WORK (start : Z)
| UPDATE (theta : list Q).

(** What a worker does that the coordinator or the claims can observe: an
    evaluation of [lib.loglik_convolve] and a result sent with its tag. *)
Inductive event :=
| Loglik (theta : list Q)
| Send (ret_val : list Q) (tag : Z).

(** [block_width]: [chrom_length / n_workers] unless configured; the
    division raises when there is no worker. *)
Definition get_block_width (cfg : config) (chrom_length n_proc : Z) : option Z :=
  match cfg_block_width cfg with
  | None => if n_proc - 1 =? 0 then None else Some (chrom_length / (n_proc - 1))
  | Some bw => Some bw
  end.

(** ** The libraries the sampler calls

    [np.log], [np.sqrt], [np.random], [lib_deconvolve_em] and
    [scikits.sparse.cholmod] are taken as an interface.  The global state of
    [np.random] is threaded explicitly; a factorization that raises is
    [None]; matrices are lists of rows. *)

Class Library := {
  rng : Type;
  factor : Type;
  ln : Q -> Q;
  sqrt : Q -> Q;
  (** [np.log(np.finfo(np.float).max)] *)
  log_max_float : Q;
  (** [np.random]: [standard_t(df, size)], [uniform()],
      [gamma(shape, scale)], [randn(1)], [shuffle(x)] *)
  standard_t : Q -> Z -> rng -> list Q * rng;
  uniform : rng -> Q * rng;
  rgamma : Q -> Q -> rng -> Q * rng;
  randn : rng -> Q * rng;
  shuffle : list Z -> rng -> list Z * rng;
  shuffle_perm : forall l g, (shuffle l g).1 ≡ₚ l;
  rgamma_pos : forall shape scale g,
      (0 < shape)%Q -> (0 < scale)%Q -> (0 < (rgamma shape scale g).1)%Q;
  (** [lib.deconvolve(lib.loglik_convolve, lib.dloglik_convolve, y,
      region_types, template, mu, sigmasq, subset, theta0)[0]] *)
  deconvolve : list Q -> list Z -> list Q -> list Q -> list Q ->
               pyslice -> list Q -> list Q;
  (** [sparse.spdiags] of the template rows on [diags], [m = n] *)
  spdiags : list Q -> list Z -> Z -> list (list Q);
  (** [lib.ddloglik(theta, theta0, X, Xt, y, mu, sigmasq, region_types,
      subset)] *)
  ddloglik : list Q -> list Q -> list (list Q) -> list (list Q) -> list Q ->
             list Q -> list Q -> list Z -> pyslice -> list (list Q);
  (** [lib.loglik_convolve(theta, y, region_types, template, mu, sigmasq,
      theta0)] with [subset=None] *)
  loglik_convolve : list Q -> list Q -> list Z -> list Q -> list Q ->
                    list Q -> list Q -> Q;
  (** [cholmod.cholesky] and the methods of its factor: the diagonal of
      [D] from [L_D()], [solve_Lt], [solve_Pt], [solve_P] and the product
      [L.T * v] *)
  cholesky : list (list Q) -> option factor;
  factor_D : factor -> list Q;
  solve_Lt : factor -> list Q -> list Q;
  solve_Pt : factor -> list Q -> list Q;
  solve_P : factor -> list Q -> list Q;
  Lt_mul : factor -> list Q -> list Q
}.

(** ** The worker *)

Section Worker.

Context `{Library}.

  (** Local state of a worker: its copies of the parameters, the result
      buffer [ret_val] and the state of its random generator. *)
Record wstate := WState {
    w_theta : list Q;
    w_mu : list Q;
    w_sigmasq : list Q;
    w_ret : list Q;
    w_rng : rng
  }.

  (** [data], the block width and the proposal's degrees of freedom. *)
Variables (d : data) (block_width : Z) (prop_df : Q).

Local Abbreviation chrom_length := (chrom_length d).
Local Abbreviation w := (worker_w (template d)).

Definition set_ret (st : wstate) (r : list Q) : wstate :=
    WState (w_theta st) (w_mu st) (w_sigmasq st) r (w_rng st).
Definition set_rng (st : wstate) (g : rng) : wstate :=
    WState (w_theta st) (w_mu st) (w_sigmasq st) (w_ret st) g.

  (** [ret_val[:end-start] = v; comm.Send(ret_val, dest=MPIROOT, tag=accept)] *)
Definition transmit (st : wstate) (start : Z) (v : list Q) (accept : Z)
    : option (wstate * list event) :=
    r ← setslice (upto (block_end chrom_length block_width start - start))
                 v (w_ret st);
    Some (set_ret st r, [Send r accept]).

  (** [theta_block = theta[block]] *)
Definition theta_block_of (st : wstate) (start : Z) : list Q :=
    getslice (block chrom_length block_width w start) (w_theta st).

  (** [theta_hat]: the conditional posterior mode from [lib.deconvolve]. *)
Definition theta_hat_of (st : wstate) (start : Z) : list Q :=
    let blk := block chrom_length block_width w start in
    deconvolve (getslice blk (y d)) (getslice blk (region_types d))
               (template d) (w_mu st) (w_sigmasq st)
               (subset chrom_length block_width w start)
               (theta_block_of st start).

  (** [info]: the observed information from [lib.ddloglik], then
      [info[subset,:]] and [info[:,subset]]. *)
Definition local_info (st : wstate) (start : Z) : list (list Q) :=
    let blk := block chrom_length block_width w start in
    let sub := subset chrom_length block_width w start in
    let X := spdiags (template d) (prange (- w + 1) w)
                     (size_block chrom_length block_width w start) in
    let info :=
      ddloglik (theta_hat_of st start) (theta_block_of st start) X X
               (getslice blk (y d)) (w_mu st) (w_sigmasq st)
               (getslice blk (region_types d)) sub in
    map (getslice sub) (getslice sub info).

  (** The proposal from the multivariate t distribution: the variates [z],
      the generator's new state and [theta_prop], the copy of
      [theta_block] with [theta_draw] written on the subset. *)
Definition propose (st : wstate) (start : Z) (info_factor : factor)
    : list Q * rng * option (list Q) :=
    let D := factor_D info_factor in
    let '(z, g) :=
      standard_t prop_df (size_subset chrom_length block_width w start)
                 (w_rng st) in
    let theta_draw :=
      vadd (solve_Pt info_factor
              (solve_Lt info_factor (vdiv z (map sqrt D))))
           (theta_hat_of st start) in
    (z, g, setslice (subset chrom_length block_width w start) theta_draw
                    (theta_block_of st start)).

  (** [log_accept_prob = log_target_ratio - log_prop_ratio] *)
Definition log_accept_prob (st : wstate) (start : Z) (info_factor : factor)
      (z theta_prop : list Q) : Q :=
    let blk := block chrom_length block_width w start in
    let theta_block := theta_block_of st start in
    let theta_subset :=
      getslice (subset chrom_length block_width w start) theta_block in
    let z_prev :=
      vmul (Lt_mul info_factor
              (solve_P info_factor (vsub theta_subset (theta_hat_of st start))))
           (map sqrt (factor_D info_factor)) in
    let ll theta :=
      loglik_convolve theta (getslice blk (y d))
                      (getslice blk (region_types d)) (template d)
                      (w_mu st) (w_sigmasq st) theta in
    let log_target_ratio := (- ll theta_prop - - ll theta_block)%Q in
    let log_prop_ratio :=
      (- (1 # 2) * (prop_df + 1) *
       qsum (vsub (map (fun v => ln (1 + v * v / prop_df)) z)
                  (map (fun v => ln (1 + v * v / prop_df)) z_prev)))%Q in
    (log_target_ratio - log_prop_ratio)%Q.

  (** The body of the [WORKTAG] branch.  [None] is an uncaught exception. *)
Definition work (st0 : wstate) (start : Z) : option (wstate * list event) :=
    let end_ := block_end chrom_length block_width start in
    let orig := original chrom_length block_width w start in
    let theta_block := theta_block_of st0 start in
    (* ret_val[end-start:] = 0 *)
    let st := set_ret st0 (fillslice (from (end_ - start) (w_ret st0)) 0%Q
                                     (w_ret st0)) in
    match cholesky (local_info st0 start) with
    | None =>
        (* except: always reject *)
        transmit st start (getslice orig theta_block) 0
    | Some info_factor =>
        let '(z, g, theta_prop) := propose st0 start info_factor in
        let st := set_rng st g in
        theta_prop ← theta_prop;
        m ← amax theta_prop;
        if Qgeb m (log_max_float / 2)%Q then
          (* overflow: always reject *)
          transmit st start (getslice orig theta_block) 0
        else
          let '(u, g) := uniform (w_rng st) in
          let st := set_rng st g in
          '(st, ev) ←
            (if Qltb (ln u) (log_accept_prob st0 start info_factor z theta_prop)
             then transmit st start (getslice orig theta_prop) 1
             else transmit st start (getslice orig theta_block) 0);
          Some (st, Loglik theta_prop :: Loglik theta_block :: ev)
    end.

  (** One pass of the [while working] loop on a received command; the
      boolean is [working]. *)
Definition worker_step (st : wstate) (c : command)
    : option (wstate * list event * bool) :=
    match c with
    | STOP => Some (st, [], false)
    | SYNC theta mu sigmasq =>
        Some (WState theta mu sigmasq (w_ret st) (w_rng st), [], true)
    | WORK start => '(st, ev) ← work st start; Some (st, ev, true)
    | UPDATE theta =>
        Some (WState theta (w_mu st) (w_sigmasq st) (w_ret st) (w_rng st),
              [], true)
    end.


  (** The worker's state when its loop starts. *)
Definition worker_init (theta mu sigmasq : list Q) (g : rng) : wstate :=
    WState theta mu sigmasq (replicate (Z.to_nat block_width) 0%Q) g.

End Worker.

(** ** The coordinator *)

(** [start_vec]: the two scans of [master], concatenated. *)
Definition scan_starts (chrom_length block_width : Z) : option (list Z) :=
  s1 ← arange 0 chrom_length block_width;
  s2 ← arange (block_width / 2) chrom_length block_width;
  Some (s1 ++ s2).

Section Master.

Context `{Library}.

  (** A worker process as the coordinator sees it: its state and the
      results it has sent that the coordinator has not yet received. *)
Record node := Node {
    n_state : wstate;
    n_out : list (list Q * Z)
  }.

  (** State of [master]: the draw histories, the work assignment table, the
      acceptance counters, the schedule, the random generator, the workers,
      the counters of the dispatch loop and, as a ghost field, the log of
      the results merged ([start] and tag), latest first. *)
Record mstate := MState {
    m_theta : list (list Q);
    m_mu : list (list Q);
    m_sigmasq : list (list Q);
    m_assigned : list Z;
    m_accept : list Z;
    m_start_vec : list Z;
    m_rng : rng;
    m_nodes : list node;
    m_started : nat;
    m_completed : nat;
    m_merged : list (Z * Z)
  }.

Variables (d : data) (cfg : config) (n_proc block_width : Z) (prop_df : Q).

  (** [n_workers = n_proc - 1] *)
Definition n_workers : nat := Z.to_nat (n_proc - 1).

  (** Which worker's result [comm.Recv(..., source=MPI.ANY_SOURCE)] returns,
      at iteration [t] after [n_completed] results: a number that selects
      among the workers with a result pending. *)
Variable arrival : nat -> nat -> nat.

Local Abbreviation chrom_length := (chrom_length d).

Definition sends (ev : list event) : list (list Q * Z) :=
    omap (fun e => match e with Send r tag => Some (r, tag) | _ => None end) ev.

  (** [comm.Send] of a command to worker [k] (rank [k+1]), which handles it
      before the coordinator hears from it again. *)
Definition deliver (k : nat) (c : command) (nodes : list node)
    : option (list node) :=
    nd ← nodes !! k;
    '(ws, ev, _) ← worker_step d block_width prop_df (n_state nd) c;
    Some (<[k := Node ws (n_out nd ++ sends ev)]> nodes).

  (** The workers with a result pending. *)
Definition pending (nodes : list node) (k : nat) : bool :=
    match n_out <$> nodes !! k with
    | Some (_ :: _) => true
    | _ => false
    end.
Definition ready (nodes : list node) : list nat :=
    filter (fun k => pending nodes k = true) (seq 0 (length nodes)).

  (** [comm.Recv(ret_val, source=MPI.ANY_SOURCE, tag=MPI.ANY_TAG)]: the
      source, the message and its tag.  With no result pending the
      coordinator blocks for ever ([None]). *)
Definition recv_any (choice : nat) (nodes : list node)
    : option (nat * (list Q * Z) * list node) :=
    let rs := ready nodes in
    k ← rs !! (choice `mod` length rs)%nat;
    nd ← nodes !! k;
    match n_out nd with
    | [] => None
    | msg :: rest => Some (k, msg, <[k := Node (n_state nd) rest]> nodes)
    end.

  (** Synchronisation: [SYNCTAG] to every worker, then the three
      broadcasts. *)
Definition sync_all (theta mu sigmasq : list Q) (nodes : list node)
    : option (list node) :=
    foldr (fun k acc => nodes ← acc; deliver k (SYNC theta mu sigmasq) nodes)
          (Some nodes) (seq 0 n_workers).

  (** The first batch of jobs: worker [k] gets [start_vec[n_started]]. *)
Fixpoint first_batch (ks : list nat) (s : mstate) : option mstate :=
    match ks with
    | [] => Some s
    | k :: ks =>
        start ← m_start_vec s !! m_started s;
        nodes ← deliver k (WORK start) (m_nodes s);
        first_batch ks
          (MState (m_theta s) (m_mu s) (m_sigmasq s)
                  (<[k := start]> (m_assigned s)) (m_accept s)
                  (m_start_vec s) (m_rng s) nodes
                  (S (m_started s)) (m_completed s) (m_merged s))
    end.

  (** One pass of [while n_completed < n_jobs]. *)
Definition collect_step (t : nat) (s : mstate) : option mstate :=
    '(k, (ret_val, tag), nodes) ←
      recv_any (arrival t (m_completed s)) (m_nodes s);
    start ← m_assigned s !! k;
    let end_ := Z.min (start + block_width) chrom_length in
    let accept_stats := addslice (Slice start end_) tag (m_accept s) in
    row ← m_theta s !! t;
    row ← setslice (Slice start end_)
                   (getslice (upto (end_ - start)) ret_val) row;
    let theta := <[t := row]> (m_theta s) in
    let merged := (start, tag) :: m_merged s in
    if decide (m_started s < length (m_start_vec s))%nat then
      nodes ← deliver k (UPDATE row) nodes;
      next ← m_start_vec s !! m_started s;
      nodes ← deliver k (WORK next) nodes;
      Some (MState theta (m_mu s) (m_sigmasq s)
                   (<[k := next]> (m_assigned s)) accept_stats
                   (m_start_vec s) (m_rng s) nodes
                   (S (m_started s)) (S (m_completed s)) merged)
    else
      Some (MState theta (m_mu s) (m_sigmasq s)
                   (m_assigned s) accept_stats
                   (m_start_vec s) (m_rng s) nodes
                   (m_started s) (S (m_completed s)) merged).

  (** [while n_completed < n_jobs], with fuel. *)
Fixpoint collect (fuel : nat) (t : nat) (s : mstate) : option mstate :=
    if decide (m_completed s < length (m_start_vec s))%nat then
      match fuel with
      | O => None
      | S fuel => s ← collect_step t s; collect fuel t s
      end
    else Some s.

  (** Step (1) of iteration [t], up to the dispatch loop: synchronise the
      workers, copy [theta[t-1]] to [theta[t]], shuffle the schedule and
      send the first batch of jobs. *)
Definition sweep_start (t : nat) (s : mstate) : option mstate :=
    prev ← m_theta s !! (t - 1)%nat;
    mu_prev ← m_mu s !! (t - 1)%nat;
    sigmasq_prev ← m_sigmasq s !! (t - 1)%nat;
    nodes ← sync_all prev mu_prev sigmasq_prev (m_nodes s);
    (* theta[t] = theta[t-1] *)
    guard (t < length (m_theta s))%nat;;
    let theta := <[t := prev]> (m_theta s) in
    let '(start_vec, g) := shuffle (m_start_vec s) (m_rng s) in
    first_batch (seq 0 (min n_workers (length start_vec)))
      (MState theta (m_mu s) (m_sigmasq s) (m_assigned s) (m_accept s)
              start_vec g nodes 0 0 []).

  (** Step (1) of iteration [t]: the distributed draw of [theta[t]]. *)
Definition sweep (t : nat) (s : mstate) : option mstate :=
    s ← sweep_start t s;
    collect (length (m_start_vec s)) t s.

  (** [theta[t, region]] for an entry of [region_list]; [None] indexes as
      [np.newaxis] and keeps the whole row. *)
Definition region_values (region : option pyslice) (row : list Q) : list Q :=
    match region with
    | Some sl => getslice sl row
    | None => row
    end.

  (** [sigmasq0 = b0 / a0] *)
Definition sigmasq0 : Q := (b0 cfg / a0 cfg)%Q.

  (** [coverage[i] = np.mean(y[region_list[i]])] for [i] in [region_ids],
      on [np.zeros(n_regions)]. *)
Definition coverage : option (list Q) :=
    foldl (fun acc i =>
             cov ← acc;
             region ← getitem (region_list d) i;
             setitem cov i (mean (region_values region (y d))))
          (Some (replicate (length (region_ids d)) 0%Q)) (region_ids d).

  (** The prior means: adapted to the coverage when [mu0 is None]. *)
Definition prior_mean : option (list Q) :=
    match mu0 cfg with
    | None =>
        cov ← coverage;
        Some (map (fun c => if Qltb 0 c then (ln c - sigmasq0 / 2)%Q else 0%Q)
                  cov)
    | Some m =>
        Some (map (fun p => (p + m)%Q) (replicate (length (region_ids d)) 0%Q))
    end.

  (** [shape_sigmasq] and [rate_sigmasq] of step (2) for a region of
      [n = region_sizes[r]] positions with values [vals] and prior mean
      [pm]. *)
Definition shape_sigmasq (n : Z) : Q := (inject_Z n / 2 + a0 cfg)%Q.
Definition rate_sigmasq (n : Z) (vals : list Q) (pm : Q) : Q :=
    (var vals * inject_Z n / 2 + b0 cfg
     + k0 cfg * inject_Z n / 2 / (1 + k0 cfg)
       * ((mean vals - pm) * (mean vals - pm)))%Q.

  (** The draw of [sigmasq[t,r]] given the gamma variate. *)
Definition draw_sigmasq (n : Z) (vals : list Q) (pm gam : Q) : Q :=
    (rate_sigmasq n vals pm / gam)%Q.

  (** Step (2) for region [r]: draw [sigmasq[t,r]], then [mu[t,r]]. *)
Definition gibbs_region (t : nat) (pmean : list Q) (s : mstate) (r : Z)
    : option mstate :=
    region ← getitem (region_list d) r;
    n ← getitem (region_sizes d) r;
    pm ← getitem pmean r;
    row ← m_theta s !! t;
    let vals := region_values region row in
    let '(gam, g) := rgamma (shape_sigmasq n) 1 (m_rng s) in
    let sig := draw_sigmasq n vals pm gam in
    sig_row ← m_sigmasq s !! t;
    sig_row ← setitem sig_row r sig;
    let mean_mu := ((mean vals + pm * k0 cfg) / (1 + k0 cfg))%Q in
    let var_mu := (sig / (1 + k0 cfg) / inject_Z n)%Q in
    let '(z, g) := randn g in
    mu_row ← m_mu s !! t;
    mu_row ← setitem mu_row r (mean_mu + sqrt var_mu * z)%Q;
    Some (MState (m_theta s) (<[t := mu_row]> (m_mu s))
                 (<[t := sig_row]> (m_sigmasq s))
                 (m_assigned s) (m_accept s) (m_start_vec s) g (m_nodes s)
                 (m_started s) (m_completed s) (m_merged s)).

Definition gibbs (t : nat) (pmean : list Q) (s : mstate) : option mstate :=
    foldl (fun acc r => s ← acc; gibbs_region t pmean s r)
          (Some s) (region_ids d).

  (** The body of [for t in xrange(1, max_iter)]. *)
Definition iteration (pmean : list Q) (t : nat) (s : mstate)
    : option mstate :=
    s ← sweep t s; gibbs t pmean s.

Definition iterations (pmean : list Q) (ts : list nat) (s : mstate)
    : option mstate :=
    foldl (fun acc t => s ← acc; iteration pmean t s) (Some s) ts.

  (** [a[0] = v] on the rows of a history array. *)
Definition set_row0 (a : list (list Q)) (v : list Q)
    : option (list (list Q)) :=
    row ← a !! 0%nat;
    row ← setslice (from 0 row) v row;
    Some (<[0%nat := row]> a).

  (** The state of [master] when its loop starts: the histories allocated
      for [max_iter] rows ([np.empty], here zeros) with row 0 set from
      [init], and [start_vec]. *)
Definition master_init (theta0 mu0' sigmasq0' : list Q) (g : rng)
      (nodes : list node) : option mstate :=
    let max_iter := Z.to_nat (mcmc_iterations cfg) in
    let n_regions := length (region_ids d) in
    guard (0 <= mcmc_iterations cfg);;
    theta ← set_row0 (replicate max_iter
                        (replicate (Z.to_nat chrom_length) 0%Q)) theta0;
    mu ← set_row0 (replicate max_iter (replicate n_regions 0%Q)) mu0';
    sigmasq ← set_row0 (replicate max_iter (replicate n_regions 0%Q))
                       sigmasq0';
    guard (0 <= block_width);;
    start_vec ← scan_starts chrom_length block_width;
    Some (MState theta mu sigmasq (replicate n_workers 0)
                 (replicate (Z.to_nat chrom_length) 0) start_vec g nodes
                 0 0 []).

  (** [comm.send((None,None), dest=k, tag=STOPTAG)] for every worker. *)
Definition halt_all (nodes : list node) : option (list node) :=
    foldr (fun k acc => nodes ← acc; deliver k STOP nodes)
          (Some nodes) (seq 0 n_workers).

  (** [master], given the block width. *)
Definition master_run (theta0 mu0' sigmasq0' : list Q) (g : rng)
      (nodes : list node) : option mstate :=
    pmean ← prior_mean;
    s ← master_init theta0 mu0' sigmasq0' g nodes;
    s ← iterations pmean (seq 1 (Z.to_nat (mcmc_iterations cfg) - 1)) s;
    nodes ← halt_all (m_nodes s);
    Some (MState (m_theta s) (m_mu s) (m_sigmasq s) (m_assigned s)
                 (m_accept s) (m_start_vec s) (m_rng s) nodes
                 (m_started s) (m_completed s) (m_merged s)).

End Master.

(** [master]: the block width is [chrom_length / n_workers] unless
    configured. *)
Definition master `{Library} (d : data) (cfg : config) (n_proc : Z)
    (prop_df : Q) (arrival : nat -> nat -> nat)
    (theta0 mu_init sigmasq_init : list Q) (g : rng) (nodes : list node)
  : option mstate :=
  bw ← get_block_width cfg (chrom_length d) n_proc;
  master_run d cfg n_proc bw prop_df arrival theta0 mu_init sigmasq_init
             g nodes.

(** ** [initialize] *)

Section Initialize.

Context `{Library}.
Variables (d : data) (cfg : config).

  (** [shape_sigmasq = region_sizes[r]/.2 + a0] and
      [rate_sigmasq = np.var(theta[region])*region_sizes[r]/2. + b0] *)
Definition init_shape_sigmasq (n : Z) : Q := (inject_Z n / (2 # 10) + a0 cfg)%Q.
Definition init_rate_sigmasq (n : Z) (vals : list Q) : Q :=
    (var vals * inject_Z n / 2 + b0 cfg)%Q.

  (** The body of [for r in region_ids] on [(mu, sigmasq)]. *)
Definition init_region (theta : list Q) (acc : list Q * list Q * rng) (r : Z)
    : option (list Q * list Q * rng) :=
    let '(mu, sigmasq, g) := acc in
    region ← getitem (region_list d) r;
    n ← getitem (region_sizes d) r;
    let vals := region_values region theta in
    let '(gam, g) :=
      rgamma (init_shape_sigmasq n) (1 / init_rate_sigmasq n vals)%Q g in
    let sig := (1 / gam)%Q in
    sigmasq ← setitem sigmasq r sig;
    let mean_mu := mean vals in
    let var_mu := (sig / inject_Z n)%Q in
    let '(z, g) := randn g in
    mu ← setitem mu r (mean_mu + sqrt var_mu * z)%Q;
    Some (mu, sigmasq, g).

  (** [initialize]: [em_coef] and [em_params] are the contents of the EM
      output files, read only when the configuration asks for them.  The
      result is [(theta, mu, sigmasq)] and the generator's state. *)
Definition initialize (em_coef : list Q) (em_params : list Q * list Q)
      (g : rng) : option (list Q * list Q * list Q * rng) :=
    let n_regions := length (region_ids d) in
    let theta :=
      if initialize_theta_from_em cfg then map ln em_coef
      else map (fun v => ln (v + 1)%Q) (y d) in
    if initialize_params_from_em cfg then
      Some (theta, em_params.1, em_params.2, g)
    else
      '(mu, sigmasq, g) ←
        foldl (fun acc r => acc ← acc; init_region theta acc r)
              (Some (replicate n_regions 0%Q, replicate n_regions 1%Q, g))
              (region_ids d);
      Some (theta, mu, sigmasq, g).

End Initialize.

(** ** [load_data] *)

(** [np.unique]: the distinct values, sorted. *)
Definition unique (l : list Z) : list Z := merge_sort Z.le (remove_dups l).

(** [np.where(region_types == r)[0]]: the indices of the matches. *)
Definition where_eq (l : list Z) (r : Z) : list Z :=
  omap (fun '(i, x) => if x =? r then Some (Z.of_nat i) else None)
       (imap (fun i x => (i, x)) l).

Definition zmin (l : list Z) : option Z :=
  match l with [] => None | x :: l => Some (foldl Z.min x l) end.
Definition zmax (l : list Z) : option Z :=
  match l with [] => None | x :: l => Some (foldl Z.max x l) end.

(** The loop [for r in region_ids] that fills [region_list] and
    [region_sizes]. *)
Definition build_regions (region_types : list Z)
    (acc : list (option pyslice) * list Z) (r : Z)
  : option (list (option pyslice) * list Z) :=
  let region := where_eq region_types r in
  lo ← zmin region;
  hi ← zmax region;
  region_list ← setitem acc.1 r (Some (Slice lo (hi + 1)));
  region_sizes ← setitem acc.2 r (Z.of_nat (length region));
  Some (region_list, region_sizes).

(** [load_data] on the parsed contents of the three files: the template,
    the line of read counts and the line of region labels of the
    chromosome.  [None] is an exception. *)
Definition load_data (chrom : Z) (template reads : list Q) (regions : list Z)
  : option data :=
  (* important if regions and reads disagree *)
  let chrom_length := Z.min (Z.of_nat (length regions))
                            (Z.of_nat (length reads)) in
  let region_types := getslice (upto chrom_length) regions in
  lo ← zmin region_types;
  let region_types := map (fun r => r - lo) region_types in
  hi ← zmax region_types;
  let n_regions := Z.to_nat (hi + 1) in
  let region_ids := unique region_types in
  '(region_list, region_sizes) ←
    foldl (fun acc r => acc ← acc; build_regions region_types acc r)
          (Some (replicate n_regions None, replicate n_regions 1))
          region_ids;
  let y := getslice (upto chrom_length) reads in
  Some (Data chrom y template region_types region_list region_sizes
             region_ids).


(** ** A concrete instance of the library interface

    A small deterministic instance on which the model runs: the mode is the
    current value plus one, the information matrix is the diagonal of the
    counts (not positive definite as soon as a count is zero), every
    variate is constant and the likelihood is flat. *)

Definition diag_pos (m : list (list Q)) : bool :=
  forallb (fun '(i, row) => match row !! i with
                            | Some x => Qltb 0 x
                            | None => false
                            end)
          (imap (fun (i : nat) row => (i, row)) m).

Definition toy_library : Library := {|
  rng := nat;
  factor := list (list Q);
  ln := fun x => (x - 1)%Q;
  sqrt := fun x => x;
  log_max_float := 700;
  standard_t := fun _ n g => (replicate (Z.to_nat n) 0%Q, S g);
  uniform := fun g => ((1 # 2)%Q, S g);
  rgamma := fun _ _ g => (1%Q, S g);
  randn := fun g => (0%Q, S g);
  shuffle := fun l g => (l, S g);
  shuffle_perm := fun l _ => reflexivity l;
  rgamma_pos := fun _ _ _ _ _ => eq_refl;
  deconvolve := fun _ _ _ _ _ sub theta0 => map (Qplus 1) (getslice sub theta0);
  spdiags := fun _ _ _ => [];
  ddloglik := fun _ _ _ _ y _ _ _ _ =>
    imap (fun (i : nat) v => <[i := v]> (replicate (length y) 0%Q)) y;
  loglik_convolve := fun _ _ _ _ _ _ _ => 0%Q;
  cholesky := fun m => if diag_pos m then Some m else None;
  factor_D := fun m => replicate (length m) 1%Q;
  solve_Lt := fun _ v => v;
  solve_Pt := fun _ v => v;
  solve_P := fun _ v => v;
  Lt_mul := fun _ v => map (fun _ => 0%Q) v
|}.

(** Vectors of integers as reals. *)
Definition qs (l : list Z) : list Q := map inject_Z l.

(** ** The scenario of 20 positions, blocks of 10 and a template of 3

    Counts that are zero at position 12 only, one region, initial
    [theta = 0, 1, ..., 19], one worker. *)

Definition y20 : list Q :=
  qs [1; 1; 1; 1; 1; 1; 1; 1; 1; 1; 1; 1; 0; 1; 1; 1; 1; 1; 1; 1].

Definition d20 : data :=
  Data 1 y20 (qs [1; 2; 1]) (replicate 20 0) [Some (Slice 0 20)] [20] [0].

Definition cfg20 : config := Config None 1 1 1 3 (Some 10) false false.

Definition theta20 : list Q := qs (prange 0 20).

Definition worker20 : @wstate toy_library :=
  @worker_init toy_library 10 theta20 [0%Q] [1%Q] 0%nat.

Definition node20 : @node toy_library := @Node toy_library worker20 [].

(** Results are received from the lowest-ranked worker that has one. *)
Definition arrival0 : nat -> nat -> nat := fun _ _ => 0%nat.

(** The coordinator's state when its loop starts, for three iterations. *)
Definition state20 : option (@mstate toy_library) :=
  @master_init toy_library d20 cfg20 2 10 theta20 [0%Q] [1%Q] 0%nat [node20].

(** ** Predicates used in the statements *)

(** What a rejecting worker sends: the values of its [theta] on the output
    range, then zeros up to the block width. *)
Definition rejected `{Library} (d : data) (block_width : Z) (st : wstate)
    (start : Z) : list Q :=
  let end_ := block_end (chrom_length d) block_width start in
  getslice (Slice start end_) (w_theta st)
  ++ replicate (Z.to_nat (block_width - (end_ - start))) 0%Q.


(** [a'] has the rows of [a] except possibly row [t]. *)
Definition same_but_row {A} (t : nat) (a a' : list A) : Prop :=
  length a' = length a /\ forall t', t' <> t -> a' !! t' = a !! t'.

(** The histories of [s'] are those of [s] except for row [t]. *)
Definition writes_only_row `{Library} (t : nat) (s s' : mstate) : Prop :=
  same_but_row t (m_theta s) (m_theta s') /\
  same_but_row t (m_mu s) (m_mu s') /\
  same_but_row t (m_sigmasq s) (m_sigmasq s').

(** The histories keep their sizes and their rows below [a]. *)
Definition keeps_rows_below `{Library} (a : nat) (s s' : mstate) : Prop :=
  (length (m_theta s') = length (m_theta s) /\
   length (m_mu s') = length (m_mu s) /\
   length (m_sigmasq s') = length (m_sigmasq s)) /\
  forall t', (t' < a)%nat ->
    m_theta s' !! t' = m_theta s !! t' /\
    m_mu s' !! t' = m_mu s !! t' /\
    m_sigmasq s' !! t' = m_sigmasq s !! t'.

(** The output range of the block at [start] holds position [p]. *)
Definition covers (L bw p start : Z) : Prop :=
  start <= p < Z.min (start + bw) L.

(** How many of the blocks at [starts] write position [p]. *)
Definition writes_at (L bw p : Z) (starts : list Z) : nat :=
  length (filter (covers L bw p) starts).

(** The start offsets of the blocks in flight: the assignment of every
    worker, once per result it has pending. *)
Definition in_flight `{Library} (assigned : list Z) (nodes : list node)
  : list Z :=
  concat (zip_with (fun a nd => replicate (length (n_out nd)) a)
                   assigned nodes).

(** A worker and its assignment: the vectors have their sizes, and the
    pending result, if any, is the result of the assigned block. *)
Definition node_ok `{Library} (d : data) (block_width : Z) (a : Z)
    (nd : node) : Prop :=
  Z.of_nat (length (w_theta (n_state nd))) = chrom_length d /\
  Z.of_nat (length (w_ret (n_state nd))) = block_width /\
  (n_out nd = [] \/
   exists r tag, n_out nd = [(r, tag)] /\ 0 <= a < chrom_length d /\
                 Z.of_nat (length r) = block_width /\
                 (tag = 0 -> r = rejected d block_width (n_state nd) a)).

(** The invariant of the dispatch loop: the blocks merged, in flight and
    not yet started are the schedule. *)
Definition loop_inv `{Library} (d : data) (block_width : Z) (s : mstate)
  : Prop :=
  (m_started s <= length (m_start_vec s))%nat /\
  length (m_merged s) = m_completed s /\
  Forall (fun st => 0 <= st < chrom_length d) (m_start_vec s) /\
  Forall (fun row => Z.of_nat (length row) = chrom_length d) (m_theta s) /\
  Forall2 (node_ok d block_width) (m_assigned s) (m_nodes s) /\
  (m_merged s).*1 ++ in_flight (m_assigned s) (m_nodes s)
    ++ drop (m_started s) (m_start_vec s) ≡ₚ m_start_vec s.

(** An idle worker with vectors of the right sizes. *)
Definition node_idle `{Library} (d : data) (block_width : Z) (nd : node)
  : Prop :=
  n_out nd = [] /\
  Z.of_nat (length (w_theta (n_state nd))) = chrom_length d /\
  Z.of_nat (length (w_ret (n_state nd))) = block_width.

(** [SYNC] and [UPDATE] replace the worker's parameters and send
    nothing. *)
Definition refresh (c : command) (theta : list Q) : Prop :=
  (exists mu sigmasq, c = SYNC theta mu sigmasq) \/ c = UPDATE theta.

(** What one pass of the dispatch loop merges: the result of worker [k],
    computed for the block at [start].  When it is tagged 0, row [t] then
    holds, on the output range, the values of that worker's [theta]; and
    a worker that is given a next block computes it from the row [t] just
    written. *)
Definition merges `{Library} (d : data) (block_width : Z) (t : nat)
    (s s' : mstate) : Prop :=
  exists (k : nat) (nd : node) (start tag : Z) (row' : list Q),
    m_nodes s !! k = Some nd /\
    m_assigned s !! k = Some start /\
    m_merged s' = (start, tag) :: m_merged s /\
    m_theta s' !! t = Some row' /\
    let end_ := Z.min (start + block_width) (chrom_length d) in
    (tag = 0 ->
     getslice (Slice start end_) row' =
     getslice (Slice start end_) (w_theta (n_state nd))) /\
    ((m_started s < length (m_start_vec s))%nat ->
     exists nd', m_nodes s' !! k = Some nd' /\
                 w_theta (n_state nd') = row').


(** What an iteration finds when it starts: the schedule is the double
    scan in some order, the rows of [theta] have [L] entries, there is an
    assignment per worker and every worker is idle. *)
Definition sweep_ready `{Library} (d : data) (block_width : Z)
    (sv : list Z) (s : mstate) : Prop :=
  m_start_vec s ≡ₚ sv /\
  Forall (fun row => Z.of_nat (length row) = chrom_length d) (m_theta s) /\
  length (m_assigned s) = length (m_nodes s) /\
  Forall (node_idle d block_width) (m_nodes s).

(** [n] passes of the dispatch loop. *)
Fixpoint collect_steps `{Library} (d : data) (block_width : Z) (prop_df : Q)
    (arrival : nat -> nat -> nat) (n : nat) (t : nat) (s : mstate)
  : option mstate :=
  match n with
  | O => Some s
  | S n => s ← collect_step d block_width prop_df arrival t s;
           collect_steps d block_width prop_df arrival n t s
  end.


(** * Further definitions *)

(** The number of accepted blocks (tag 1) among the merged results whose
    output range holds position [p]: the sum of their tags. *)
Definition accepted_at (L bw p : Z) (merged : list (Z * Z)) : Z :=
  foldr (fun e acc => (if decide (covers L bw p e.1) then e.2 else 0) + acc)
        0 merged.

(** [accept_stats[start:end] += tag] for the results of a log, oldest
    first. *)
Definition accept_after (L bw : Z) (accept : list Z) (merged : list (Z * Z))
  : list Z :=
  foldr (fun e acc => addslice (Slice e.1 (Z.min (e.1 + bw) L)) e.2 acc)
        accept merged.

(** Every pending result is tagged 0 or 1. *)
Definition out_tags `{Library} (nodes : list node) : Prop :=
  Forall (fun nd => Forall (fun m : list Q * Z => m.2 = 0 \/ m.2 = 1)
                           (n_out nd)) nodes.

(** * [summarise_mcmc.py]: local maxima and their greedy selection *)

(** Elementwise [a > b] and [a < b] on vectors of one shape, as integers. *)
Definition vgt (a b : list Q) : list Z :=
  zip_with (fun u v => b2z (Qltb v u)) a b.
Definition vlt (a b : list Q) : list Z :=
  zip_with (fun u v => b2z (Qltb u v)) a b.

(** [find_maxima(x, boundary)]: [up] and [down] start as ones; [None] is an
    exception. *)
Definition find_maxima (x : list Q) (boundary : bool) : option (list Z) :=
  let ones := replicate (length x) 1 in
  (* up[1:-1] = (x[1:-1]>x[:-2]) *)
  up ← setslice (Slice 1 (-1))
                (vgt (getslice (Slice 1 (-1)) x) (getslice (upto (-2)) x))
                ones;
  (* down[1:-1] = (x[2:]<x[1:-1]) *)
  down ← setslice (Slice 1 (-1))
                  (vlt (getslice (from 2 x) x) (getslice (Slice 1 (-1)) x))
                  ones;
  '(up, down) ←
    (if boundary then
       x1 ← getitem x 1; x0 ← getitem x 0;
       down ← setitem down 0 (b2z (Qltb x1 x0));
       xl ← getitem x (-1); xl2 ← getitem x (-2);
       up ← setitem up (-1) (b2z (Qltb xl2 xl));
       Some (up, down)
     else Some (up, down));
  (* maxima = up*down *)
  Some (zip_with Z.mul up down).

(** [np.where(a)[0]]: the indices of the non-zero entries. *)
Definition where_nz (l : list Z) : list Z :=
  omap (fun '(i, v) => if v =? 0 then None else Some (Z.of_nat i))
       (imap (fun i v => (i, v)) l).

(** [a[idx]] for a vector of integer indices. *)
Definition take_idx {A} (l : list A) (idx : list Z) : option (list A) :=
  mapM (getitem l) idx.

Section Greedy.

(** [np.argsort]: the indices that sort a vector.  Which of two equal
    values comes first is left to the library, so the function is a
    parameter; what is assumed of it is stated where it is used. *)
Variable argsort : list Q -> list Z.

(** The candidates of [greedy_maxima_search]: the positions flagged by
    [find_maxima], without those closer than [remove_boundary] to an end. *)
Definition candidates (x : list Q) (remove_boundary : Z) : option (list Z) :=
  m ← find_maxima x false;
  let c := where_nz m in
  Some (if 0 <? remove_boundary then
          filter (fun i => i < Z.of_nat (length x) - remove_boundary)
                 (filter (fun i => remove_boundary <= i) c)
        else c).

(** The candidates by score, descending:
    [candidates[:] = candidates[np.argsort(x[candidates])]], then
    [candidates[::-1]]. *)
Definition ranked (x : list Q) (c : list Z) : option (list Z) :=
  vals ← take_idx x c;
  sorted ← take_idx c (argsort vals);
  c ← setslice (from 0 c) sorted c;
  Some (reverse c).

(** The body of [for candidate in candidates]. *)
Definition greedy_step (min_spacing : Z) (acc : list Z * Z) (candidate : Z)
  : option (list Z * Z) :=
  let '(peaks, n_peaks) := acc in
  distance_candidate ←
    zmin (map (fun p => Z.abs (candidate - p)) (getslice (upto n_peaks) peaks));
  if distance_candidate <=? min_spacing then Some (peaks, n_peaks)
  else
    peaks ← setitem peaks n_peaks candidate;
    Some (peaks, n_peaks + 1).

(** [greedy_maxima_search(x, min_spacing, remove_boundary)] *)
Definition greedy_maxima_search (x : list Q) (min_spacing remove_boundary : Z)
  : option (list Z) :=
  c ← candidates x remove_boundary;
  c ← ranked x c;
  (* peaks = np.zeros(np.size(x) / min_spacing + 2, dtype=int) *)
  guard (min_spacing <> 0);;
  let size := Z.of_nat (length x) / min_spacing + 2 in
  guard (0 <= size);;
  let peaks := replicate (Z.to_nat size) 0 in
  c0 ← getitem c 0;
  peaks ← setitem peaks 0 c0;
  '(peaks, n_peaks) ←
    (if 1 <? Z.of_nat (length c)
     then foldl (fun acc candidate => acc ← acc;
                                      greedy_step min_spacing acc candidate)
                (Some (peaks, 1)) c
     else Some (peaks, 1));
  Some (merge_sort Z.le (getslice (upto n_peaks) peaks)).

End Greedy.

(** An instance of [np.argsort]: a stable merge sort of the indexed
    values. *)
Definition score_le (a b : Z * Q) : Prop := Is_true (Qle_bool a.2 b.2).
#[global] Instance score_le_dec : RelDecision score_le :=
  fun a b => decide (Is_true (Qle_bool a.2 b.2)).
Definition argsort_stable (v : list Q) : list Z :=
  (merge_sort score_le (imap (fun i q => (Z.of_nat i, q)) v)).*1.

(** Any two entries of [l] are more than [ms] apart. *)
Definition spaced (ms : Z) (l : list Z) : Prop :=
  forall (i j : nat) (a b : Z),
    i <> j -> l !! i = Some a -> l !! j = Some b -> ms < Z.abs (a - b).

(** * [summarise]: the running summaries of the local relative occupancy *)

(** The body of [for t in xrange(theta.shape[0])] in [summarise], on
    [(mean_lro, se_lro, p_local_concentration)]; [lro] is
    [local_occupancy_smoothed], the local relative occupancy of draw [t]. *)
Definition lro_update (baseline : list Q) (acc : list Q * list Q * list Q)
    (t : nat) (lro : list Q) : list Q * list Q * list Q :=
  let '(mean_lro, se_lro, p) := acc in
  let t1 := (inject_Z (Z.of_nat t) + 1)%Q in
  (* delta = local_occupancy_smoothed - mean_lro *)
  let delta := vsub lro mean_lro in
  (* mean_lro += delta / (t+1.) *)
  let mean_lro := vadd mean_lro (map (fun dl => dl / t1)%Q delta) in
  (* se_lro += delta * (local_occupancy_smoothed - mean_lro) *)
  let se_lro := vadd se_lro (vmul delta (vsub lro mean_lro)) in
  (* p_local_concentration *= t/(t+1.) *)
  let p := map (fun v => v * (inject_Z (Z.of_nat t) / t1))%Q p in
  (* p_local_concentration += (local_occupancy_smoothed > baseline)/(t+1.) *)
  let p := vadd p (map (fun b => inject_Z b / t1)%Q (vgt lro baseline)) in
  (mean_lro, se_lro, p).

(** The loop over the draws, from [np.zeros(theta.shape[1])]. *)
Definition lro_summaries (n : nat) (baseline : list Q) (lros : list (list Q))
  : list Q * list Q * list Q :=
  foldl (fun acc tl => lro_update baseline acc tl.1 tl.2)
        (replicate n 0%Q, replicate n 0%Q, replicate n 0%Q)
        (zip (seq 0 (length lros)) lros).

(** * [summarise_mcmc.py]: the localization index *)

(** How numpy pairs two vectors in an elementwise operation: equal shapes,
    or one of them of length one, repeated; anything else raises. *)
Definition bcast (a b : list Q) : option (list Q * list Q) :=
  if decide (length a = length b) then Some (a, b)
  else match a, b with
       | [u], _ => Some (replicate (length b) u, b)
       | _, [v] => Some (a, replicate (length a) v)
       | _, _ => None
       end.

(** [mean_abs_dev(x, w)] on vectors, with the default [axis=None]:
    [np.sum(w*np.abs(x - np.sum(x*w)))]; without weights [w = 1]. *)
Definition mean_abs_dev (x : list Q) (w : option (list Q)) : option Q :=
  let w := match w with Some w => w | None => [1%Q] end in
  '(x, w) ← bcast x w;
  let c := qsum (vmul x w) in
  Some (qsum (vmul w (map (fun v => Qabs (v - c)) x))).

(** [localization_index(x, p)] with the default axis:
    [n = max(x.size, p.size) / m.size], where [m] is a scalar. *)
Definition localization_index (x p : list Q) : option Q :=
  m ← mean_abs_dev x (Some p);
  let n := Z.max (Z.of_nat (length x)) (Z.of_nat (length p)) / 1 in
  Some (1 - m / (inject_Z n / 4))%Q.

(** * [summarise_mcmc.py]: condensing adjacent detections *)

(** [np.diff(x)], that is [x[1:] - x[:-1]]. *)
Definition diff (x : list Q) : list Q :=
  vsub (getslice (from 1 x) x) (getslice (upto (-1)) x).

(** The body of the loop of [condense_detections] on [(x, n)], two vectors
    of one shape.  [np.min] of an empty vector raises ([None]). *)
Definition condense_step (x n : list Q) : option (list Q * list Q) :=
  (* first = np.min(np.where(np.diff(x)<2)[0]) *)
  first ← zmin (where_nz (map (fun d => b2z (Qltb d 2)) (diff x)));
  (* last = first + np.min(np.r_[np.where(np.diff(x[first:]) > 1)[0],
                                 x[first:].size - 1]) + 1 *)
  let tail := getslice (from first x) x in
  j ← zmin (where_nz (map (fun d => b2z (Qltb 1 d)) (diff tail))
            ++ [Z.of_nat (length tail) - 1]);
  let last := first + j + 1 in
  (* x *= n *)
  let x := vmul x n in
  (* x = np.r_[x[:first], np.sum(x[first:last]), x[last:]] *)
  let x := getslice (upto first) x
           ++ [qsum (getslice (Slice first last) x)]
           ++ getslice (from last x) x in
  (* n = np.r_[n[:first], np.sum(n[first:last]), n[last:]] *)
  let n := getslice (upto first) n
           ++ [qsum (getslice (Slice first last) n)]
           ++ getslice (from last n) n in
  (* x /= n *)
  Some (vdiv x n, n).

(** [while np.any(np.diff(x) < 2)], with fuel: [None] is an exception of the
    body or the fuel running out. *)
Fixpoint condense_loop (fuel : nat) (x n : list Q)
  : option (list Q * list Q) :=
  if existsb (fun d => Qltb d 2) (diff x) then
    match fuel with
    | O => None
    | S fuel => '(x, n) ← condense_step x n; condense_loop fuel x n
    end
  else Some (x, n).

(** [condense_detections(detections)]: the centres and the number of
    detections of each. *)
Definition condense_detections (fuel : nat) (detections : list Q)
  : option (list Q * list Q) :=
  (* x = detections.copy() + 0. *)
  let x := map (fun v => v + 0)%Q detections in
  (* n = np.ones_like(x) *)
  let n := replicate (length x) 1%Q in
  condense_loop fuel x n.

(** The positions of a group are in ascending order and adjacent ones are
    at most one apart; the group is not empty. *)
Definition adjacent_run (g : list Z) : Prop :=
  g <> [] /\
  forall (i : nat) a b, g !! i = Some a -> g !! S i = Some b ->
    a <= b <= a + 1.

(** Every position of a group is at least two below every position of the
    next group. *)
Definition separated (gs : list (list Z)) : Prop :=
  forall (i : nat) g h a b, gs !! i = Some g -> gs !! S i = Some h ->
    a ∈ g -> b ∈ h -> a + 2 <= b.

(** What [condense_detections] keeps of a group of positions: their mean
    as the centre, their number as the count. *)
Definition centre_of (g : list Z) (c : Q) : Prop :=
  (c == mean (map inject_Z g))%Q.
Definition count_of (g : list Z) (k : Q) : Prop := (k == qlen g)%Q.

(** The state [(x, n)] of the loop of [condense_detections] on ascending
    integer positions: the groups [gs] are condensed and apart, the
    positions [rest] after them are still one group each. *)
Definition condense_inv (gs : list (list Z)) (rest : list Z)
    (x n : list Q) : Prop :=
  Forall2 centre_of (gs ++ map (fun r => [r]) rest) x /\
  Forall2 count_of (gs ++ map (fun r => [r]) rest) n /\
  Forall adjacent_run gs /\
  separated gs /\
  (forall g a b, last gs = Some g -> a ∈ g -> b ∈ rest -> a + 2 <= b) /\
  StronglySorted Z.le rest.

(** * Properties *)

(** ** Slices *)

Section Slices.

Context {A : Type}.
Implicit Types l : list A.

Lemma clip_nonneg n i : 0 <= i -> clip n i = Z.min i n.
Proof. intros. unfold clip. destruct (Z.ltb_spec i 0); lia. Qed.

Lemma getslice_nonneg l a b :
  0 <= a -> 0 <= b ->
  getslice (Slice a b) l = take (Z.to_nat (b - a)) (drop (Z.to_nat a) l).
Proof.
  intros Ha Hb. unfold getslice, slice_len, slice_lo. simpl.
  rewrite !clip_nonneg by lia.
  destruct (Z.le_gt_cases a (Z.of_nat (length l))) as [Hal|Hal].
  - rewrite (Z.min_l a) by lia.
    destruct (Z.le_gt_cases b (Z.of_nat (length l))) as [Hbl|Hbl].
    + by rewrite (Z.min_l b) by lia.
    + rewrite (Z.min_r b) by lia.
      rewrite !take_ge; [done| |]; rewrite length_drop; lia.
  - rewrite (Z.min_r a) by lia.
    rewrite !drop_ge by lia. by rewrite !take_nil.
Qed.

Lemma length_getslice_nonneg l a b :
  0 <= a <= b -> b <= Z.of_nat (length l) ->
  length (getslice (Slice a b) l) = Z.to_nat (b - a).
Proof.
  intros. rewrite getslice_nonneg by lia.
  rewrite length_take, length_drop. lia.
Qed.

(** A slice of a slice is a slice of the whole. *)
Lemma getslice_getslice l a b c e :
  0 <= a <= b -> b <= Z.of_nat (length l) -> 0 <= c -> 0 <= e <= b - a ->
  getslice (Slice c e) (getslice (Slice a b) l) =
  getslice (Slice (a + c) (a + e)) l.
Proof.
  intros Hab Hb Hc He.
  rewrite (getslice_nonneg l a b), (getslice_nonneg l (a + c)) by lia.
  rewrite getslice_nonneg by lia.
  apply list_eq; intros i.
  rewrite !lookup_take, !lookup_drop, lookup_take, lookup_drop.
  replace (Z.to_nat (a + e - (a + c))) with (Z.to_nat (e - c)) by lia.
  case_decide; [|done].
  rewrite decide_True by lia. f_equal; lia.
Qed.

Lemma list_inserts_app_eq l i k :
  (i + length k <= length l)%nat ->
  list_inserts i k l = take i l ++ k ++ drop (i + length k) l.
Proof.
  intros Hlen. apply list_eq; intros j.
  destruct (decide (j < i)%nat) as [Hlt|Hge].
  - rewrite list_lookup_inserts_lt by done.
    rewrite lookup_app_l by (rewrite length_take; lia).
    by rewrite lookup_take_lt.
  - rewrite lookup_app_r by (rewrite length_take; lia).
    rewrite length_take, Nat.min_l by lia.
    destruct (decide (j < i + length k)%nat) as [Hin|Hout].
    + rewrite list_lookup_inserts by lia.
      by rewrite lookup_app_l by lia.
    + rewrite list_lookup_inserts_ge by lia.
      rewrite lookup_app_r by lia. rewrite lookup_drop. f_equal; lia.
Qed.

Lemma slice_lo_nonneg l a b :
  0 <= a <= Z.of_nat (length l) -> slice_lo (Slice a b) l = a.
Proof. intros. unfold slice_lo, clip. simpl. destruct (Z.ltb_spec a 0); lia. Qed.

Lemma slice_len_nonneg l a b :
  0 <= a <= b -> b <= Z.of_nat (length l) ->
  slice_len (Slice a b) l = Z.to_nat (b - a).
Proof.
  intros. unfold slice_len. rewrite slice_lo_nonneg by lia.
  unfold clip. simpl. destruct (Z.ltb_spec b 0); lia.
Qed.

Lemma setslice_nonneg l v a b :
  0 <= a <= b -> b <= Z.of_nat (length l) -> length v = Z.to_nat (b - a) ->
  setslice (Slice a b) v l =
  Some (take (Z.to_nat a) l ++ v ++ drop (Z.to_nat b) l).
Proof.
  intros Hab Hb Hv. unfold setslice.
  rewrite slice_len_nonneg, slice_lo_nonneg by lia.
  rewrite decide_True by done.
  rewrite list_inserts_app_eq by lia. do 4 f_equal. lia.
Qed.

Lemma fillslice_from l (x : A) n :
  0 <= n <= Z.of_nat (length l) ->
  fillslice (from n l) x l =
  take (Z.to_nat n) l ++ replicate (Z.to_nat (Z.of_nat (length l) - n)) x.
Proof.
  intros Hn. unfold fillslice, from.
  rewrite slice_len_nonneg, slice_lo_nonneg by lia.
  rewrite list_inserts_app_eq by (rewrite length_replicate; lia).
  rewrite length_replicate, drop_ge by lia. by rewrite app_nil_r.
Qed.
End Slices.

(** ** The padded block and the subset of a WORK command *)

Lemma worker_w_pos tpl : 1 <= worker_w tpl.
Proof.
  unfold worker_w. pose proof (Z.div_pos (Z.of_nat (length tpl)) 2). lia.
Qed.

(** C4, as the code has it: for a WORK command at [start] the worker takes
    [end = min(start+block_width, L)] and works on the values of [theta] at
    the positions [max(start-w,0) .. min(end+w,L)-1], where the padding is
    [w = template.size/2 + 1]: for a template of odd length, one more than
    its half-width [(template.size-1)/2]. *)
Theorem worker_padded_block (tpl theta : list Q) (bw start : Z) :
  let L := Z.of_nat (length theta) in
  let w := worker_w tpl in
  let end_ := Z.min (start + bw) L in
  0 <= start < L -> 0 < bw ->
  (Z.odd (Z.of_nat (length tpl)) = true ->
   w = (Z.of_nat (length tpl) - 1) / 2 + 1) /\
  block_end L bw start = end_ /\
  getslice (block L bw w start) theta =
    take (Z.to_nat (Z.min (end_ + w) L - Z.max (start - w) 0))
         (drop (Z.to_nat (Z.max (start - w) 0)) theta).
Proof.
  intros L w end_ Hs Hbw.
  pose proof (worker_w_pos tpl) as Hw1. fold w in Hw1. split; [|split].
  - intros Hodd. unfold w, worker_w. f_equal.
    apply Z.odd_spec in Hodd as [k Hk]. rewrite Hk.
    Z.div_mod_to_equations. lia.
  - unfold block_end, end_. lia.
  - unfold block. rewrite getslice_nonneg by (unfold block_end; lia).
    unfold block_end, end_. by rewrite (Z.min_comm L).
Qed.

Lemma worker_padded_block_witness :
  getslice (block 20 10 (worker_w (qs [1; 2; 1])) 10) (qs (prange 0 20)) =
  qs (prange 8 20).
Proof.
  pose proof (worker_padded_block (qs [1; 2; 1]) (qs (prange 0 20)) 10 10)
    as H.
  simpl in H. destruct H as (_ & _ & H); [lia | lia |].
  etrans; [exact H|]. reflexivity.
Defined.

(** C4 as stated fails: for the template [1, 2, 1] of half-width 1 the
    worker pads by 2, and the block at offset 10 of 20 positions starts at
    8, not at 9. *)
Lemma padding_exceeds_half_width :
  let tpl := qs [1; 2; 1] in
  let hw := (Z.of_nat (length tpl) - 1) / 2 in
  Z.odd (Z.of_nat (length tpl)) = true /\
  worker_w tpl <> hw /\
  block 20 10 (worker_w tpl) 10 <>
  Slice (Z.max (10 - hw) 0) (Z.min (Z.min (10 + 10) 20 + hw) 20).
Proof. vm_compute. repeat split; discriminate. Qed.

(** C3, as the code has it: the subset on which the solver runs and the
    perturbation is drawn is the output range [start, end) shortened by [w]
    at each edge that lies inside the sequence ([start != 0], [end != L]),
    and not shortened at an edge on the boundary of the sequence. *)
Theorem subset_trims_interior_edges (tpl theta : list Q) (bw start : Z) :
  let L := Z.of_nat (length theta) in
  let w := worker_w tpl in
  let end_ := block_end L bw start in
  0 <= start < L -> 0 < bw -> w <= start + bw \/ L <= start + bw ->
  getslice (subset L bw w start) (getslice (block L bw w start) theta) =
  getslice (Slice (if start =? 0 then start else start + w)
                  (if end_ =? L then end_ else end_ - w)) theta.
Proof.
  intros L w end_ Hs Hbw Hw.
  pose proof (worker_w_pos tpl) as Hw1. fold w in Hw1.
  unfold subset, block, size_block. simpl. fold end_.
  assert (end_ = Z.min L (start + bw)) as Hend by done.
  rewrite getslice_getslice.
  - f_equal. unfold b2z.
    destruct (Z.eqb_spec start 0), (Z.eqb_spec end_ L); simpl; f_equal; lia.
  - lia.
  - fold L. lia.
  - unfold b2z. destruct (Z.eqb_spec start 0); simpl; lia.
  - unfold b2z. destruct (Z.eqb_spec end_ L); simpl; lia.
Qed.

Lemma subset_trims_interior_edges_witness :
  getslice (subset 20 10 (worker_w (qs [1; 2; 1])) 5)
           (getslice (block 20 10 (worker_w (qs [1; 2; 1])) 5)
                     (qs (prange 0 20))) =
  qs (prange 7 13).
Proof.
  pose proof (subset_trims_interior_edges (qs [1; 2; 1]) (qs (prange 0 20))
                10 5) as H.
  simpl in H. etrans; [apply H; vm_compute; intuition discriminate|].
  reflexivity.
Defined.

(** C3 as stated fails: with 20 positions, blocks of 10 and [w = 2], the
    subset of the block at 10 is [12, 20), not the output range [10, 20):
    it is cut at 10, an edge inside the sequence; and the subset of the
    block at 0 is [0, 8), cut at the inner edge 10 and not at the boundary
    0. *)
Lemma subset_is_not_output_range :
  let theta := qs (prange 0 20) in
  getslice (subset 20 10 2 10) (getslice (block 20 10 2 10) theta) <>
  getslice (Slice 10 (block_end 20 10 10)) theta /\
  getslice (subset 20 10 2 10) (getslice (block 20 10 2 10) theta) =
  qs (prange 12 20) /\
  getslice (subset 20 10 2 0) (getslice (block 20 10 2 0) theta) =
  qs (prange 0 8).
Proof. vm_compute. repeat split; discriminate. Qed.

(** ** The worker: numeric rejection *)




Lemma original_of_block {A} (theta : list A) (bw w start : Z) :
  let L := Z.of_nat (length theta) in
  0 <= start < L -> 0 < bw -> 0 <= w ->
  getslice (original L bw w start) (getslice (block L bw w start) theta) =
  getslice (Slice start (block_end L bw start)) theta.
Proof.
  intros L Hs Hbw Hw. subst L.
  unfold original, block, size_block. simpl. unfold block_end.
  rewrite getslice_getslice by lia. f_equal. f_equal; lia.
Qed.

Section WorkerProps.

Context `{Library}.
Variables (d : data) (block_width : Z) (prop_df : Q).

Local Abbreviation L := (chrom_length d).
Local Abbreviation w := (worker_w (template d)).

Lemma transmit_reject (st : wstate) (start : Z) (g : rng) :
  0 <= start < L -> 0 < block_width ->
  Z.of_nat (length (w_theta st)) = L ->
  Z.of_nat (length (w_ret st)) = block_width ->
  let end_ := block_end L block_width start in
  let st1 := set_ret st (fillslice (from (end_ - start) (w_ret st)) 0%Q
                                   (w_ret st)) in
  transmit d block_width (set_rng st1 g) start
           (getslice (original L block_width w start)
                     (theta_block_of d block_width st start)) 0 =
  Some (WState (w_theta st) (w_mu st) (w_sigmasq st) (rejected d block_width st start) g,
        [Send (rejected d block_width st start) 0]).
Proof.
  intros Hs Hbw Hth Hret end_ st1. unfold transmit, theta_block_of.
  pose proof (worker_w_pos (template d)) as Hw.
  rewrite <- Hth. rewrite original_of_block by lia. rewrite Hth. fold end_.
  assert (start < end_ <= L /\ end_ - start <= block_width) as He
    by (unfold end_, block_end; lia).
  simpl. rewrite fillslice_from by lia. unfold upto.
  rewrite setslice_nonneg.
  - simpl. rewrite drop_app_length' by (rewrite length_take; lia).
    rewrite Hret. done.
  - lia.
  - rewrite length_app, length_take, length_replicate. lia.
  - rewrite length_getslice_nonneg by lia. lia.
Qed.

Lemma rejected_prefix (st : wstate) (start : Z) :
  0 <= start < L -> 0 < block_width ->
  Z.of_nat (length (w_theta st)) = L ->
  let end_ := block_end L block_width start in
  getslice (upto (end_ - start)) (rejected d block_width st start) =
  getslice (Slice start end_) (w_theta st).
Proof.
  intros Hs Hbw Hth end_. unfold rejected, upto. fold end_.
  assert (start < end_ <= L) by (unfold end_, block_end; lia).
  rewrite getslice_nonneg by lia. rewrite drop_0, Z.sub_0_r.
  rewrite take_app_length'; [done|].
  rewrite length_getslice_nonneg by lia. done.
Qed.

End WorkerProps.

(** ** The coordinator: each iteration writes its own row *)

Section Frame.

Context `{Library}.
Variables (d : data) (cfg : config) (n_proc block_width : Z) (prop_df : Q).
Variable arrival : nat -> nat -> nat.

Lemma same_but_row_refl {A} t (a : list A) : same_but_row t a a.
Proof. by split. Qed.

Lemma same_but_row_trans {A} t (a b c : list A) :
  same_but_row t a b -> same_but_row t b c -> same_but_row t a c.
Proof.
  intros [Hl1 H1] [Hl2 H2]. split; [congruence|].
  intros t' Ht. rewrite H2, H1; done.
Qed.

Lemma same_but_row_insert {A} t (a : list A) x : same_but_row t a (<[t := x]> a).
Proof.
  split; [apply length_insert|].
  intros t' Ht. by apply list_lookup_insert_ne.
Qed.

Lemma writes_only_row_refl t s : writes_only_row t s s.
Proof. repeat split. Qed.

Lemma writes_only_row_trans t s1 s2 s3 :
  writes_only_row t s1 s2 -> writes_only_row t s2 s3 ->
  writes_only_row t s1 s3.
Proof.
  intros (?&?&?) (?&?&?). repeat split; eauto using same_but_row_trans;
    eapply same_but_row_trans; eauto.
Qed.

Lemma first_batch_frame ks : forall t s s',
  first_batch d block_width prop_df ks s = Some s' -> writes_only_row t s s'.
Proof.
  induction ks as [|k ks IH]; intros t s s' Hs; simpl in Hs.
  - simplify_eq. apply writes_only_row_refl.
  - simplify_option_eq. apply (IH t) in Hs. exact Hs.
Qed.

Lemma collect_step_frame t s s' :
  collect_step d block_width prop_df arrival t s = Some s' ->
  writes_only_row t s s'.
Proof.
  unfold collect_step. intros Hs.
  destruct (recv_any _ _) as [[[k [ret_val tag]] nodes]|]; simplify_option_eq;
    (split; [apply same_but_row_insert|split; apply same_but_row_refl]).
Qed.

Lemma collect_frame fuel : forall t s s',
  collect d block_width prop_df arrival fuel t s = Some s' ->
  writes_only_row t s s'.
Proof.
  induction fuel as [|fuel IH]; intros t s s' Hs; simpl in Hs;
    case_decide; simplify_option_eq; try apply writes_only_row_refl.
  eapply writes_only_row_trans; [by eapply collect_step_frame|by apply IH].
Qed.

Lemma sweep_start_frame t s s' :
  sweep_start d n_proc block_width prop_df t s = Some s' ->
  writes_only_row t s s'.
Proof.
  unfold sweep_start. intros Hs. simplify_option_eq.
  destruct (shuffle _ _) as [start_vec g].
  eapply writes_only_row_trans; [|by eapply first_batch_frame].
  split; [apply same_but_row_insert|split; apply same_but_row_refl].
Qed.

Lemma sweep_frame t s s' :
  sweep d n_proc block_width prop_df arrival t s = Some s' ->
  writes_only_row t s s'.
Proof.
  unfold sweep. intros Hs. simplify_option_eq.
  eapply writes_only_row_trans; [by eapply sweep_start_frame|].
  by eapply collect_frame.
Qed.

Lemma foldl_bind_None {A B} (f : A -> B -> option A) (l : list B) :
  foldl (fun acc x => a ← acc; f a x) None l = None.
Proof. by induction l. Qed.

Lemma foldl_bind_ind {A B} (f : A -> B -> option A) (R : A -> A -> Prop) :
  (forall a, R a a) -> (forall a b c, R a b -> R b c -> R a c) ->
  forall l : list B,
  (forall a x a', x ∈ l -> f a x = Some a' -> R a a') ->
  forall a a', foldl (fun acc x => a ← acc; f a x) (Some a) l = Some a' ->
               R a a'.
Proof.
  intros Hrefl Htrans l. induction l as [|x l IH]; intros Hf a a' Hfold.
  - simpl in Hfold. by simplify_eq.
  - simpl in Hfold. destruct (f a x) as [a1|] eqn:Hfa.
    + eapply Htrans; [eapply Hf; [left|done]|].
      apply IH; [|done]. intros ???? Hx. eapply Hf; [by right|done].
    + by rewrite foldl_bind_None in Hfold.
Qed.

Lemma gibbs_region_frame t pmean s r s' :
  gibbs_region d cfg t pmean s r = Some s' -> writes_only_row t s s'.
Proof.
  unfold gibbs_region. intros Hs. simplify_option_eq.
  destruct (rgamma _ _ _) as [gam g]. simplify_option_eq.
  destruct (randn g) as [z g']. simplify_option_eq.
  split; [apply same_but_row_refl|split; apply same_but_row_insert].
Qed.

Lemma iteration_frame pmean t s s' :
  iteration d cfg n_proc block_width prop_df arrival pmean t s = Some s' ->
  writes_only_row t s s'.
Proof.
  unfold iteration. intros Hs. simplify_option_eq.
  eapply writes_only_row_trans; [by eapply sweep_frame|].
  unfold gibbs in Hs.
  eapply (foldl_bind_ind _ (writes_only_row t)); [..|exact Hs];
    eauto using writes_only_row_refl, writes_only_row_trans,
                gibbs_region_frame.
Qed.

Lemma iterations_frame pmean a ts s s' :
  Forall (fun t => a <= t)%nat ts ->
  iterations d cfg n_proc block_width prop_df arrival pmean ts s = Some s' ->
  keeps_rows_below a s s'.
Proof.
  intros Hts Hs. unfold iterations in Hs.
  eapply (foldl_bind_ind _ (keeps_rows_below a)); [..|exact Hs].
  - by repeat split.
  - intros s1 s2 s3 [(?&?&?) H12] [(?&?&?) H23].
    split; [repeat split; congruence|]. intros t' Ht.
    destruct (H12 t' Ht) as (?&?&?), (H23 t' Ht) as (?&?&?).
    repeat split; congruence.
  - intros s1 t s2 Ht Hit. apply iteration_frame in Hit.
    rewrite Forall_forall in Hts. apply Hts in Ht.
    destruct Hit as ([? H1]&[? H2]&[? H3]). split; [done|].
    intros t' Ht'. rewrite H1, H2, H3 by lia. done.
Qed.

Lemma set_row0_length a v a' :
  set_row0 a v = Some a' -> length a' = length a.
Proof.
  unfold set_row0. intros. simplify_option_eq. apply length_insert.
Qed.

Lemma master_init_length theta0 mu_i sig_i g nodes s0 :
  master_init d cfg n_proc block_width theta0 mu_i sig_i g nodes = Some s0 ->
  let max_iter := Z.to_nat (mcmc_iterations cfg) in
  length (m_theta s0) = max_iter /\ length (m_mu s0) = max_iter /\
  length (m_sigmasq s0) = max_iter.
Proof.
  intros Hs max_iter. unfold master_init in Hs. simplify_option_eq.
  repeat match goal with
         | Hx : set_row0 _ _ = Some _ |- _ =>
             apply set_row0_length in Hx; rewrite length_replicate in Hx
         end.
  done.
Qed.

(** C9: the histories [theta], [mu], [sigmasq] have [max_iter] rows from
    the start, and the iterations after the [k]-th leave every row up to
    [k] as it was: iteration [t] writes row [t] only. *)
Theorem draw_history_append_only theta0 mu_i sig_i g nodes pmean
    (k n : nat) (s0 s1 s2 : mstate) :
  let run := iterations d cfg n_proc block_width prop_df arrival pmean in
  let max_iter := Z.to_nat (mcmc_iterations cfg) in
  master_init d cfg n_proc block_width theta0 mu_i sig_i g nodes = Some s0 ->
  run (seq 1 k) s0 = Some s1 ->
  run (seq (S k) n) s1 = Some s2 ->
  (length (m_theta s2) = max_iter /\ length (m_mu s2) = max_iter /\
   length (m_sigmasq s2) = max_iter) /\
  forall t', (t' <= k)%nat ->
    m_theta s2 !! t' = m_theta s1 !! t' /\
    m_mu s2 !! t' = m_mu s1 !! t' /\
    m_sigmasq s2 !! t' = m_sigmasq s1 !! t'.
Proof.
  intros run max_iter H0 H1 H2. subst run max_iter.
  apply master_init_length in H0 as (?&?&?).
  apply (iterations_frame _ 1) in H1 as [(?&?&?) _];
    [|apply Forall_seq; intros; lia].
  apply (iterations_frame _ (S k)) in H2 as [(?&?&?) Hrows];
    [|apply Forall_seq; intros; lia].
  split; [repeat split; congruence|].
  intros t' Ht. apply Hrows. lia.
Qed.
End Frame.

(** ** The coordinator: the dispatch loop *)

Lemma count_single (P : nat -> Prop) `{!forall i, Decision (P i)} (i0 n : nat) :
  forall a : nat,
  (forall i, (a <= i < a + n)%nat -> P i <-> i = i0) ->
  length (filter P (seq a n)) =
  if decide (a <= i0 < a + n)%nat then 1%nat else 0%nat.
Proof.
  induction n as [|n IH]; intros a HP; simpl.
  - case_decide; [lia|done].
  - rewrite filter_cons. pose proof (HP a ltac:(lia)) as Ha.
    destruct (decide (P a)) as [Hpa|Hpa];
      [assert (a = i0) by (by apply Ha)
      |assert (a <> i0) by (intros Heq; by apply Hpa, Ha)];
      simpl; rewrite (IH (S a)) by (intros; apply HP; lia);
      repeat case_decide; simpl; lia.
Qed.

Lemma count_none (P : nat -> Prop) `{!forall i, Decision (P i)} (n : nat) :
  forall a : nat,
  (forall i, (a <= i < a + n)%nat -> ~ P i) ->
  length (filter P (seq a n)) = 0%nat.
Proof.
  induction n as [|n IH]; intros a HP; simpl; [done|].
  rewrite filter_cons. rewrite decide_False by (apply HP; lia).
  apply IH. intros. apply HP. lia.
Qed.

Lemma length_filter_fmap {A B} (f : A -> B) (P : B -> Prop)
    `{!forall y, Decision (P y)} (l : list A) :
  length (filter P (f <$> l)) = length (filter (fun x => P (f x)) l).
Proof.
  induction l as [|x l IH]; [done|].
  rewrite fmap_cons, !filter_cons. destruct (decide (P (f x))); simpl; lia.
Qed.

Lemma writes_at_scan (L bw h p : Z) (sv : list Z) :
  0 < bw -> 0 <= h -> 0 <= p < L ->
  arange h L bw = Some sv ->
  writes_at L bw p sv = if p <? h then 0%nat else 1%nat.
Proof.
  intros Hbw Hh Hp Har. unfold arange in Har.
  destruct (Z.eqb_spec bw 0); [lia|]. simplify_eq.
  unfold writes_at. rewrite length_filter_fmap.
  destruct (Z.ltb_spec p h) as [Hlt|Hge].
  - apply count_none. intros i _. unfold covers. simpl. nia.
  - assert (0 <= (p - h) / bw) as Hq by (apply Z.div_pos; lia).
    rewrite (count_single _ (Z.to_nat ((p - h) / bw))).
    + rewrite decide_True; [done|].
      split; [lia|]. simpl.
      assert ((p - h) / bw < - ((h - L) / bw)); [|lia].
      Z.div_mod_to_equations. nia.
    + intros i _. unfold covers. simpl.
      split.
      * intros [H1 H2].
        assert ((p - h) / bw = Z.of_nat i); [|lia].
        symmetry. apply (Z.div_unique _ _ _ (p - h - Z.of_nat i * bw)); lia.
      * intros ->. rewrite Z2Nat.id by done.
        Z.div_mod_to_equations. nia.
Qed.

Lemma writes_at_app L bw p l1 l2 :
  writes_at L bw p (l1 ++ l2) =
  (writes_at L bw p l1 + writes_at L bw p l2)%nat.
Proof. unfold writes_at. by rewrite filter_app, length_app. Qed.

Lemma writes_at_perm L bw p l1 l2 :
  l1 ≡ₚ l2 -> writes_at L bw p l1 = writes_at L bw p l2.
Proof. intros Hp. unfold writes_at. by rewrite Hp. Qed.

Lemma writes_at_scan_starts (L bw p : Z) (sv : list Z) :
  0 < bw -> 0 <= p < L ->
  scan_starts L bw = Some sv ->
  writes_at L bw p sv = if p <? bw / 2 then 1%nat else 2%nat.
Proof.
  intros Hbw Hp Hsv. unfold scan_starts in Hsv. simplify_option_eq.
  rewrite writes_at_app.
  rewrite (writes_at_scan L bw 0 p) by (done || lia).
  rewrite (writes_at_scan L bw (bw / 2) p)
    by (done || lia || (apply Z.div_pos; lia)).
  destruct (Z.ltb_spec p 0); [lia|]. by destruct (p <? bw / 2).
Qed.

Lemma setslice_length {A} (sl : pyslice) (v l l' : list A) :
  setslice sl v l = Some l' -> length l' = length l.
Proof.
  unfold setslice. intros Hs. case_decide; simplify_eq.
  - apply length_inserts.
  - destruct v as [|x [|??]]; simplify_eq. apply length_inserts.
Qed.

Section Dispatch.

Context `{Library}.
Variables (d : data) (cfg : config) (n_proc block_width : Z) (prop_df : Q).
Variable arrival : nat -> nat -> nat.

Local Abbreviation L := (chrom_length d).

Lemma transmit_spec (st st' : wstate) start v tag ev :
  transmit d block_width st start v tag = Some (st', ev) ->
  exists r, ev = [Send r tag] /\ st' = set_ret st r /\
            length r = length (w_ret st).
Proof.
  unfold transmit. intros Ht. simplify_option_eq.
  eexists. split; [done|]. split; [done|]. by eapply setslice_length.
Qed.

(** A WORK command that returns sends one result of the buffer's size and
    leaves the worker's [theta] as it was; a result tagged 0 is made of
    the worker's own values on the output range. *)
Lemma work_spec (st st' : wstate) (start : Z) ev :
  0 <= start < L -> 0 < block_width ->
  Z.of_nat (length (w_theta st)) = L ->
  Z.of_nat (length (w_ret st)) = block_width ->
  work d block_width prop_df st start = Some (st', ev) ->
  exists r tag,
    sends ev = [(r, tag)] /\
    Z.of_nat (length r) = block_width /\
    w_theta st' = w_theta st /\
    Z.of_nat (length (w_ret st')) = block_width /\
    (tag = 0 -> r = rejected d block_width st start).
Proof.
  intros Hs Hbw Hth Hret Hwork. unfold work in Hwork.
  set (st1 := set_ret st _) in Hwork.
  assert (forall g, transmit d block_width (set_rng st1 g) start
            (getslice (original L block_width (worker_w (template d)) start)
                      (theta_block_of d block_width st start)) 0 =
          Some (WState (w_theta st) (w_mu st) (w_sigmasq st)
                       (rejected d block_width st start) g,
                [Send (rejected d block_width st start) 0])) as Hrej.
  { intros g. by apply transmit_reject. }
  assert (Z.of_nat (length (rejected d block_width st start)) = block_width)
    as Hrlen.
  { unfold rejected. rewrite length_app, length_replicate.
    rewrite length_getslice_nonneg by (unfold block_end; lia).
    unfold block_end. lia. }
  destruct (cholesky _) as [f|].
  - destruct (propose _ _ _ _ _ _) as [[z g] tp]. simpl in Hwork.
    destruct tp as [tp|]; [|done]. simpl in Hwork.
    destruct (amax tp) as [m|]; [|done]. simpl in Hwork.
    destruct (Qgeb m _).
    + rewrite (Hrej g) in Hwork. injection Hwork as <- <-.
      eexists _, _. by repeat split.
    + destruct (uniform g) as [u g']. simpl in Hwork.
      destruct (Qltb _ _).
      * destruct (transmit _ _ _ _ _ 1) as [[st2 ev2]|] eqn:Ht; [|done].
        simpl in Hwork. injection Hwork as <- <-.
        apply transmit_spec in Ht as (r & -> & -> & Hlen).
        simpl in Hlen. unfold fillslice in Hlen.
        rewrite length_inserts in Hlen.
        exists r, 1. repeat split; try done; simpl; lia.
      * change (set_rng (set_rng st1 g) g') with (set_rng st1 g') in Hwork.
        rewrite (Hrej g') in Hwork. simpl in Hwork.
        injection Hwork as <- <-.
        eexists _, _. by repeat split.
  - pose proof (Hrej (w_rng st)) as Hr0.
    change (set_rng st1 (w_rng st)) with st1 in Hr0.
    rewrite Hr0 in Hwork. injection Hwork as <- <-.
    eexists _, _. by repeat split.
Qed.

Lemma in_flight_insert assigned nodes (k : nat) a a' nd nd' :
  assigned !! k = Some a -> nodes !! k = Some nd ->
  in_flight (<[k:=a']> assigned) (<[k:=nd']> nodes)
    ++ replicate (length (n_out nd)) a
  ≡ₚ in_flight assigned nodes ++ replicate (length (n_out nd')) a'.
Proof.
  intros Ha Hnd.
  pose proof (lookup_lt_Some _ _ _ Ha) as Hka.
  pose proof (lookup_lt_Some _ _ _ Hnd) as Hkn.
  rewrite (insert_take_drop assigned), (insert_take_drop nodes) by done.
  rewrite <- (take_drop_middle assigned k a) at 3 by done.
  rewrite <- (take_drop_middle nodes k nd) at 3 by done.
  unfold in_flight.
  rewrite !zip_with_app by (rewrite !length_take; lia).
  simpl. rewrite !concat_app. simpl.
  solve_Permutation.
Qed.

Lemma rejected_theta (st1 st2 : wstate) (a : Z) :
  w_theta st1 = w_theta st2 ->
  rejected d block_width st1 a = rejected d block_width st2 a.
Proof. unfold rejected. by intros ->. Qed.

Lemma deliver_spec k c nodes nodes' :
  deliver d block_width prop_df k c nodes = Some nodes' ->
  exists nd ws ev b,
    nodes !! k = Some nd /\
    worker_step d block_width prop_df (n_state nd) c = Some (ws, ev, b) /\
    nodes' = <[k := Node ws (n_out nd ++ sends ev)]> nodes.
Proof.
  unfold deliver. intros Hd.
  destruct (nodes !! k) as [nd|]; [|done]. simpl in Hd.
  destruct (worker_step _ _ _ _ _) as [[[ws ev] b]|] eqn:Hstep; [|done].
  simpl in Hd. simplify_eq. eexists _, _, _, _. by repeat split.
Qed.

(** Dispatching a block to an idle worker. *)
Lemma deliver_work k start nodes nodes' nd a :
  0 < block_width -> 0 <= start < L ->
  nodes !! k = Some nd -> n_out nd = [] -> node_ok d block_width a nd ->
  deliver d block_width prop_df k (WORK start) nodes = Some nodes' ->
  exists nd', nodes' = <[k := nd']> nodes /\ node_ok d block_width start nd' /\
              length (n_out nd') = 1%nat /\
              w_theta (n_state nd') = w_theta (n_state nd).
Proof.
  intros Hbw Hs Hnd Hout (Hth & Hret & _) Hd.
  apply deliver_spec in Hd as (nd0 & ws & ev & b & Hnd0 & Hstep & ->).
  rewrite Hnd in Hnd0. injection Hnd0 as <-. simpl in Hstep.
  destruct (work _ _ _ _ _) as [[st' ev']|] eqn:Hwork; [|done].
  simpl in Hstep. injection Hstep as <- <- <-.
  apply work_spec in Hwork as (r & tag & Hsends & Hrlen & Hth' & Hret' & Hrej);
    try done.
  rewrite Hout, Hsends. simpl.
  eexists. split; [done|]. split; [|done].
  split; [simpl; congruence|]. split; [done|].
  right. exists r, tag. repeat split; try done; try lia.
  intros Htag. rewrite (Hrej Htag). by apply rejected_theta.
Qed.


Lemma node_idle_ok a nd : node_idle d block_width nd -> node_ok d block_width a nd.
Proof. intros (?&?&?). repeat split; auto. Qed.

Lemma Forall_idle_ok assigned nodes :
  length assigned = length nodes -> Forall (node_idle d block_width) nodes ->
  Forall2 (node_ok d block_width) assigned nodes.
Proof.
  intros Hlen Hidle. apply Forall2_same_length_lookup_2; [done|].
  intros i a nd _ Hnd. apply node_idle_ok.
  rewrite Forall_forall in Hidle. apply Hidle.
  by eapply list_elem_of_lookup_2.
Qed.

Lemma deliver_refresh k c theta nodes nodes' nd :
  refresh c theta -> nodes !! k = Some nd ->
  deliver d block_width prop_df k c nodes = Some nodes' ->
  exists ws, nodes' = <[k := Node ws (n_out nd)]> nodes /\
             w_theta ws = theta /\ w_ret ws = w_ret (n_state nd).
Proof.
  intros Hc Hnd Hd.
  apply deliver_spec in Hd as (nd0 & ws & ev & b & Hnd0 & Hstep & ->).
  rewrite Hnd in Hnd0. simplify_eq.
  destruct Hc as [(mu & sigmasq & ->)| ->]; simpl in Hstep; simplify_eq;
    rewrite app_nil_r; eexists; by repeat split.
Qed.

Lemma deliver_refresh_idle k c theta nodes nodes' :
  refresh c theta -> Z.of_nat (length theta) = L ->
  Forall (node_idle d block_width) nodes ->
  deliver d block_width prop_df k c nodes = Some nodes' ->
  Forall (node_idle d block_width) nodes'.
Proof.
  intros Hc Hth Hidle Hd.
  destruct (nodes !! k) as [nd|] eqn:Hnd.
  - destruct (deliver_refresh k c theta nodes nodes' nd Hc Hnd Hd)
      as (ws & -> & Hws & Hret).
    apply Forall_insert; [done|].
    rewrite Forall_forall in Hidle.
    destruct (Hidle nd) as (Hout & _ & Hr);
      [by eapply list_elem_of_lookup_2|].
    repeat split; simpl; congruence.
  - unfold deliver in Hd. by rewrite Hnd in Hd.
Qed.

Lemma sync_all_idle theta mu sigmasq nodes nodes' :
  Z.of_nat (length theta) = L -> Forall (node_idle d block_width) nodes ->
  sync_all d n_proc block_width prop_df theta mu sigmasq nodes = Some nodes' ->
  Forall (node_idle d block_width) nodes' /\ length nodes' = length nodes.
Proof.
  intros Hth Hidle. unfold sync_all.
  generalize (seq 0 (n_workers n_proc)). intros ks. revert nodes'.
  induction ks as [|k ks IH]; intros nodes' Hs; simpl in Hs.
  - by simplify_eq.
  - destruct (foldr _ _ ks) as [nodes1|]; [|done]. simpl in Hs.
    destruct (IH nodes1 eq_refl) as [Hidle1 Hlen1]. split.
    + eapply deliver_refresh_idle; [|done|done|done]. left. eauto.
    + apply deliver_spec in Hs as (?&?&?&?&?&?&->).
      by rewrite length_insert.
Qed.


Lemma first_batch_inv (m : nat) : forall (k0 : nat) (s s' : mstate),
  0 < block_width -> loop_inv d block_width s ->
  (forall k nd, (k0 <= k)%nat -> m_nodes s !! k = Some nd -> n_out nd = []) ->
  first_batch d block_width prop_df (seq k0 m) s = Some s' ->
  loop_inv d block_width s' /\ m_start_vec s' = m_start_vec s /\
  m_theta s' = m_theta s /\ m_completed s' = m_completed s.
Proof.
  induction m as [|m IH]; intros k0 s s' Hbw Hinv Hidle Hfb; simpl in Hfb.
  - by simplify_eq.
  - destruct (m_start_vec s !! m_started s) as [start|] eqn:Hstart; [|done].
    simpl in Hfb.
    destruct (deliver _ _ _ _ _ _) as [nodes1|] eqn:Hdel; [|done].
    simpl in Hfb.
    destruct Hinv as (Hst & Hmc & Hsv & Hrows & Hnodes & Hperm).
    assert (0 <= start < L) as Hrange.
    { rewrite Forall_forall in Hsv. apply Hsv.
      by eapply list_elem_of_lookup_2. }
    destruct (m_nodes s !! k0) as [nd|] eqn:Hnd;
      [|apply deliver_spec in Hdel as (?&?&?&?&?&?); congruence].
    destruct (Forall2_lookup_r _ _ _ _ _ Hnodes Hnd) as (a & Ha & Hok).
    pose proof (Hidle k0 nd (le_n _) Hnd) as Hout.
    destruct (deliver_work k0 start _ _ nd a Hbw Hrange Hnd Hout Hok Hdel)
      as (nd' & -> & Hok' & Hlen' & _).
    apply IH in Hfb; [done|done| |].
    + split; [simpl; by eapply lookup_lt_Some|].
      split; [done|]. split; [done|]. split; [done|].
      split; [by apply Forall2_insert|]. simpl.
      pose proof (in_flight_insert _ _ k0 a start nd nd' Ha Hnd) as Hfl.
      rewrite Hout, Hlen' in Hfl. simpl in Hfl. rewrite app_nil_r in Hfl.
      rewrite Hfl. rewrite <- Hperm at 2.
      rewrite (drop_S _ _ _ Hstart). solve_Permutation.
    + simpl. intros k nd1 Hk Hnd1.
      rewrite list_lookup_insert_ne in Hnd1 by lia.
      eapply Hidle; [|done]. lia.
Qed.

Lemma recv_any_spec choice nodes k msg nodes' :
  recv_any choice nodes = Some (k, msg, nodes') ->
  exists nd rest, nodes !! k = Some nd /\ n_out nd = msg :: rest /\
                  nodes' = <[k := Node (n_state nd) rest]> nodes.
Proof.
  unfold recv_any. intros Hr.
  destruct (ready nodes !! _) as [k'|]; [|done]. simpl in Hr.
  destruct (nodes !! k') as [nd|] eqn:Hnd; [|done]. simpl in Hr.
  destruct (n_out nd) as [|msg' rest] eqn:Hout; [done|]. simplify_eq.
  eexists _, _. by repeat split.
Qed.

Lemma getslice_setslice {A} (row v row' : list A) (a b : Z) :
  0 <= a <= b -> b <= Z.of_nat (length row) ->
  length v = Z.to_nat (b - a) ->
  setslice (Slice a b) v row = Some row' ->
  getslice (Slice a b) row' = v.
Proof.
  intros Hab Hb Hv Hset. rewrite setslice_nonneg in Hset by done.
  simplify_eq. rewrite getslice_nonneg by lia.
  rewrite drop_app_length' by (rewrite length_take; lia).
  by rewrite take_app_length' by lia.
Qed.


Lemma collect_step_inv (t : nat) (s s' : mstate) :
  0 < block_width -> loop_inv d block_width s ->
  collect_step d block_width prop_df arrival t s = Some s' ->
  loop_inv d block_width s' /\ m_start_vec s' = m_start_vec s /\
  m_completed s' = S (m_completed s) /\ merges d block_width t s s'.
Proof.
  intros Hbw (Hst & Hmc & Hsv & Hrows & Hnodes & Hperm) Hstep.
  unfold collect_step in Hstep.
  destruct (recv_any _ _) as [[[k [ret_val tag]] nodes1]|] eqn:Hrecv; [|done].
  simpl in Hstep.
  apply recv_any_spec in Hrecv as (nd & rest & Hnd & Hout & ->).
  destruct (Forall2_lookup_r _ _ _ _ _ Hnodes Hnd) as (a & Ha & Hok).
  rewrite Ha in Hstep. simpl in Hstep.
  destruct Hok as (Hth & Hret & [Hidle|(r & tag' & Hout' & Hrange & Hrlen & Hrej)]);
    [congruence|].
  rewrite Hout in Hout'. injection Hout' as -> -> ->.
  set (end_ := Z.min (a + block_width) L) in *.
  assert (a < end_ <= L /\ end_ - a <= block_width) as Hend
    by (unfold end_; lia).
  destruct (m_theta s !! t) as [row|] eqn:Hrow; [|done]. simpl in Hstep.
  assert (Z.of_nat (length row) = L) as Hrowlen.
  { rewrite Forall_forall in Hrows. apply Hrows.
    by eapply list_elem_of_lookup_2. }
  destruct (setslice _ _ row) as [row'|] eqn:Hset; [|done]. simpl in Hstep.
  assert (length (getslice (upto (end_ - a)) r) = Z.to_nat (end_ - a))
    as Hvlen.
  { unfold upto. rewrite length_getslice_nonneg by lia. f_equal. lia. }
  pose proof (setslice_length _ _ _ _ Hset) as Hrow'len.
  assert (Forall (fun row => Z.of_nat (length row) = L)
                 (<[t:=row']> (m_theta s))) as Hrows'.
  { apply Forall_insert; [done|]. lia. }
  assert (tag' = 0 ->
          getslice (Slice a end_) row' =
          getslice (Slice a end_) (w_theta (n_state nd))) as Hkeep.
  { intros Htag.
    rewrite (getslice_setslice row (getslice (upto (end_ - a)) r) row' a end_
               ltac:(lia) ltac:(lia) Hvlen Hset).
    rewrite (Hrej Htag).
    assert (end_ = block_end L block_width a) as ->
      by (unfold end_, block_end; lia).
    apply rejected_prefix; lia. }
  assert (node_ok d block_width a (Node (n_state nd) [])) as Hok1
    by (repeat split; auto).
  pose proof (in_flight_insert _ _ k a a nd (Node (n_state nd) []) Ha Hnd)
    as Hfl1.
  rewrite list_insert_id in Hfl1 by done. rewrite Hout in Hfl1.
  simpl in Hfl1. rewrite app_nil_r in Hfl1.
  assert ((<[k:=Node (n_state nd) []]> (m_nodes s)) !! k =
          Some (Node (n_state nd) [])) as Hnd1
    by (apply list_lookup_insert_eq; by eapply lookup_lt_Some).
  case_decide as Hmore.
  - destruct (deliver _ _ _ _ (UPDATE row') _) as [nodes2|] eqn:Hupd; [|done].
    simpl in Hstep.
    destruct (deliver_refresh k (UPDATE row') row' _ _ _ ltac:(by right)
                Hnd1 Hupd) as (ws & -> & Hws & Hwret).
    rewrite list_insert_insert_eq in Hstep.
    destruct (m_start_vec s !! m_started s) as [next|] eqn:Hnext; [|done].
    simpl in Hstep.
    destruct (deliver _ _ _ _ (WORK next) _) as [nodes3|] eqn:Hwork; [|done].
    simpl in Hstep. injection Hstep as <-. subst row'.
    assert (0 <= next < L) as Hnrange.
    { rewrite Forall_forall in Hsv. apply Hsv.
      by eapply list_elem_of_lookup_2. }
    assert ((<[k:=Node ws []]> (m_nodes s)) !! k = Some (Node ws [])) as Hnd2
      by (apply list_lookup_insert_eq; by eapply lookup_lt_Some).
    assert (node_ok d block_width a (Node ws [])) as Hok2.
    { split; [simpl; lia|]. split; [simpl|by left].
      simpl in Hwret. by rewrite Hwret. }
    destruct (deliver_work k next _ _ _ a Hbw Hnrange Hnd2 eq_refl Hok2 Hwork)
      as (nd3 & -> & Hok3 & Hlen3 & Hth3).
    rewrite list_insert_insert_eq.
    split; [|split; [done|split; [done|]]].
    + split; [simpl; lia|]. split; [simpl; lia|]. split; [done|].
      split; [done|]. split; [by apply Forall2_insert|]. simpl.
      pose proof (in_flight_insert _ _ k a next nd nd3 Ha Hnd) as Hfl3.
      rewrite Hout, Hlen3 in Hfl3. simpl in Hfl3.
      set (F' := in_flight _ _) in Hfl3 |- *.
      trans ((m_merged s).*1 ++ (F' ++ [a])
             ++ drop (S (m_started s)) (m_start_vec s));
        [solve_Permutation|].
      rewrite Hfl3. rewrite <- Hperm at 2. rewrite (drop_S _ _ _ Hnext).
      solve_Permutation.
    + exists k, nd, a, tag', (w_theta ws). simpl.
      split; [done|]. split; [done|]. split; [done|].
      split; [apply list_lookup_insert_eq; by eapply lookup_lt_Some|].
      split; [done|]. intros _. exists nd3.
      split; [apply list_lookup_insert_eq; by eapply lookup_lt_Some|done].
  - injection Hstep as <-. split; [|split; [done|split; [done|]]].
    + split; [simpl; lia|]. split; [simpl; lia|]. split; [done|].
      split; [done|]. split.
      { simpl. rewrite <- (list_insert_id (m_assigned s) k a) by done.
        by apply Forall2_insert. }
      simpl. set (F' := in_flight _ _) in Hfl1 |- *.
      trans ((m_merged s).*1 ++ (F' ++ [a])
             ++ drop (m_started s) (m_start_vec s));
        [solve_Permutation|].
      by rewrite Hfl1.
    + exists k, nd, a, tag', row'. simpl.
      split; [done|]. split; [done|]. split; [done|].
      split; [apply list_lookup_insert_eq; by eapply lookup_lt_Some|].
      split; [done|]. intros Hlt. lia.
Qed.


Lemma collect_step_counts t s s' :
  collect_step d block_width prop_df arrival t s = Some s' ->
  m_completed s' = S (m_completed s) /\ m_start_vec s' = m_start_vec s.
Proof.
  unfold collect_step. intros Hs.
  destruct (recv_any _ _) as [[[k [ret_val tag]] nodes]|]; by simplify_option_eq.
Qed.

(** Fuel beyond the number of results still awaited changes nothing. *)
Lemma collect_fuel (fuel : nat) : forall (extra : nat) t s,
  (length (m_start_vec s) - m_completed s <= fuel)%nat ->
  collect d block_width prop_df arrival (fuel + extra) t s =
  collect d block_width prop_df arrival fuel t s.
Proof.
  induction fuel as [|fuel IH]; intros extra t s Hfuel.
  - destruct extra; simpl; case_decide; (done || lia).
  - simpl. case_decide; [|done].
    destruct (collect_step _ _ _ _ _ _) as [s1|] eqn:Hstep; [|done]. simpl.
    apply collect_step_counts in Hstep as [Hc Hv].
    apply IH. rewrite Hc, Hv. lia.
Qed.

Lemma collect_inv (fuel : nat) : forall t s s',
  0 < block_width -> loop_inv d block_width s ->
  collect d block_width prop_df arrival fuel t s = Some s' ->
  loop_inv d block_width s' /\ m_start_vec s' = m_start_vec s /\
  (length (m_start_vec s') <= m_completed s')%nat.
Proof.
  induction fuel as [|fuel IH]; intros t s s' Hbw Hinv Hc; simpl in Hc;
    case_decide; simplify_eq; try (split; [done|split; [done|lia]]).
  destruct (collect_step _ _ _ _ _ _) as [s1|] eqn:Hstep; [|done].
  simpl in Hc.
  apply collect_step_inv in Hstep as (Hinv1 & Hv1 & _); [|done..].
  apply IH in Hc as (? & ? & ?); [|done..].
  split; [done|]. split; [congruence|done].
Qed.

Lemma in_flight_length_idle assigned nodes :
  Forall2 (node_ok d block_width) assigned nodes -> in_flight assigned nodes = [] ->
  Forall (node_idle d block_width) nodes.
Proof.
  unfold in_flight.
  induction 1 as [|a nd assigned nodes Hok _ IH]; intros Hnil; [done|].
  simpl in Hnil. apply app_eq_nil in Hnil as [Hrep Hrest].
  constructor; [|by apply IH].
  destruct Hok as (? & ? & [Hout|(r & tag & Hout & _)]); [done|].
  rewrite Hout in Hrep. done.
Qed.

Lemma in_flight_idle assigned nodes :
  Forall (node_idle d block_width) nodes -> in_flight assigned nodes = [].
Proof.
  unfold in_flight. intros Hidle. revert assigned.
  induction Hidle as [|nd nodes (Hout & _) _ IH]; intros [|a assigned];
    simpl; try done.
  by rewrite Hout, IH.
Qed.

(** When the dispatch loop is over, every scheduled block has been merged
    once and every worker is idle. *)
Lemma loop_end s :
  loop_inv d block_width s -> (length (m_start_vec s) <= m_completed s)%nat ->
  (m_merged s).*1 ≡ₚ m_start_vec s /\ Forall (node_idle d block_width) (m_nodes s).
Proof.
  intros (Hst & Hmc & Hsv & Hrows & Hnodes & Hperm) Hdone.
  pose proof (Permutation_length Hperm) as Hlen.
  rewrite !length_app, length_fmap, length_drop, Hmc in Hlen.
  assert (in_flight (m_assigned s) (m_nodes s) = []) as Hfl
    by (apply length_zero_iff_nil; lia).
  assert (drop (m_started s) (m_start_vec s) = []) as Hdrop
    by (apply length_zero_iff_nil; rewrite length_drop; lia).
  rewrite Hfl, Hdrop, !app_nil_r in Hperm.
  split; [done|]. by eapply in_flight_length_idle.
Qed.


Lemma arange_range (h stop bw : Z) (sv : list Z) :
  0 < bw -> 0 <= h -> arange h stop bw = Some sv ->
  Forall (fun st => 0 <= st < stop) sv.
Proof.
  intros Hbw Hh Har. unfold arange in Har.
  destruct (Z.eqb_spec bw 0); [lia|]. simplify_eq.
  apply Forall_fmap, Forall_seq. intros i Hi. simpl.
  split; [nia|].
  assert (Z.of_nat i < - ((h - stop) / bw)) as Hlt by lia.
  revert Hlt. Z.div_mod_to_equations. nia.
Qed.

Lemma scan_starts_range (sv : list Z) :
  0 < block_width -> scan_starts L block_width = Some sv ->
  Forall (fun st => 0 <= st < L) sv.
Proof.
  intros Hbw Hsv. unfold scan_starts in Hsv. simplify_option_eq.
  apply Forall_app. split.
  - by eapply (arange_range 0).
  - eapply (arange_range (block_width / 2)); [done| |done].
    apply Z.div_pos; lia.
Qed.

Lemma sweep_start_inv (sv : list Z) (t : nat) (s s1 : mstate) :
  0 < block_width -> Forall (fun st => 0 <= st < L) sv ->
  sweep_ready d block_width sv s ->
  sweep_start d n_proc block_width prop_df t s = Some s1 ->
  loop_inv d block_width s1 /\ m_start_vec s1 ≡ₚ sv.
Proof.
  intros Hbw Hrange (Hperm & Hrows & Hlen & Hidle) Hs.
  unfold sweep_start in Hs.
  destruct (m_theta s !! (t - 1)%nat) as [prev|] eqn:Hprev; [|done].
  simpl in Hs.
  destruct (m_mu s !! _) as [mu_prev|]; [|done]. simpl in Hs.
  destruct (m_sigmasq s !! _) as [sig_prev|]; [|done]. simpl in Hs.
  assert (Z.of_nat (length prev) = L) as Hprevlen.
  { rewrite Forall_forall in Hrows. apply Hrows.
    by eapply list_elem_of_lookup_2. }
  destruct (sync_all _ _ _ _ _ _ _ _) as [nodes1|] eqn:Hsync; [|done].
  simpl in Hs.
  apply sync_all_idle in Hsync as [Hidle1 Hlen1]; [|done..].
  case_guard; [|done]. simpl in Hs.
  pose proof (shuffle_perm (m_start_vec s) (m_rng s)) as Hshuf.
  destruct (shuffle _ _) as [start_vec g]. simpl in Hshuf.
  apply first_batch_inv in Hs as (Hinv & Hv & _); [|done| |].
  - split; [done|]. rewrite Hv. simpl. by rewrite Hshuf.
  - split; [simpl; lia|]. split; [done|]. simpl.
    split; [by rewrite Hshuf, Hperm|].
    split; [apply Forall_insert; done|].
    split; [apply Forall_idle_ok; [congruence|done]|].
    by rewrite in_flight_idle.
  - simpl. intros k nd _ Hnd. rewrite Forall_forall in Hidle1.
    apply (Hidle1 nd). by eapply list_elem_of_lookup_2.
Qed.

Lemma collect_frame_fields fuel : forall t s s',
  collect d block_width prop_df arrival fuel t s = Some s' ->
  length (m_assigned s') = length (m_assigned s).
Proof.
  induction fuel as [|fuel IH]; intros t s s' Hc; simpl in Hc;
    case_decide; simplify_eq; try done.
  destruct (collect_step _ _ _ _ _ _) as [s1|] eqn:Hstep; [|done].
  simpl in Hc. apply IH in Hc. rewrite Hc.
  unfold collect_step in Hstep.
  destruct (recv_any _ _) as [[[k [ret_val tag]] nodes]|];
    simplify_option_eq; by rewrite ?length_insert.
Qed.

(** An iteration merges one result per scheduled block and leaves the
    coordinator ready for the next iteration. *)
Lemma sweep_merges_schedule (sv : list Z) (t : nat) (s s' : mstate) :
  0 < block_width -> Forall (fun st => 0 <= st < L) sv ->
  sweep_ready d block_width sv s ->
  sweep d n_proc block_width prop_df arrival t s = Some s' ->
  (m_merged s').*1 ≡ₚ sv /\ sweep_ready d block_width sv s'.
Proof.
  intros Hbw Hrange Hready Hs. unfold sweep in Hs.
  destruct (sweep_start _ _ _ _ _ _) as [s1|] eqn:Hstart; [|done].
  simpl in Hs.
  apply (sweep_start_inv sv) in Hstart as [Hinv1 Hv1]; [|done..].
  pose proof (collect_inv _ _ _ _ Hbw Hinv1 Hs) as (Hinv' & Hv' & Hdone).
  destruct (loop_end _ Hinv' Hdone) as [Hperm Hidle].
  split; [by rewrite Hperm, Hv'|].
  split; [by rewrite Hv'|].
  destruct Hinv' as (_ & _ & _ & Hrows & Hnodes & _).
  split; [done|]. split; [by eapply Forall2_length|done].
Qed.


Lemma collect_steps_inv (n : nat) : forall t s s',
  0 < block_width -> loop_inv d block_width s -> collect_steps d block_width prop_df arrival n t s = Some s' ->
  loop_inv d block_width s'.
Proof.
  induction n as [|n IH]; intros t s s' Hbw Hinv Hc; simpl in Hc.
  - by simplify_eq.
  - destruct (collect_step _ _ _ _ _ _) as [s1|] eqn:Hstep; [|done].
    simpl in Hc. apply collect_step_inv in Hstep as (Hinv1 & _); [|done..].
    by eapply IH.
Qed.





Lemma gibbs_region_ready sv t pmean s r s' :
  gibbs_region d cfg t pmean s r = Some s' ->
  sweep_ready d block_width sv s -> sweep_ready d block_width sv s'.
Proof.
  unfold gibbs_region. intros Hs Hready. simplify_option_eq.
  destruct (rgamma _ _ _) as [gam g]. simplify_option_eq.
  destruct (randn g) as [z g']. simplify_option_eq.
  exact Hready.
Qed.

Lemma iteration_ready sv pmean t s s' :
  0 < block_width -> Forall (fun st => 0 <= st < L) sv ->
  iteration d cfg n_proc block_width prop_df arrival pmean t s = Some s' ->
  sweep_ready d block_width sv s -> sweep_ready d block_width sv s'.
Proof.
  intros Hbw Hrange Hit Hready. unfold iteration in Hit.
  destruct (sweep _ _ _ _ _ _ _) as [s1|] eqn:Hsweep; [|done]. simpl in Hit.
  apply (sweep_merges_schedule sv) in Hsweep as [_ Hready1]; [|done..].
  revert Hready1. unfold gibbs in Hit.
  eapply (foldl_bind_ind _ (fun s s' => sweep_ready d block_width sv s -> sweep_ready d block_width sv s'));
    [..|exact Hit]; eauto using gibbs_region_ready.
Qed.

Lemma iterations_ready sv pmean ts s s' :
  0 < block_width -> Forall (fun st => 0 <= st < L) sv ->
  iterations d cfg n_proc block_width prop_df arrival pmean ts s = Some s' ->
  sweep_ready d block_width sv s -> sweep_ready d block_width sv s'.
Proof.
  intros Hbw Hrange Hit. unfold iterations in Hit.
  eapply (foldl_bind_ind _ (fun s s' => sweep_ready d block_width sv s -> sweep_ready d block_width sv s'));
    [..|exact Hit]; [auto|auto|].
  intros s1 t s2 _ Hstep Hr. simpl in Hstep.
  eapply iteration_ready; [done|done|exact Hstep|exact Hr].
Qed.

Lemma set_row0_rows (n : nat) (a : list (list Q)) (v : list Q) a' :
  Forall (fun row => length row = n) a ->
  set_row0 a v = Some a' -> Forall (fun row => length row = n) a'.
Proof.
  unfold set_row0. intros Ha Hs.
  destruct (a !! 0%nat) as [row|] eqn:Hrow; [|done]. simpl in Hs.
  destruct (setslice _ _ _) as [row'|] eqn:Hset; [|done]. simpl in Hs.
  simplify_eq. apply Forall_insert; [done|].
  rewrite (setslice_length _ _ _ _ Hset).
  rewrite Forall_forall in Ha. apply Ha. by eapply list_elem_of_lookup_2.
Qed.

Lemma master_init_ready theta0 mu_i sig_i g nodes s0 :
  Forall (node_idle d block_width) nodes -> length nodes = n_workers n_proc ->
  master_init d cfg n_proc block_width theta0 mu_i sig_i g nodes = Some s0 ->
  0 < block_width /\
  exists sv, scan_starts L block_width = Some sv /\ sweep_ready d block_width sv s0.
Proof.
  intros Hidle Hlen Hinit. unfold master_init in Hinit.
  simplify_option_eq.
  match goal with
  | Hbw : 0 <= block_width, Hsv : scan_starts _ _ = Some ?sv,
    Htheta : set_row0 _ theta0 = Some _ |- _ =>
      assert (block_width <> 0) as Hne
        by (intros ->; unfold scan_starts, arange in Hsv; by simpl in Hsv);
      split; [lia|]; exists sv; split; [done|];
      split; [done|]; simpl; split;
        [apply (set_row0_rows (Z.to_nat L)) in Htheta|]
  end.
  - eapply Forall_impl; [done|]. simpl. intros row ->.
    unfold chrom_length. lia.
  - apply Forall_replicate. by rewrite length_replicate.
  - split; [by rewrite length_replicate|done].
Qed.


Lemma work_theta (st st' : wstate) (start : Z) ev :
  work d block_width prop_df st start = Some (st', ev) ->
  w_theta st' = w_theta st.
Proof.
  unfold work. intros Hwork.
  destruct (cholesky _) as [f|].
  - destruct (propose _ _ _ _ _ _) as [[z g] tp]. simpl in Hwork.
    destruct tp as [tp|]; [|done]. simpl in Hwork.
    destruct (amax tp) as [m|]; [|done]. simpl in Hwork.
    destruct (Qgeb m _).
    + by apply transmit_spec in Hwork as (r & _ & -> & _).
    + destruct (uniform g) as [u g']. simpl in Hwork.
      destruct (Qltb _ _);
        (destruct (transmit _ _ _ _ _ _) as [[st2 ev2]|] eqn:Ht; [|done]);
        simpl in Hwork; injection Hwork as <- <-;
        by apply transmit_spec in Ht as (r & _ & -> & _).
  - by apply transmit_spec in Hwork as (r & _ & -> & _).
Qed.

Lemma first_batch_theta (ks : list nat) : forall s s' j nd',
  first_batch d block_width prop_df ks s = Some s' ->
  m_nodes s' !! j = Some nd' ->
  exists nd, m_nodes s !! j = Some nd /\
             w_theta (n_state nd') = w_theta (n_state nd).
Proof.
  induction ks as [|k ks IH]; intros s s' j nd' Hfb Hj; simpl in Hfb.
  - simplify_eq. eauto.
  - destruct (m_start_vec s !! m_started s) as [start|]; [|done].
    simpl in Hfb.
    destruct (deliver _ _ _ _ _ _) as [nodes1|] eqn:Hdel; [|done].
    simpl in Hfb.
    destruct (IH _ _ _ _ Hfb Hj) as (nd1 & Hnd1 & Hth1). simpl in Hnd1.
    apply deliver_spec in Hdel as (nd & ws & ev & b & Hnd & Hstep & ->).
    destruct (decide (j = k)) as [->|Hne].
    + rewrite list_lookup_insert_eq in Hnd1 by (by eapply lookup_lt_Some).
      simplify_eq. exists nd. split; [done|]. rewrite Hth1. simpl.
      simpl in Hstep.
      destruct (work _ _ _ _ _) as [[st' ev']|] eqn:Hwork; [|done].
      simpl in Hstep. simplify_eq. by eapply work_theta.
    + rewrite list_lookup_insert_ne in Hnd1 by done. eauto.
Qed.

Lemma sync_all_theta theta mu sigmasq nodes nodes' (j : nat) nd' :
  sync_all d n_proc block_width prop_df theta mu sigmasq nodes = Some nodes' ->
  (j < n_workers n_proc)%nat -> nodes' !! j = Some nd' ->
  w_theta (n_state nd') = theta.
Proof.
  unfold sync_all. intros Hs Hj.
  assert (j ∈ seq 0 (n_workers n_proc)) as Hin by (apply elem_of_seq; lia).
  revert Hin Hs. generalize (seq 0 (n_workers n_proc)). intros ks.
  revert nodes' nd'.
  induction ks as [|k ks IH]; intros nodes' nd' Hin Hs Hnd'; simpl in Hs.
  - by apply elem_of_nil in Hin.
  - destruct (foldr _ _ ks) as [nodes1|] eqn:Hfold; [|done]. simpl in Hs.
    destruct (nodes1 !! k) as [nd1|] eqn:Hnd1;
      [|apply deliver_spec in Hs as (?&?&?&?&?&?); congruence].
    destruct (deliver_refresh k _ theta _ _ nd1 ltac:(left; eauto) Hnd1 Hs)
      as (ws & -> & Hws & _).
    destruct (decide (j = k)) as [->|Hne].
    + rewrite list_lookup_insert_eq in Hnd' by (by eapply lookup_lt_Some).
      by simplify_eq.
    + rewrite list_lookup_insert_ne in Hnd' by done.
      apply elem_of_cons in Hin as [?|Hin]; [done|].
      by eapply IH.
Qed.

(** The workers start the dispatch loop of iteration [t] with
    [theta[t-1]]. *)
Lemma sweep_start_theta t s s1 (j : nat) nd :
  sweep_start d n_proc block_width prop_df t s = Some s1 ->
  (j < n_workers n_proc)%nat -> m_nodes s1 !! j = Some nd ->
  m_theta s !! (t - 1)%nat = Some (w_theta (n_state nd)).
Proof.
  intros Hs Hj Hnd. unfold sweep_start in Hs.
  destruct (m_theta s !! (t - 1)%nat) as [prev|] eqn:Hprev; [|done].
  simpl in Hs.
  destruct (m_mu s !! _) as [mu_prev|]; [|done]. simpl in Hs.
  destruct (m_sigmasq s !! _) as [sig_prev|]; [|done]. simpl in Hs.
  destruct (sync_all _ _ _ _ _ _ _ _) as [nodes1|] eqn:Hsync; [|done].
  simpl in Hs. case_guard; simpl in Hs; [|done].
  destruct (shuffle _ _) as [start_vec g].
  destruct (first_batch_theta _ _ _ _ _ Hs Hnd) as (nd1 & Hnd1 & ->).
  simpl in Hnd1. f_equal. symmetry. by eapply sync_all_theta.
Qed.


(** C5, as the code has it: when the coordinator merges a result tagged 0,
    [theta[t, start:end]] becomes the sending worker's own [theta] on that
    range.  That copy is [theta[t-1]] when the dispatch loop starts, and
    the row [theta[t]] as it stood when the block was dispatched for a
    worker that was given its block inside the loop. *)
Theorem rejected_block_keeps_worker_values theta0 mu_i sig_i g nodes pmean
    (k n : nat) (s0 s1 s2 s3 s4 : mstate) :
  Forall (node_idle d block_width) nodes -> length nodes = n_workers n_proc ->
  master_init d cfg n_proc block_width theta0 mu_i sig_i g nodes = Some s0 ->
  iterations d cfg n_proc block_width prop_df arrival pmean (seq 1 k) s0
    = Some s1 ->
  sweep_start d n_proc block_width prop_df (S k) s1 = Some s2 ->
  collect_steps d block_width prop_df arrival n (S k) s2 = Some s3 ->
  collect_step d block_width prop_df arrival (S k) s3 = Some s4 ->
  merges d block_width (S k) s3 s4 /\
  (forall j nd, (j < n_workers n_proc)%nat -> m_nodes s2 !! j = Some nd ->
                m_theta s1 !! k = Some (w_theta (n_state nd))).
Proof.
  intros Hidle Hlen Hinit Hrun Hstart Hsteps Hstep.
  destruct (master_init_ready _ _ _ _ _ _ Hidle Hlen Hinit)
    as (Hbw & sv & Hsv & Hready0).
  pose proof (scan_starts_range sv Hbw Hsv) as Hrange.
  pose proof (iterations_ready sv _ _ _ _ Hbw Hrange Hrun Hready0) as Hready1.
  destruct (sweep_start_inv sv _ _ _ Hbw Hrange Hready1 Hstart) as [Hinv2 _].
  pose proof (collect_steps_inv _ _ _ _ Hbw Hinv2 Hsteps) as Hinv3.
  split; [by destruct (collect_step_inv _ _ _ Hbw Hinv3 Hstep)
            as (_ & _ & _ & Hm)|].
  intros j nd Hj Hnd.
  pose proof (sweep_start_theta _ _ _ _ _ Hstart Hj Hnd) as Hth.
  by rewrite Nat.sub_1_r in Hth.
Qed.

End Dispatch.

(** ** The theorems above on the scenario *)


Lemma draw_history_append_only_witness :
  exists s1 s2 : @mstate toy_library,
    m_theta s2 !! 1%nat = m_theta s1 !! 1%nat /\
    m_mu s2 !! 1%nat = m_mu s1 !! 1%nat /\
    length (m_theta s2) = 3%nat.
Proof.
  destruct (@master_init toy_library d20 cfg20 2 10 theta20 [0%Q] [1%Q]
              0%nat [node20]) as [s0|] eqn:E0;
    [|vm_compute in E0; discriminate].
  destruct (@iterations toy_library d20 cfg20 2 10 5 arrival0 [(-11 # 20)%Q]
              (seq 1 1) s0) as [s1|] eqn:E1;
    [|vm_compute in E0; injection E0 as <-; vm_compute in E1; discriminate].
  destruct (@iterations toy_library d20 cfg20 2 10 5 arrival0 [(-11 # 20)%Q]
              (seq 2 1) s1) as [s2|] eqn:E2;
    [|vm_compute in E0; injection E0 as <-;
      vm_compute in E1; injection E1 as <-;
      vm_compute in E2; discriminate].
  destruct (draw_history_append_only d20 cfg20 2 10 5 arrival0 _ _ _ _ _ _
              1 1 s0 s1 s2 E0 E1 E2) as [(Hlen & _ & _) Hrows].
  destruct (Hrows 1%nat (le_n 1)) as (Hth & Hmu & _).
  exists s1, s2. split; [exact Hth|]. split; [exact Hmu|exact Hlen].
Defined.

(** ** Region-level draws *)

Lemma inject_Z_pos n : 0 < n -> (0 < inject_Z n)%Q.
Proof. intros. change 0%Q with (inject_Z 0). by rewrite <- Zlt_Qlt. Qed.

(** The shape [n/.2 + a0] is [5 n + a0], and for [n > 0] it is not
    [n/2 + a0]. *)
Lemma init_shape_neq (cfg : config) (n : Z) :
  (init_shape_sigmasq cfg n == 5 * inject_Z n + a0 cfg)%Q /\
  (0 < n -> ~ (init_shape_sigmasq cfg n == shape_sigmasq cfg n)%Q).
Proof.
  assert (init_shape_sigmasq cfg n == 5 * inject_Z n + a0 cfg)%Q as Heq.
  { unfold init_shape_sigmasq. field. }
  split; [done|]. intros Hn Hsame. rewrite Heq in Hsame.
  unfold shape_sigmasq in Hsame. apply inject_Z_pos in Hn.
  assert (inject_Z n / 2 == (1 # 2) * inject_Z n)%Q as Hhalf by field.
  rewrite Hhalf in Hsame. lra.
Qed.

Lemma qsum_nonneg (l : list Q) : Forall (fun x => 0 <= x)%Q l -> (0 <= qsum l)%Q.
Proof.
  induction 1 as [|x l Hx Hl IH]; simpl; [apply Qle_refl|].
  change 0%Q with (0 + 0)%Q at 1. by apply Qplus_le_compat.
Qed.

Lemma qlen_nonneg {A} (l : list A) : (0 <= qlen l)%Q.
Proof. unfold qlen. change 0%Q with (inject_Z 0). rewrite <- Zle_Qle. lia. Qed.

Lemma mean_nonneg (l : list Q) : Forall (fun x => 0 <= x)%Q l -> (0 <= mean l)%Q.
Proof.
  intros Hl. unfold mean, Qdiv. apply Qmult_le_0_compat.
  - by apply qsum_nonneg.
  - apply Qinv_le_0_compat, qlen_nonneg.
Qed.

Lemma var_nonneg (l : list Q) : (0 <= var l)%Q.
Proof.
  unfold var. apply mean_nonneg. apply Forall_map, Forall_forall.
  intros x _. simpl. generalize (x - mean l)%Q. intros q.
  destruct (Qlt_le_dec q 0) as [Hq|Hq]; nra.
Qed.

Lemma var_singleton (x : Q) : (var [x] == 0)%Q.
Proof. unfold var, mean, qlen, qsum. simpl. field. Qed.

Lemma getitem_inrange {A} (l : list A) (i : Z) :
  0 <= i < Z.of_nat (length l) -> getitem l i = l !! Z.to_nat i.
Proof.
  intros Hi. unfold getitem.
  destruct (Z.leb_spec 0 i), (Z.ltb_spec i (Z.of_nat (length l))); simpl; done || lia.
Qed.

Lemma setitem_inrange {A} (l : list A) (i : Z) (x : A) :
  0 <= i < Z.of_nat (length l) -> setitem l i x = Some (<[Z.to_nat i := x]> l).
Proof.
  intros Hi. unfold setitem.
  destruct (Z.leb_spec 0 i), (Z.ltb_spec i (Z.of_nat (length l))); simpl; done || lia.
Qed.

Lemma getitem_setitem {A} (l : list A) (i : Z) (x : A) :
  0 <= i < Z.of_nat (length l) ->
  getitem (<[Z.to_nat i := x]> l) i = Some x.
Proof.
  intros Hi. rewrite getitem_inrange by (rewrite length_insert; lia).
  apply list_lookup_insert_eq. lia.
Qed.

Section GibbsProps.

Context `{Library}.
Variables (d : data) (cfg : config).

Lemma rate_sigmasq_ge_b0 n vals pm :
  0 <= n -> (0 <= k0 cfg)%Q -> (b0 cfg <= rate_sigmasq cfg n vals pm)%Q.
Proof.
  intros Hn Hk. unfold rate_sigmasq, Qdiv.
  assert (0 <= inject_Z n)%Q as Hnq
    by (change 0%Q with (inject_Z 0); by rewrite <- Zle_Qle).
  pose proof (var_nonneg vals) as Hv.
  assert (0 <= / (1 + k0 cfg))%Q as Hi by (apply Qinv_le_0_compat; lra).
  assert (0 <= var vals * inject_Z n * / 2)%Q as H1.
  { apply Qmult_le_0_compat; [by apply Qmult_le_0_compat|].
    apply Qinv_le_0_compat. lra. }
  assert (0 <= k0 cfg * inject_Z n * / 2 * / (1 + k0 cfg)
               * ((mean vals - pm) * (mean vals - pm)))%Q as H2.
  { apply Qmult_le_0_compat;
      [apply Qmult_le_0_compat; [|done];
       apply Qmult_le_0_compat; [by apply Qmult_le_0_compat|];
       apply Qinv_le_0_compat; lra|].
    generalize (mean vals - pm)%Q. intros q.
    destruct (Qlt_le_dec q 0); nra. }
  lra.
Qed.

(** C6: with prior parameters [a0, b0 > 0] and [k0 >= 0], the update of a
    region of [n >= 1] positions returns, and the [sigmasq[t,r]] it writes
    is positive: the rate is at least [b0].  For a region of one position
    the sample variance is zero and the rate is still at least [b0]. *)
Theorem gibbs_sigmasq_positive (t : nat) (pmean : list Q) (s : mstate)
    (r n : Z) (region : option pyslice) (pm : Q)
    (row sig_row mu_row : list Q) :
  (0 < a0 cfg)%Q -> (0 < b0 cfg)%Q -> (0 <= k0 cfg)%Q ->
  getitem (region_list d) r = Some region ->
  getitem (region_sizes d) r = Some n -> 1 <= n ->
  getitem pmean r = Some pm ->
  m_theta s !! t = Some row ->
  m_sigmasq s !! t = Some sig_row -> m_mu s !! t = Some mu_row ->
  0 <= r < Z.of_nat (length sig_row) -> 0 <= r < Z.of_nat (length mu_row) ->
  exists s' sig_row' v,
    gibbs_region d cfg t pmean s r = Some s' /\
    m_sigmasq s' !! t = Some sig_row' /\
    getitem sig_row' r = Some v /\
    (0 < v)%Q /\
    (b0 cfg <= rate_sigmasq cfg n (region_values region row) pm)%Q /\
    (forall x, region_values region row = [x] ->
               (var (region_values region row) == 0)%Q).
Proof.
  intros Ha Hb Hk Hreg Hn Hn1 Hpm Hrow Hsig Hmu Hr1 Hr2.
  unfold gibbs_region. rewrite Hreg, Hn, Hpm, Hrow. simpl.
  destruct (rgamma (shape_sigmasq cfg n) 1 (m_rng s)) as [gam g] eqn:Hgam.
  assert (0 < gam)%Q as Hgpos.
  { change gam with (gam, g).1. rewrite <- Hgam. apply rgamma_pos; [|done].
    unfold shape_sigmasq. pose proof (inject_Z_pos n). 
    assert (0 < inject_Z n)%Q by (apply inject_Z_pos; lia).
    assert (inject_Z n / 2 == (1 # 2) * inject_Z n)%Q as -> by field. lra. }
  rewrite Hsig. simpl. rewrite setitem_inrange by done. simpl.
  destruct (randn g) as [z g']. rewrite Hmu. simpl.
  rewrite setitem_inrange by done. simpl.
  pose proof (rate_sigmasq_ge_b0 n (region_values region row) pm) as Hrate.
  eexists _, _, _. split; [done|]. simpl.
  split; [apply list_lookup_insert_eq; by eapply lookup_lt_Some|].
  split; [by apply getitem_setitem|].
  split; [|split].
  - unfold draw_sigmasq. apply Qlt_shift_div_l; [done|].
    specialize (Hrate ltac:(lia) Hk). lra.
  - apply Hrate; [lia|done].
  - intros x ->. apply var_singleton.
Qed.
End GibbsProps.

(** ** Prior means *)



Section PriorMean.

Context `{Library}.
Variables (d : data) (cfg : config).


End PriorMean.

(** ** [load_data] *)

Lemma foldl_min_spec (l : list Z) : forall x,
  foldl Z.min x l <= x /\ forall v, v ∈ l -> foldl Z.min x l <= v.
Proof.
  induction l as [|a l IH]; intros x; simpl.
  - split; [lia|]. intros v Hv. by apply elem_of_nil in Hv.
  - destruct (IH (Z.min x a)) as [H1 H2]. split; [lia|].
    intros v Hv. apply elem_of_cons in Hv as [->|Hv]; [lia|by apply H2].
Qed.

Lemma foldl_max_spec (l : list Z) : forall x,
  x <= foldl Z.max x l /\ forall v, v ∈ l -> v <= foldl Z.max x l.
Proof.
  induction l as [|a l IH]; intros x; simpl.
  - split; [lia|]. intros v Hv. by apply elem_of_nil in Hv.
  - destruct (IH (Z.max x a)) as [H1 H2]. split; [lia|].
    intros v Hv. apply elem_of_cons in Hv as [->|Hv]; [lia|by apply H2].
Qed.

Lemma zmin_spec (l : list Z) :
  l <> [] -> exists m, zmin l = Some m /\ forall v, v ∈ l -> m <= v.
Proof.
  destruct l as [|a l]; [done|]. intros _. eexists; split; [done|].
  destruct (foldl_min_spec l a) as [H1 H2].
  intros v Hv. apply elem_of_cons in Hv as [->|Hv]; [done|by apply H2].
Qed.

Lemma zmax_spec (l : list Z) :
  l <> [] -> exists m, zmax l = Some m /\ forall v, v ∈ l -> v <= m.
Proof.
  destruct l as [|a l]; [done|]. intros _. eexists; split; [done|].
  destruct (foldl_max_spec l a) as [H1 H2].
  intros v Hv. apply elem_of_cons in Hv as [->|Hv]; [done|by apply H2].
Qed.

Lemma elem_of_unique (l : list Z) (x : Z) : x ∈ unique l <-> x ∈ l.
Proof.
  unfold unique. rewrite merge_sort_Permutation. apply elem_of_remove_dups.
Qed.


Lemma getslice_upto {A} (l : list A) (n : Z) :
  0 <= n -> getslice (upto n) l = take (Z.to_nat n) l.
Proof.
  intros. unfold upto. rewrite getslice_nonneg by lia.
  by rewrite drop_0, Z.sub_0_r.
Qed.



Lemma gibbs_sigmasq_positive_witness :
  exists (s' : @mstate toy_library) sig_row v,
    @gibbs_region toy_library d20 cfg20 1 [(-11 # 20)%Q]
      (@MState toy_library [theta20; theta20] [[0%Q]; [0%Q]] [[1%Q]; [0%Q]] [0] []
              [0; 10; 5; 15] 0%nat [node20] 0 0 []) 0 = Some s' /\
    m_sigmasq s' !! 1%nat = Some sig_row /\
    getitem sig_row 0 = Some v /\ (0 < v)%Q.
Proof.
  edestruct (@gibbs_sigmasq_positive toy_library d20 cfg20 1%nat
               [(-11 # 20)%Q]
               (@MState toy_library [theta20; theta20] [[0%Q]; [0%Q]] [[1%Q]; [0%Q]] [0] []
                       [0; 10; 5; 15] 0%nat [node20] 0%nat 0%nat []) 0)
    as (s' & sig_row & v & Hs & Hrow & Hv & Hpos & _).
  - reflexivity.
  - reflexivity.
  - discriminate.
  - reflexivity.
  - reflexivity.
  - lia.
  - reflexivity.
  - reflexivity.
  - reflexivity.
  - reflexivity.
  - simpl. lia.
  - simpl. lia.
  - exists s', sig_row, v. repeat split; assumption.
Defined.





(** C5 as stated fails: in the scenario, with one worker, the block at 0
    is accepted first and the block at 5, the third to be merged, is
    rejected (tag 0); after its merge [theta[1, 5:15]] starts with
    6, 7, 8, the values accepted for the block at 0, where
    [theta[0, 5:15]] starts with 5, 6, 7. *)
Lemma rejected_block_differs_from_previous_row :
  (s0 ← state20;
   s2 ← @sweep_start toy_library d20 2 10 5 1 s0;
   s3 ← @collect_steps toy_library d20 10 5 arrival0 2 1 s2;
   s4 ← @collect_step toy_library d20 10 5 arrival0 1 s3;
   Some (head (m_merged s4),
         getslice (Slice 5 15) <$> m_theta s4 !! 1%nat,
         getslice (Slice 5 15) <$> m_theta s4 !! 0%nat)) =
  Some (Some (5, 0),
        Some (qs [6; 7; 8; 8; 9; 10; 11; 12; 13; 14]),
        Some (qs [5; 6; 7; 8; 9; 10; 11; 12; 13; 14])) /\
  qs [6; 7; 8; 8; 9; 10; 11; 12; 13; 14] <>
  qs [5; 6; 7; 8; 9; 10; 11; 12; 13; 14].
Proof. split; [vm_compute; reflexivity|discriminate]. Qed.

Lemma rejected_block_keeps_worker_values_witness :
  exists s2 s3 s4 : @mstate toy_library,
    @collect_steps toy_library d20 10 5 arrival0 2 1 s2 = Some s3 /\
    @collect_step toy_library d20 10 5 arrival0 1 s3 = Some s4 /\
    @merges toy_library d20 10 1 s3 s4.
Proof.
  destruct state20 as [s0|] eqn:E0; [|vm_compute in E0; discriminate].
  destruct (@sweep_start toy_library d20 2 10 5 1 s0) as [s2|] eqn:E2;
    [|vm_compute in E0; injection E0 as <-; vm_compute in E2; discriminate].
  destruct (@collect_steps toy_library d20 10 5 arrival0 2 1 s2)
    as [s3|] eqn:E3;
    [|vm_compute in E0; injection E0 as <-;
      vm_compute in E2; injection E2 as <-;
      vm_compute in E3; discriminate].
  destruct (@collect_step toy_library d20 10 5 arrival0 1 s3)
    as [s4|] eqn:E4;
    [|vm_compute in E0; injection E0 as <-;
      vm_compute in E2; injection E2 as <-;
      vm_compute in E3; injection E3 as <-;
      vm_compute in E4; discriminate].
  assert (Forall (@node_idle toy_library d20 10) [node20]) as Hidle
    by (repeat constructor).
  destruct (@rejected_block_keeps_worker_values toy_library d20 cfg20 2 10 5
              arrival0 theta20 [0%Q] [1%Q] 0%nat [node20] [] 0 2
              s0 s0 s2 s3 s4 Hidle eq_refl E0 eq_refl E2 E3 E4)
    as [Hm _].
  exists s2, s3, s4. split; [exact E3|]. split; [exact E4|exact Hm].
Defined.

(** * Further properties *)

Section Progress.

Context `{Library}.
Variables (d : data) (n_proc block_width : Z) (prop_df : Q).
Variable arrival : nat -> nat -> nat.

Local Abbreviation L := (chrom_length d).

Hypothesis Hbw : 0 < block_width.

(** The proposal that the library calls draw has the shape of the subset,
    so that [theta_prop[subset] = theta_draw] raises nothing. *)
Hypothesis propose_shape : forall (st : wstate) (start : Z) (f : factor),
  0 <= start < L ->
  Z.of_nat (length (w_theta st)) = L ->
  cholesky (local_info d block_width st start) = Some f ->
  is_Some (propose d block_width prop_df st start f).2.

(** A WORK command then raises nothing. *)
Lemma work_total (st : wstate) (start : Z) :
  0 <= start < L ->
  Z.of_nat (length (w_theta st)) = L ->
  Z.of_nat (length (w_ret st)) = block_width ->
  is_Some (work d block_width prop_df st start).
Proof.
  intros Hs Hth Hret. unfold work.
  set (st1 := set_ret st _).
  assert (forall g, is_Some (transmit d block_width (set_rng st1 g) start
            (getslice (original L block_width (worker_w (template d)) start)
                      (theta_block_of d block_width st start)) 0)) as Hrej.
  { intros g. subst st1. rewrite transmit_reject by done. by eexists. }
  destruct (cholesky _) as [f|] eqn:Hf; [|apply (Hrej (w_rng st))].
  pose proof (propose_shape st start f Hs Hth Hf) as Hprop.
  unfold propose in *.
  destruct (standard_t _ _ _) as [z g]. simpl in Hprop. simpl.
  destruct Hprop as [tp Htp]. rewrite Htp. simpl.
  pose proof (setslice_length _ _ _ _ Htp) as Hlen.
  pose proof (worker_w_pos (template d)) as Hw.
  assert (length (theta_block_of d block_width st start) =
          Z.to_nat (size_block L block_width (worker_w (template d)) start))
    as Hblk.
  { unfold theta_block_of, block, size_block. simpl.
    rewrite length_getslice_nonneg; unfold block_end; lia. }
  destruct tp as [|x tp].
  { exfalso. simpl in Hlen. rewrite Hblk in Hlen.
    unfold size_block, block, block_end in Hlen. simpl in Hlen. lia. }
  simpl. destruct (Qgeb _ _); [apply Hrej|].
  destruct (uniform g) as [u g']. simpl.
  destruct (Qltb _ _).
  - unfold transmit. simpl. unfold upto.
    assert (start < block_end L block_width start <= L /\
            block_end L block_width start - start <= block_width) as He
      by (unfold block_end; lia).
    rewrite setslice_nonneg; [by eexists|lia| |].
    + unfold fillslice. rewrite length_inserts. lia.
    + unfold original, size_block, block. simpl.
      rewrite length_getslice_nonneg.
      * f_equal. unfold block_end. lia.
      * unfold block_end. lia.
      * rewrite Hlen, Hblk. unfold size_block, block, block_end. simpl. lia.
  - change (set_rng (set_rng st1 g) g') with (set_rng st1 g').
    destruct (Hrej g') as [[st2 ev2] ->]. by eexists.
Qed.



Lemma deliver_refresh_total k c theta nodes nd :
  refresh c theta -> nodes !! k = Some nd ->
  is_Some (deliver d block_width prop_df k c nodes).
Proof.
  intros Hc Hnd. unfold deliver. rewrite Hnd. simpl.
  destruct Hc as [(mu & sigmasq & ->)| ->]; simpl; by eexists.
Qed.

Lemma deliver_work_total k start nodes nd a :
  0 <= start < L -> nodes !! k = Some nd -> node_ok d block_width a nd ->
  is_Some (deliver d block_width prop_df k (WORK start) nodes).
Proof.
  intros Hs Hnd (Hth & Hret & _). unfold deliver. rewrite Hnd. simpl.
  destruct (work_total (n_state nd) start Hs Hth Hret) as [[st' ev] ->].
  simpl. by eexists.
Qed.

Lemma sync_all_total theta mu sigmasq nodes :
  (n_workers n_proc <= length nodes)%nat ->
  is_Some (sync_all d n_proc block_width prop_df theta mu sigmasq nodes).
Proof.
  intros Hlen. unfold sync_all.
  assert (Forall (fun k => k < length nodes)%nat (seq 0 (n_workers n_proc)))
    as Hks by (apply Forall_seq; intros; lia).
  revert Hks. generalize (seq 0 (n_workers n_proc)). intros ks Hks.
  assert (exists nodes', foldr (fun k acc => nodes ← acc;
             deliver d block_width prop_df k (SYNC theta mu sigmasq) nodes)
             (Some nodes) ks = Some nodes' /\ length nodes' = length nodes)
    as (nodes' & -> & _); [|by eexists].
  induction Hks as [|k ks Hk _ IH]; simpl; [by eexists|].
  destruct IH as (nodes1 & -> & Hlen1). simpl.
  destruct (lookup_lt_is_Some_2 nodes1 k ltac:(lia)) as [nd Hnd].
  destruct (deliver_refresh_total k (SYNC theta mu sigmasq) theta nodes1 nd
              ltac:(left; eauto) Hnd) as [nodes2 Hdel].
  exists nodes2. split; [done|].
  apply deliver_spec in Hdel as (?&?&?&?&?&?&->).
  by rewrite length_insert.
Qed.

Lemma first_batch_total (m : nat) : forall (k0 : nat) (s : mstate),
  loop_inv d block_width s ->
  (forall k nd, (k0 <= k)%nat -> m_nodes s !! k = Some nd -> n_out nd = []) ->
  (k0 + m <= length (m_nodes s))%nat ->
  (m_started s + m <= length (m_start_vec s))%nat ->
  exists s', first_batch d block_width prop_df (seq k0 m) s = Some s' /\
             m_started s' = (m_started s + m)%nat.
Proof.
  induction m as [|m IH]; intros k0 s Hinv Hidle Hk Hm.
  - exists s. split; [done|lia].
  - destruct (lookup_lt_is_Some_2 (m_start_vec s) (m_started s) ltac:(lia))
      as [start Hstart].
    destruct (lookup_lt_is_Some_2 (m_nodes s) k0 ltac:(lia)) as [nd Hnd].
    pose proof Hinv as (_ & _ & Hsv & _ & Hnodes & _).
    destruct (Forall2_lookup_r _ _ _ _ _ Hnodes Hnd) as (a & Ha & Hok).
    assert (0 <= start < L) as Hrange.
    { rewrite Forall_forall in Hsv. apply Hsv.
      by eapply list_elem_of_lookup_2. }
    destruct (deliver_work_total k0 start _ nd a Hrange Hnd Hok)
      as [nodes1 Hdel].
    set (s1 := MState (m_theta s) (m_mu s) (m_sigmasq s)
                 (<[k0 := start]> (m_assigned s)) (m_accept s)
                 (m_start_vec s) (m_rng s) nodes1
                 (S (m_started s)) (m_completed s) (m_merged s)).
    assert (first_batch d block_width prop_df (seq k0 1) s = Some s1) as Hone
      by (simpl; rewrite Hstart; simpl; rewrite Hdel; done).
    pose proof Hone as Hone'.
    apply first_batch_inv in Hone' as (Hinv1 & _); [|done..].
    pose proof Hdel as Hdel'.
    apply deliver_spec in Hdel' as (?&?&?&?&?&?&Hnodes1).
    destruct (IH (S k0) s1 Hinv1) as (s' & Hfb & Hst).
    + simpl. intros k nd1 Hk1 Hnd1. rewrite Hnodes1 in Hnd1.
      rewrite list_lookup_insert_ne in Hnd1 by lia.
      eapply Hidle; [|done]. lia.
    + simpl. rewrite Hnodes1, length_insert. lia.
    + simpl. lia.
    + exists s'. split; [|simpl in Hst; lia].
      simpl. rewrite Hstart. simpl. rewrite Hdel. done.
Qed.

Lemma in_flight_pending assigned nodes :
  length assigned = length nodes -> in_flight assigned nodes <> [] ->
  exists k nd, nodes !! k = Some nd /\ n_out nd <> [].
Proof.
  unfold in_flight. revert assigned.
  induction nodes as [|nd nodes IH]; intros [|a assigned] Hlen Hne;
    simpl in *; try done.
  destruct (n_out nd) as [|msg rest] eqn:Hout.
  - destruct (IH assigned ltac:(lia) Hne) as (k & nd' & Hnd' & Hout').
    by exists (S k), nd'.
  - exists 0%nat, nd. split; [done|]. by rewrite Hout.
Qed.

(** A receive returns as soon as one worker has a result pending. *)
Lemma recv_any_total choice nodes k nd :
  nodes !! k = Some nd -> n_out nd <> [] ->
  is_Some (recv_any choice nodes).
Proof.
  intros Hnd Hout. unfold recv_any.
  assert (k ∈ ready nodes) as Hk.
  { unfold ready. apply list_elem_of_filter. split.
    - unfold pending. rewrite Hnd. simpl. by destruct (n_out nd).
    - apply elem_of_seq. split; [lia|]. simpl. by eapply lookup_lt_Some. }
  assert (0 < length (ready nodes))%nat as Hlen
    by (destruct (ready nodes); [by apply elem_of_nil in Hk|simpl; lia]).
  destruct (lookup_lt_is_Some_2 (ready nodes)
              (choice `mod` length (ready nodes))%nat) as [k' Hk'].
  { apply Nat.mod_upper_bound. lia. }
  rewrite Hk'. simpl.
  apply list_elem_of_lookup_2 in Hk'. unfold ready in Hk'.
  apply list_elem_of_filter in Hk' as [Hpend _]. unfold pending in Hpend.
  destruct (nodes !! k') as [nd'|]; [|done]. simpl in *.
  destruct (n_out nd'); [done|]. by eexists.
Qed.

(** One pass of the dispatch loop returns, while a result is awaited and a
    block is in flight. *)
Lemma collect_step_total (t : nat) (s : mstate) :
  loop_inv d block_width s -> (t < length (m_theta s))%nat ->
  (m_completed s < m_started s)%nat ->
  is_Some (collect_step d block_width prop_df arrival t s).
Proof.
  intros (Hst & Hmc & Hsv & Hrows & Hnodes & Hperm) Ht Hfl.
  pose proof (Permutation_length Hperm) as Hlen.
  rewrite !length_app, length_fmap, length_drop, Hmc in Hlen.
  destruct (in_flight_pending (m_assigned s) (m_nodes s))
    as (k0 & nd0 & Hnd0 & Hout0).
  { by eapply Forall2_length. }
  { intros Hnil. rewrite Hnil in Hlen. simpl in Hlen. lia. }
  destruct (recv_any_total (arrival t (m_completed s)) _ _ _ Hnd0 Hout0)
    as [[[k [ret_val tag]] nodes1] Hrecv].
  unfold collect_step. rewrite Hrecv. simpl.
  apply recv_any_spec in Hrecv as (nd & rest & Hnd & Hout & ->).
  destruct (Forall2_lookup_r _ _ _ _ _ Hnodes Hnd) as (a & Ha & Hok).
  rewrite Ha. simpl.
  destruct Hok as (Hth & Hret & [Hidle|(r & tag' & Hout' & Hrange & Hrlen & _)]);
    [congruence|].
  rewrite Hout in Hout'. injection Hout' as -> -> ->.
  set (end_ := Z.min (a + block_width) L).
  assert (a < end_ <= L /\ end_ - a <= block_width) as Hend
    by (unfold end_; lia).
  destruct (lookup_lt_is_Some_2 (m_theta s) t Ht) as [row Hrow].
  rewrite Hrow. simpl.
  assert (Z.of_nat (length row) = L) as Hrowlen.
  { rewrite Forall_forall in Hrows. apply Hrows.
    by eapply list_elem_of_lookup_2. }
  rewrite setslice_nonneg;
    [|lia|lia|unfold upto; rewrite length_getslice_nonneg by lia; f_equal; lia].
  simpl. set (row' := take _ row ++ _).
  case_decide as Hmore; [|by eexists].
  assert ((<[k:=Node (n_state nd) []]> (m_nodes s)) !! k =
          Some (Node (n_state nd) [])) as Hnd1
    by (apply list_lookup_insert_eq; by eapply lookup_lt_Some).
  destruct (deliver_refresh_total k (UPDATE row') row' _ _ ltac:(by right)
              Hnd1) as [nodes2 Hupd].
  rewrite Hupd. simpl.
  destruct (deliver_refresh _ _ _ k (UPDATE row') row' _ _ _
              ltac:(by right) Hnd1 Hupd) as (ws & -> & Hws & Hwret).
  rewrite list_insert_insert_eq.
  destruct (lookup_lt_is_Some_2 (m_start_vec s) (m_started s) Hmore)
    as [next Hnext].
  rewrite Hnext. simpl.
  assert (0 <= next < L) as Hnrange.
  { rewrite Forall_forall in Hsv. apply Hsv.
    by eapply list_elem_of_lookup_2. }
  assert ((<[k:=Node ws []]> (m_nodes s)) !! k = Some (Node ws [])) as Hnd2
    by (apply list_lookup_insert_eq; by eapply lookup_lt_Some).
  assert (Z.of_nat (length row') = L) as Hrow'len.
  { unfold row'. rewrite !length_app, length_take, length_drop.
    unfold upto. rewrite length_getslice_nonneg by lia. lia. }
  assert (node_ok d block_width a (Node ws [])) as Hok2.
  { split; [simpl; rewrite Hws; lia|]. split; [simpl|by left].
    simpl in Hwret. by rewrite Hwret. }
  destruct (deliver_work_total k next _ _ a Hnrange Hnd2 Hok2) as [nodes3 ->].
  simpl. by eexists.
Qed.

(** The dispatch loop returns: with [K] blocks in flight at the start, a
    block is in flight whenever a result is awaited. *)
Lemma collect_total (fuel : nat) : forall (K t : nat) (s : mstate),
  loop_inv d block_width s -> (t < length (m_theta s))%nat ->
  (1 <= K)%nat ->
  m_started s = (length (m_start_vec s) `min` (m_completed s + K))%nat ->
  (length (m_start_vec s) - m_completed s <= fuel)%nat ->
  is_Some (collect d block_width prop_df arrival fuel t s).
Proof.
  induction fuel as [|fuel IH]; intros K t s Hinv Ht HK Hst Hfuel; simpl;
    case_decide as Hc; try (by eexists); [lia|].
  destruct (collect_step_total t s Hinv Ht ltac:(lia)) as [s1 Hstep].
  rewrite Hstep. simpl.
  pose proof Hstep as Hstep'.
  apply collect_step_inv in Hstep' as (Hinv1 & Hv1 & Hc1 & _); [|done..].
  apply (IH K); [done| | done | |].
  - unfold collect_step in Hstep.
    destruct (recv_any _ _) as [[[k [ret_val tag]] nodes]|];
      simplify_option_eq; by rewrite length_insert.
  - unfold collect_step in Hstep.
    destruct (recv_any _ _) as [[[k [ret_val tag]] nodes]|];
      simplify_option_eq; lia.
  - rewrite Hv1, Hc1. lia.
Qed.

(** X1: step (1) of an iteration returns for every order of arrival of the
    results: with at least one worker, the coordinator never waits for a
    result that no worker is computing, and the only command that could
    raise, a WORK command, does not when the proposal has the subset's
    shape. *)
Theorem dispatch_loop_returns (sv : list Z) (t : nat) (s : mstate) :
  Forall (fun st => 0 <= st < L) sv ->
  sweep_ready d block_width sv s ->
  length (m_nodes s) = n_workers n_proc -> (1 <= n_workers n_proc)%nat ->
  (1 <= t < length (m_theta s))%nat ->
  (t <= length (m_mu s))%nat -> (t <= length (m_sigmasq s))%nat ->
  is_Some (sweep d n_proc block_width prop_df arrival t s).
Proof.
  intros Hrange (Hperm & Hrows & Hlen & Hidle) Hnw H1 Ht Hmu Hsig.
  unfold sweep, sweep_start.
  destruct (lookup_lt_is_Some_2 (m_theta s) (t - 1) ltac:(lia))
    as [prev Hprev].
  destruct (lookup_lt_is_Some_2 (m_mu s) (t - 1) ltac:(lia)) as [mp Hmp].
  destruct (lookup_lt_is_Some_2 (m_sigmasq s) (t - 1) ltac:(lia))
    as [sp Hsp].
  rewrite Hprev, Hmp, Hsp. simpl.
  destruct (sync_all_total prev mp sp (m_nodes s) ltac:(lia))
    as [nodes1 Hsync].
  rewrite Hsync. simpl.
  assert (Z.of_nat (length prev) = L) as Hprevlen.
  { rewrite Forall_forall in Hrows. apply Hrows.
    by eapply list_elem_of_lookup_2. }
  apply sync_all_idle in Hsync as [Hidle1 Hlen1]; [|done..].
  case_guard; [|lia]. simpl.
  pose proof (shuffle_perm (m_start_vec s) (m_rng s)) as Hshuf.
  destruct (shuffle _ _) as [start_vec g]. simpl in Hshuf.
  set (s0 := MState _ _ _ _ _ _ _ _ _ _ _).
  assert (loop_inv d block_width s0) as Hinv0.
  { subst s0. split; [simpl; lia|]. split; [done|]. simpl.
    split; [by rewrite Hshuf, Hperm|].
    split; [apply Forall_insert; done|].
    split; [apply Forall_idle_ok; [congruence|done]|].
    by rewrite (in_flight_idle d block_width). }
  assert (forall k nd, (0 <= k)%nat -> m_nodes s0 !! k = Some nd ->
                       n_out nd = []) as Hidle0.
  { simpl. intros k nd _ Hnd. rewrite Forall_forall in Hidle1.
    apply (Hidle1 nd). by eapply list_elem_of_lookup_2. }
  destruct (first_batch_total (n_workers n_proc `min` length start_vec) 0 s0
              Hinv0 Hidle0) as (s1 & Hfb & Hst1); [simpl; lia..|].
  rewrite Hfb. simpl.
  apply first_batch_inv in Hfb as (Hinv1 & Hv & Hth & Hc); [|done..].
  apply (collect_total _ (n_workers n_proc)); [done| |done| |lia].
  - rewrite Hth. simpl. rewrite length_insert. lia.
  - rewrite Hst1, Hv, Hc. simpl. lia.
Qed.

End Progress.

(** The proposals of the scenario's library have the shape of the subset. *)
Lemma length_getslice {A} (sl : pyslice) (l : list A) :
  length (getslice sl l) =
  (slice_len sl l `min` (length l - Z.to_nat (slice_lo sl l)))%nat.
Proof. unfold getslice. by rewrite length_take, length_drop. Qed.

Lemma slice_len_length {A B} (sl : pyslice) (l : list A) (k : list B) :
  length l = length k -> slice_len sl l = slice_len sl k.
Proof. unfold slice_len, slice_lo. by intros ->. Qed.

Lemma slice_lo_length {A B} (sl : pyslice) (l : list A) (k : list B) :
  length l = length k -> slice_lo sl l = slice_lo sl k.
Proof. unfold slice_lo. by intros ->. Qed.

Lemma length_getslice_eq {A B} (sl : pyslice) (l : list A) (k : list B) :
  length l = length k -> length (getslice sl l) = length (getslice sl k).
Proof.
  intros Hl. rewrite !length_getslice.
  by rewrite (slice_len_length sl l k), (slice_lo_length sl l k), Hl.
Qed.

Lemma toy_propose_shape (prop_df : Q) (st : @wstate toy_library) (start : Z)
    (f : @factor toy_library) :
  0 <= start < chrom_length d20 ->
  Z.of_nat (length (w_theta st)) = chrom_length d20 ->
  @cholesky toy_library (@local_info toy_library d20 10 st start) = Some f ->
  is_Some (@propose toy_library d20 10 prop_df st start f).2.
Proof.
  intros Hs Hth Hf. change (chrom_length d20) with 20 in *.
  assert (length (w_theta st) = length (replicate 20 0%Q)) as Hlen
    by (rewrite length_replicate; lia).
  simpl in Hf. destruct (diag_pos _); [|done]. injection Hf as <-.
  unfold propose. simpl. unfold setslice.
  rewrite decide_True; [by eexists|].
  unfold vadd, vdiv, local_info, theta_hat_of, theta_block_of. simpl.
  rewrite !length_zip_with, !length_fmap, !length_replicate.
  set (blk := block _ _ _ _). set (sub := subset _ _ _ _).
  rewrite (length_getslice_eq sub (getslice blk (w_theta st))
             (getslice blk (replicate 20 0%Q)))
    by (by apply length_getslice_eq).
  rewrite (slice_len_length sub (getslice blk (w_theta st))
             (getslice blk (replicate 20 0%Q)))
    by (by apply length_getslice_eq).
  subst blk sub. clear Hth Hlen.
  assert (start = 0 \/ start = 1 \/ start = 2 \/ start = 3 \/ start = 4 \/
          start = 5 \/ start = 6 \/ start = 7 \/ start = 8 \/ start = 9 \/
          start = 10 \/ start = 11 \/ start = 12 \/ start = 13 \/ start = 14 \/
          start = 15 \/ start = 16 \/ start = 17 \/ start = 18 \/ start = 19)
    as Hcases by lia.
  clear Hs.
  repeat (destruct Hcases as [->|Hcases]); [..|subst start]; vm_compute; reflexivity.
Qed.

Lemma dispatch_loop_returns_witness :
  exists s0 : @mstate toy_library,
    state20 = Some s0 /\
    is_Some (@sweep toy_library d20 2 10 5 arrival0 1 s0).
Proof.
  destruct state20 as [s0|] eqn:E0; [|vm_compute in E0; discriminate].
  exists s0. split; [reflexivity|].
  assert (Forall (@node_idle toy_library d20 10) [node20]) as Hidle
    by (repeat constructor).
  destruct (@master_init_ready toy_library d20 cfg20 2 10 theta20 [0%Q]
              [1%Q] 0%nat [node20] s0 Hidle eq_refl E0)
    as (Hbw & sv & Hsv & Hready).
  apply (@dispatch_loop_returns toy_library d20 2 10 5 arrival0 Hbw
           (toy_propose_shape 5) sv).
  - by eapply scan_starts_range.
  - exact Hready.
  - vm_compute in E0. injection E0 as <-. reflexivity.
  - vm_compute. lia.
  - vm_compute in E0. injection E0 as <-. simpl. lia.
  - vm_compute in E0. injection E0 as <-. simpl. lia.
  - vm_compute in E0. injection E0 as <-. simpl. lia.
Defined.

(** ** The coordinator without workers *)

Section NoWorker.

Context `{Library}.
Variables (d : data) (cfg : config) (n_proc block_width : Z) (prop_df : Q).
Variable arrival : nat -> nat -> nat.

Lemma sync_all_length theta mu sigmasq nodes nodes' :
  sync_all d n_proc block_width prop_df theta mu sigmasq nodes = Some nodes' ->
  length nodes' = length nodes.
Proof.
  unfold sync_all. generalize (seq 0 (n_workers n_proc)). intros ks.
  revert nodes'. induction ks as [|k ks IH]; intros nodes' Hs; simpl in Hs.
  - by simplify_eq.
  - destruct (foldr _ _ ks) as [nodes1|]; [|done]. simpl in Hs.
    rewrite <- (IH nodes1 eq_refl).
    apply deliver_spec in Hs as (?&?&?&?&?&?&->). by rewrite length_insert.
Qed.

Lemma first_batch_no_worker ks (s s' : mstate) :
  m_nodes s = [] -> first_batch d block_width prop_df ks s = Some s' ->
  s' = s.
Proof.
  intros Hnodes. destruct ks as [|k ks]; simpl; [congruence|].
  destruct (m_start_vec s !! m_started s); [|done]. simpl.
  unfold deliver. by rewrite Hnodes.
Qed.

(** With no worker and a block to draw, the first receive of the dispatch
    loop finds no sender. *)
Lemma sweep_no_worker (t : nat) (s : mstate) :
  m_nodes s = [] -> m_start_vec s <> [] ->
  sweep d n_proc block_width prop_df arrival t s = None.
Proof.
  intros Hnodes Hsv. unfold sweep.
  destruct (sweep_start _ _ _ _ _ _) as [s1|] eqn:Hstart; [|done]. simpl.
  unfold sweep_start in Hstart.
  destruct (m_theta s !! _) as [prev|]; [|done]. simpl in Hstart.
  destruct (m_mu s !! _) as [mp|]; [|done]. simpl in Hstart.
  destruct (m_sigmasq s !! _) as [sp|]; [|done]. simpl in Hstart.
  destruct (sync_all _ _ _ _ _ _ _ _) as [nodes1|] eqn:Hsync; [|done].
  simpl in Hstart. apply sync_all_length in Hsync.
  rewrite Hnodes in Hsync. destruct nodes1; [|done].
  case_guard; [|done]. simpl in Hstart.
  pose proof (shuffle_perm (m_start_vec s) (m_rng s)) as Hperm.
  destruct (shuffle _ _) as [sv g]. simpl in Hperm.
  apply first_batch_no_worker in Hstart; [|done]. subst s1. simpl.
  destruct sv as [|a sv].
  { apply Permutation_nil_l in Hperm. done. }
  done.
Qed.

End NoWorker.

Lemma arange_nonempty (stop bw : Z) (sv : list Z) :
  0 < stop -> 0 <= bw -> arange 0 stop bw = Some sv -> sv <> [].
Proof.
  intros Hstop Hbw Har. unfold arange in Har.
  destruct (Z.eqb_spec bw 0); [done|]. injection Har as <-.
  assert (1 <= - ((0 - stop) / bw)) as Hn
    by (Z.div_mod_to_equations; nia).
  intros Hnil. apply (f_equal length) in Hnil.
  rewrite length_map, length_seq in Hnil. simpl in Hnil. lia.
Qed.

(** X2: a run with a single process has no worker.  When at least one
    iteration is asked for and there is a position to draw, [master] returns
    nothing: without a configured block width the division by the number of
    workers raises, and with one the first receive of the dispatch loop has
    no sender. *)
Theorem master_needs_worker `{Library} (d : data) (cfg : config)
    (prop_df : Q) (arrival : nat -> nat -> nat)
    (theta0 mu_init sigmasq_init : list Q) (g : rng) :
  2 <= mcmc_iterations cfg -> 0 < chrom_length d ->
  master d cfg 1 prop_df arrival theta0 mu_init sigmasq_init g [] = None.
Proof.
  intros Hiter HL. unfold master, get_block_width.
  destruct (cfg_block_width cfg) as [bw|]; [|done]. simpl.
  unfold master_run.
  destruct (prior_mean d cfg) as [pmean|]; [|done]. simpl.
  destruct (master_init _ _ _ _ _ _ _ _ _) as [s0|] eqn:Hinit; [|done].
  simpl.
  assert (m_nodes s0 = [] /\ m_start_vec s0 <> []) as [Hnodes Hsv].
  { unfold master_init in Hinit. simplify_option_eq. split; [done|].
    match goal with
    | Hs : scan_starts _ _ = Some _ |- _ =>
        unfold scan_starts in Hs; simplify_option_eq
    end.
    match goal with
    | Ha : arange 0 _ _ = Some ?l |- _ =>
        pose proof (arange_nonempty _ _ _ HL ltac:(done) Ha)
    end.
    intros Hnil. apply app_eq_nil in Hnil as [? _]. done. }
  destruct (Z.to_nat (mcmc_iterations cfg) - 1)%nat as [|k] eqn:Hk; [lia|].
  unfold iterations. simpl. unfold iteration at 2.
  rewrite sweep_no_worker by done. simpl. by rewrite foldl_bind_None.
Qed.

Lemma master_needs_worker_witness :
  @master toy_library d20 cfg20 1 5 arrival0 theta20 [0%Q] [1%Q] 0%nat []
  = None.
Proof.
  apply (@master_needs_worker toy_library d20 cfg20 5 arrival0); vm_compute;
    [discriminate|reflexivity].
Defined.

(** ** The worker: the message of a WORK command *)

(** An assignment to a slice leaves the entries outside the slice as they
    were. *)
Lemma setslice_frame {A} (sl : pyslice) (v l l' : list A) (i : nat) :
  setslice sl v l = Some l' ->
  (i < Z.to_nat (slice_lo sl l))%nat \/
  (Z.to_nat (slice_lo sl l) + slice_len sl l <= i)%nat ->
  l' !! i = l !! i.
Proof.
  unfold setslice. intros Hset Hi.
  assert (forall k : list A, length k = slice_len sl l ->
            list_inserts (Z.to_nat (slice_lo sl l)) k l !! i = l !! i) as Hk.
  { intros k Hlen. destruct Hi as [Hi|Hi].
    - by apply list_lookup_inserts_lt.
    - apply list_lookup_inserts_ge. lia. }
  case_decide as Hlen.
  - injection Hset as <-. by apply Hk.
  - destruct v as [|x [|??]]; simplify_eq. apply Hk, length_replicate.
Qed.

Section WorkMessage.

Context `{Library}.
Variables (d : data) (block_width : Z) (prop_df : Q).

Local Abbreviation L := (chrom_length d).
Local Abbreviation w := (worker_w (template d)).

(** What a WORK command that returns has sent: the values of a vector [X]
    on the output range, then zeros; [X] is the worker's block when the tag
    is 0 and the proposal when it is 1. *)
Lemma work_message (st st' : wstate) (start : Z) ev :
  0 <= start < L -> 0 < block_width ->
  Z.of_nat (length (w_theta st)) = L ->
  Z.of_nat (length (w_ret st)) = block_width ->
  work d block_width prop_df st start = Some (st', ev) ->
  let end_ := block_end L block_width start in
  exists (X : list Q) (tag : Z),
    sends ev =
      [(getslice (original L block_width w start) X
        ++ replicate (Z.to_nat (block_width - (end_ - start))) 0%Q, tag)] /\
    w_ret st' = getslice (original L block_width w start) X
        ++ replicate (Z.to_nat (block_width - (end_ - start))) 0%Q /\
    w_theta st' = w_theta st /\
    length X = length (theta_block_of d block_width st start) /\
    ((tag = 0 /\ X = theta_block_of d block_width st start) \/
     (tag = 1 /\ exists f, cholesky (local_info d block_width st start) = Some f /\
                 (propose d block_width prop_df st start f).2 = Some X)).
Proof.
  intros Hs Hbw Hth Hret Hwork end_. unfold work in Hwork.
  set (st1 := set_ret st _) in Hwork.
  pose proof (worker_w_pos (template d)) as Hw.
  assert (start < end_ <= L /\ end_ - start <= block_width) as He
    by (unfold end_, block_end; lia).
  assert (forall g, transmit d block_width (set_rng st1 g) start
            (getslice (original L block_width w start)
                      (theta_block_of d block_width st start)) 0 =
          Some (WState (w_theta st) (w_mu st) (w_sigmasq st)
                       (rejected d block_width st start) g,
                [Send (rejected d block_width st start) 0])) as Hrej.
  { intros g. by apply transmit_reject. }
  assert (rejected d block_width st start =
          getslice (original L block_width w start)
            (theta_block_of d block_width st start)
          ++ replicate (Z.to_nat (block_width - (end_ - start))) 0%Q) as Hr.
  { unfold rejected, theta_block_of. fold end_. f_equal.
    rewrite <- Hth. rewrite original_of_block by lia. by rewrite Hth. }
  assert (exists X tag, True /\
    (sends ev, w_ret st', w_theta st') =
      ([(getslice (original L block_width w start) X
          ++ replicate (Z.to_nat (block_width - (end_ - start))) 0%Q, tag)],
       getslice (original L block_width w start) X
          ++ replicate (Z.to_nat (block_width - (end_ - start))) 0%Q,
       w_theta st) /\
    length X = length (theta_block_of d block_width st start) /\
    ((tag = 0 /\ X = theta_block_of d block_width st start) \/
     (tag = 1 /\ exists f, cholesky (local_info d block_width st start) = Some f /\
                 (propose d block_width prop_df st start f).2 = Some X)))
    as (X & tag & _ & Heq & Hlen & Htag).
  { destruct (cholesky _) as [f|] eqn:Hf.
    - destruct (propose _ _ _ _ _ _) as [[z g] tp] eqn:Hprop.
      simpl in Hwork. destruct tp as [tp|]; [|done]. simpl in Hwork.
      destruct (amax tp) as [m|]; [|done]. simpl in Hwork.
      destruct (Qgeb m _).
      + rewrite (Hrej g) in Hwork. injection Hwork as <- <-.
        eexists _, 0. split; [done|]. simpl. rewrite Hr.
        split; [done|]. split; [done|]. by left.
      + destruct (uniform g) as [u g']. simpl in Hwork.
        destruct (Qltb _ _).
        * assert (length tp = length (theta_block_of d block_width st start))
            as Htp.
          { unfold propose in Hprop. destruct (standard_t _ _ _).
            injection Hprop as _ _ Hset. by eapply setslice_length. }
          unfold transmit in Hwork. simpl in Hwork. unfold upto in Hwork.
          rewrite setslice_nonneg in Hwork.
          -- simpl in Hwork. injection Hwork as <- <-.
             exists tp, 1. split; [done|]. simpl.
             rewrite fillslice_from by lia.
             rewrite drop_app_length' by (rewrite length_take; lia).
             rewrite Hret. split; [done|]. split; [done|].
             right. split; [done|]. exists f. by rewrite Hprop.
          -- lia.
          -- unfold fillslice. rewrite length_inserts. lia.
          -- unfold original, size_block, block. simpl.
             rewrite length_getslice_nonneg.
             ++ f_equal. unfold end_, block_end. lia.
             ++ unfold block_end. lia.
             ++ rewrite Htp. unfold theta_block_of, block. simpl.
                rewrite length_getslice_nonneg; unfold block_end; lia.
        * change (set_rng (set_rng st1 g) g') with (set_rng st1 g') in Hwork.
          rewrite (Hrej g') in Hwork. simpl in Hwork.
          injection Hwork as <- <-.
          eexists _, 0. split; [done|]. simpl. rewrite Hr.
          split; [done|]. split; [done|]. by left.
    - pose proof (Hrej (w_rng st)) as Hr0.
      change (set_rng st1 (w_rng st)) with st1 in Hr0.
      rewrite Hr0 in Hwork. injection Hwork as <- <-.
      eexists _, 0. split; [done|]. simpl. rewrite Hr.
      split; [done|]. split; [done|]. by left. }
  injection Heq as Hsends Hwret Hwth.
  exists X, tag. by repeat split.
Qed.

Lemma length_theta_block (st : wstate) (start : Z) :
  0 <= start < L -> 0 < block_width ->
  Z.of_nat (length (w_theta st)) = L ->
  Z.of_nat (length (theta_block_of d block_width st start)) =
  size_block L block_width w start.
Proof.
  intros Hs Hbw Hth. pose proof (worker_w_pos (template d)) as Hw.
  unfold theta_block_of, block, size_block. simpl.
  rewrite length_getslice_nonneg; unfold block_end; lia.
Qed.

(** X3: a WORK command that returns sends exactly one message, tagged 0 or
    1, of [block_width] entries; the entries past the length of the block
    are zero, and the message is the worker's new [ret_val]. *)
Theorem work_sends_padded_result (st st' : wstate) (start : Z) ev :
  0 <= start < L -> 0 < block_width ->
  Z.of_nat (length (w_theta st)) = L ->
  Z.of_nat (length (w_ret st)) = block_width ->
  work d block_width prop_df st start = Some (st', ev) ->
  let end_ := Z.min L (start + block_width) in
  exists (r : list Q) (tag : Z),
    sends ev = [(r, tag)] /\ (tag = 0 \/ tag = 1) /\
    w_ret st' = r /\ Z.of_nat (length r) = block_width /\
    drop (Z.to_nat (end_ - start)) r =
      replicate (Z.to_nat (block_width - (end_ - start))) 0%Q.
Proof.
  intros Hs Hbw Hth Hret Hwork end_.
  destruct (work_message st st' start ev Hs Hbw Hth Hret Hwork)
    as (X & tag & Hsends & Hwret & _ & Hlen & Htag).
  pose proof (length_theta_block st start Hs Hbw Hth) as Hblk.
  pose proof (worker_w_pos (template d)) as Hw.
  fold (block_end L block_width start) in end_.
  assert (length (getslice (original L block_width w start) X) =
          Z.to_nat (end_ - start)) as Hv.
  { unfold original, size_block, block. simpl.
    rewrite length_getslice_nonneg.
    - f_equal. unfold end_, block_end. lia.
    - unfold block_end. lia.
    - rewrite Hlen. unfold size_block, block, block_end in Hblk.
      simpl in Hblk. unfold block_end. lia. }
  eexists _, tag. split; [exact Hsends|].
  split; [destruct Htag as [[-> _]|[-> _]]; auto|].
  split; [done|]. split.
  - rewrite length_app, length_replicate, Hv. unfold end_, block_end. lia.
  - rewrite drop_app_length'; [done|]. by rewrite Hv.
Qed.

(** X4: the positions of the output range that lie within [w] of an edge
    inside the sequence are outside the subset: whatever the tag, the
    message of a WORK command holds the worker's current value of [theta]
    there. *)
Theorem work_keeps_trimmed_edges (st st' : wstate) (start : Z) ev
    (r : list Q) (tag j : Z) :
  0 <= start < L -> 0 < block_width ->
  Z.of_nat (length (w_theta st)) = L ->
  Z.of_nat (length (w_ret st)) = block_width ->
  work d block_width prop_df st start = Some (st', ev) ->
  sends ev = [(r, tag)] ->
  let end_ := Z.min L (start + block_width) in
  start + w <= end_ -> start <= j < end_ ->
  (start <> 0 /\ j < start + w) \/ (end_ <> L /\ end_ - w <= j) ->
  r !! Z.to_nat (j - start) = w_theta st !! Z.to_nat j.
Proof.
  intros Hs Hbw Hth Hret Hwork Hsends end_ Hlong Hj Hedge.
  destruct (work_message st st' start ev Hs Hbw Hth Hret Hwork)
    as (X & tag' & Hsends' & _ & _ & Hlen & Htag).
  rewrite Hsends in Hsends'. injection Hsends' as -> ->.
  pose proof (length_theta_block st start Hs Hbw Hth) as Hblk.
  pose proof (worker_w_pos (template d)) as Hw.
  fold (block_end L block_width start) in end_.
  set (bstart := Z.max (start - w) 0).
  assert (Z.of_nat (length X) = Z.min (end_ + w) L - bstart) as HX.
  { rewrite Hlen, Hblk. unfold size_block, block. simpl. done. }
  assert (end_ = Z.min L (start + block_width)) as Hend by done.
  (* the message, then the slice [original] of [X] *)
  rewrite lookup_app_l.
  2:{ unfold original, size_block, block. simpl. fold end_ bstart.
      rewrite length_getslice_nonneg; lia. }
  unfold original, size_block, block. simpl. fold end_ bstart.
  rewrite getslice_nonneg by lia.
  rewrite lookup_take_lt by lia. rewrite lookup_drop.
  replace (Z.to_nat (start - bstart) + Z.to_nat (j - start))%nat
    with (Z.to_nat (j - bstart)) by lia.
  (* [X] and the worker's block agree outside the subset *)
  assert (X !! Z.to_nat (j - bstart) =
          theta_block_of d block_width st start !! Z.to_nat (j - bstart))
    as ->.
  { destruct Htag as [[_ ->]|[_ (f & _ & Hprop)]]; [done|].
    unfold propose in Hprop. destruct (standard_t _ _ _) as [z g].
    simpl in Hprop. eapply setslice_frame; [exact Hprop|].
    set (tb := theta_block_of d block_width st start).
    assert (Z.of_nat (length tb) = Z.min (end_ + w) L - bstart) as Htb
      by (unfold tb; rewrite <- Hlen; done).
    unfold slice_len, slice_lo, subset, size_block, block, clip, b2z. simpl.
    fold end_ bstart. rewrite Htb.
    destruct (Z.eqb_spec start 0), (Z.eqb_spec end_ L); simpl;
      repeat match goal with
      | |- context [?a <? ?b] => destruct (Z.ltb_spec a b)
      end; lia. }
  unfold theta_block_of, block. simpl. fold end_ bstart.
  rewrite getslice_nonneg by lia.
  rewrite lookup_take_lt by lia. rewrite lookup_drop. f_equal. lia.
Qed.

End WorkMessage.

Lemma work_sends_padded_result_witness :
  exists (st' : @wstate toy_library) ev r tag,
    @work toy_library d20 10 5 worker20 15 = Some (st', ev) /\
    sends ev = [(r, tag)] /\ length r = 10%nat /\
    drop 5 r = replicate 5 0%Q.
Proof.
  destruct (@work toy_library d20 10 5 worker20 15) as [[st' ev]|] eqn:E;
    [|vm_compute in E; discriminate].
  destruct (@work_sends_padded_result toy_library d20 10 5 worker20 st' 15 ev)
    as (r & tag & Hs & _ & _ & Hlen & Hdrop).
  - vm_compute. split; [discriminate|reflexivity].
  - reflexivity.
  - reflexivity.
  - reflexivity.
  - exact E.
  - exists st', ev, r, tag. split; [reflexivity|]. split; [exact Hs|].
    split; [lia|exact Hdrop].
Defined.

Lemma work_keeps_trimmed_edges_witness :
  exists (st' : @wstate toy_library) ev r,
    @work toy_library d20 10 5 worker20 0 = Some (st', ev) /\
    sends ev = [(r, 1)] /\ r !! 8%nat = theta20 !! 8%nat.
Proof.
  destruct (@work toy_library d20 10 5 worker20 0) as [[st' ev]|] eqn:E;
    [|vm_compute in E; discriminate].
  destruct (sends ev) as [|[r tag] rest] eqn:Es;
    [vm_compute in E; injection E as <- <-; vm_compute in Es; discriminate|].
  assert (tag = 1 /\ rest = []) as [-> ->].
  { vm_compute in E. injection E as <- <-. vm_compute in Es.
    injection Es as _ <- <-. split; reflexivity. }
  exists st', ev, r. split; [reflexivity|]. split; [exact Es|].
  apply (@work_keeps_trimmed_edges toy_library d20 10 5 worker20 st' 0 ev r 1 8).
  - vm_compute. split; [discriminate|reflexivity].
  - reflexivity.
  - reflexivity.
  - reflexivity.
  - exact E.
  - exact Es.
  - vm_compute. discriminate.
  - vm_compute. split; [discriminate|reflexivity].
  - right. vm_compute. split; [discriminate|discriminate].
Defined.

(** ** The coordinator: acceptance statistics *)

Lemma addslice_lookup (l : list Z) (a b x : Z) (i : nat) :
  0 <= a <= b -> b <= Z.of_nat (length l) ->
  addslice (Slice a b) x l !! i =
  (fun v => if decide (a <= Z.of_nat i < b) then x + v else v) <$> l !! i.
Proof.
  intros Hab Hb. unfold addslice.
  rewrite slice_lo_nonneg by lia.
  assert (length (map (Z.add x) (getslice (Slice a b) l)) = Z.to_nat (b - a))
    as Hlen by (rewrite length_map, length_getslice_nonneg; lia).
  destruct (decide (i < Z.to_nat a)%nat) as [Hlt|Hge].
  - rewrite list_lookup_inserts_lt by done.
    destruct (l !! i); simpl; [|done]. by rewrite decide_False by lia.
  - destruct (decide (i < Z.to_nat a + Z.to_nat (b - a))%nat) as [Hin|Hout].
    + rewrite list_lookup_inserts by lia.
      rewrite list_lookup_fmap, getslice_nonneg by lia.
      rewrite lookup_take_lt by lia. rewrite lookup_drop.
      replace (Z.to_nat a + (i - Z.to_nat a))%nat with i by lia.
      destruct (l !! i); simpl; [|done]. by rewrite decide_True by lia.
    + rewrite list_lookup_inserts_ge by lia.
      destruct (l !! i); simpl; [|done]. by rewrite decide_False by lia.
Qed.

Lemma length_addslice (sl : pyslice) (x : Z) (l : list Z) :
  length (addslice sl x l) = length l.
Proof. unfold addslice. apply length_inserts. Qed.

Section Accept.

Context `{Library}.
Variables (d : data) (n_proc block_width : Z) (prop_df : Q).
Variable arrival : nat -> nat -> nat.

Local Abbreviation L := (chrom_length d).

Lemma accept_after_lookup (accept : list Z) (merged : list (Z * Z)) (p : Z) :
  0 < block_width -> Z.of_nat (length accept) = L ->
  Forall (fun st => 0 <= st < L) merged.*1 -> 0 <= p ->
  accept_after L block_width accept merged !! Z.to_nat p =
  (fun a => a + accepted_at L block_width p merged) <$> accept !! Z.to_nat p.
Proof.
  intros Hbw Hlen Hrange Hp.
  induction merged as [|[start tag] merged IH]; simpl.
  - destruct (accept !! _); simpl; [|done]. f_equal. lia.
  - apply Forall_cons in Hrange as [Hs Hrange]. simpl in Hs.
    assert (length (accept_after L block_width accept merged) = length accept) as Hl.
    { clear. induction merged as [|e merged IH]; simpl; [done|].
      by rewrite length_addslice. }
    rewrite addslice_lookup by lia. rewrite (IH Hrange).
    destruct (accept !! _); simpl; [|done]. f_equal.
    unfold covers. rewrite Z2Nat.id by done.
    repeat case_decide; lia.
Qed.

Lemma work_tag (st st' : wstate) (start : Z) ev :
  work d block_width prop_df st start = Some (st', ev) ->
  exists r tag, sends ev = [(r, tag)] /\ (tag = 0 \/ tag = 1).
Proof.
  unfold work. intros Hwork.
  assert (forall st0 v tag st1 ev1,
            transmit d block_width st0 start v tag = Some (st1, ev1) ->
            exists r, sends ev1 = [(r, tag)]) as Ht.
  { intros st0 v tag st1 ev1 Htr.
    apply transmit_spec in Htr as (r & -> & _). by exists r. }
  destruct (cholesky _) as [f|].
  - destruct (propose _ _ _ _ _ _) as [[z g] tp]. simpl in Hwork.
    destruct tp as [tp|]; [|done]. simpl in Hwork.
    destruct (amax tp) as [m|]; [|done]. simpl in Hwork.
    destruct (Qgeb m _).
    + apply Ht in Hwork as [r Hr]. eauto.
    + destruct (uniform g) as [u g']. simpl in Hwork.
      destruct (Qltb _ _);
        destruct (transmit _ _ _ _ _ _) as [[st2 ev2]|] eqn:Htr; try done;
        simpl in Hwork; injection Hwork as <- <-;
        apply Ht in Htr as [r Hr]; simpl; rewrite Hr; eauto.
  - apply Ht in Hwork as [r Hr]. eauto.
Qed.

Lemma deliver_tags k c nodes nodes' :
  deliver d block_width prop_df k c nodes = Some nodes' ->
  out_tags nodes -> out_tags nodes'.
Proof.
  intros Hd Htags.
  apply deliver_spec in Hd as (nd & ws & ev & b & Hnd & Hstep & ->).
  apply Forall_insert; [done|]. simpl.
  apply Forall_app. split.
  - unfold out_tags in Htags. rewrite Forall_forall in Htags.
    apply Htags. by eapply list_elem_of_lookup_2.
  - destruct c as [|theta mu sigmasq|start|theta]; simpl in Hstep;
      try (injection Hstep as <- <- <-; constructor).
    destruct (work _ _ _ _ _) as [[st' ev']|] eqn:Hwork; [|done].
    simpl in Hstep. injection Hstep as <- <- <-.
    apply work_tag in Hwork as (r & tag & -> & Htag).
    constructor; [done|constructor].
Qed.

Lemma sync_all_tags theta mu sigmasq nodes nodes' :
  sync_all d n_proc block_width prop_df theta mu sigmasq nodes = Some nodes' ->
  out_tags nodes -> out_tags nodes'.
Proof.
  unfold sync_all. generalize (seq 0 (n_workers n_proc)). intros ks.
  revert nodes'. induction ks as [|k ks IH]; intros nodes' Hs Ht;
    simpl in Hs.
  - by simplify_eq.
  - destruct (foldr _ _ ks) as [nodes1|]; [|done]. simpl in Hs.
    eapply deliver_tags; [exact Hs|]. by apply IH.
Qed.

Lemma first_batch_accept ks : forall (s s' : mstate),
  first_batch d block_width prop_df ks s = Some s' ->
  out_tags (m_nodes s) ->
  out_tags (m_nodes s') /\ m_accept s' = m_accept s /\
  m_merged s' = m_merged s.
Proof.
  induction ks as [|k ks IH]; intros s s' Hfb Ht; simpl in Hfb.
  - by simplify_eq.
  - destruct (m_start_vec s !! m_started s) as [start|]; [|done].
    simpl in Hfb.
    destruct (deliver _ _ _ _ _ _) as [nodes1|] eqn:Hdel; [|done].
    simpl in Hfb. apply IH in Hfb; [done|]. simpl.
    by eapply deliver_tags.
Qed.

Lemma recv_any_tags choice nodes k r tag nodes' :
  recv_any choice nodes = Some (k, (r, tag), nodes') ->
  out_tags nodes -> out_tags nodes' /\ (tag = 0 \/ tag = 1).
Proof.
  intros Hr Ht.
  apply recv_any_spec in Hr as (nd & rest & Hnd & Hout & ->).
  unfold out_tags in Ht. rewrite Forall_forall in Ht.
  pose proof (Ht nd ltac:(by eapply list_elem_of_lookup_2)) as Hnd_tags.
  rewrite Hout in Hnd_tags. apply Forall_cons in Hnd_tags as [Htag Hrest].
  split; [|done]. apply Forall_insert; [|done].
  by apply Forall_forall.
Qed.

Lemma collect_step_accept t (s s' : mstate) :
  collect_step d block_width prop_df arrival t s = Some s' ->
  out_tags (m_nodes s) ->
  out_tags (m_nodes s') /\
  exists start tag,
    (tag = 0 \/ tag = 1) /\
    m_merged s' = (start, tag) :: m_merged s /\
    m_accept s' =
      addslice (Slice start (Z.min (start + block_width) L)) tag (m_accept s).
Proof.
  unfold collect_step. intros Hstep Ht.
  destruct (recv_any _ _) as [[[k [r tag]] nodes1]|] eqn:Hrecv; [|done].
  simpl in Hstep. apply recv_any_tags in Hrecv as [Ht1 Htag]; [|done].
  destruct (m_assigned s !! k) as [start|]; [|done]. simpl in Hstep.
  destruct (m_theta s !! t) as [row|]; [|done]. simpl in Hstep.
  destruct (setslice _ _ row) as [row'|]; [|done]. simpl in Hstep.
  case_decide.
  - destruct (deliver _ _ _ _ (UPDATE row') _) as [nodes2|] eqn:Hupd; [|done].
    simpl in Hstep.
    destruct (m_start_vec s !! m_started s) as [next|]; [|done].
    simpl in Hstep.
    destruct (deliver _ _ _ _ (WORK next) _) as [nodes3|] eqn:Hwork; [|done].
    simpl in Hstep. injection Hstep as <-. simpl.
    split; [eapply deliver_tags; [exact Hwork|];
            by eapply deliver_tags|].
    by exists start, tag.
  - injection Hstep as <-. simpl. split; [done|]. by exists start, tag.
Qed.

Lemma collect_accept (fuel : nat) : forall t (s s' : mstate),
  collect d block_width prop_df arrival fuel t s = Some s' ->
  out_tags (m_nodes s) ->
  exists new,
    m_merged s' = new ++ m_merged s /\
    Forall (fun e : Z * Z => e.2 = 0 \/ e.2 = 1) new /\
    m_accept s' = accept_after L block_width (m_accept s) new.
Proof.
  induction fuel as [|fuel IH]; intros t s s' Hc Ht; simpl in Hc;
    case_decide; simplify_eq; try (by exists []).
  destruct (collect_step _ _ _ _ _ _) as [s1|] eqn:Hstep; [|done].
  simpl in Hc.
  apply collect_step_accept in Hstep
    as (Ht1 & start & tag & Htag & Hm1 & Ha1); [|done].
  apply IH in Hc as (new & Hm & Hnew & Ha); [|done].
  exists (new ++ [(start, tag)]). split; [|split].
  - rewrite Hm, Hm1. by rewrite <- app_assoc.
  - apply Forall_app. split; [done|]. constructor; [done|constructor].
  - rewrite Ha, Ha1. unfold accept_after. by rewrite foldr_app.
Qed.

Lemma accepted_at_bounds (p : Z) (merged : list (Z * Z)) :
  Forall (fun e : Z * Z => e.2 = 0 \/ e.2 = 1) merged ->
  0 <= accepted_at L block_width p merged
    <= Z.of_nat (writes_at L block_width p merged.*1).
Proof.
  unfold writes_at. induction 1 as [|[start tag] merged Htag _ IH].
  - simpl. lia.
  - rewrite fmap_cons, filter_cons. simpl in Htag.
    change (accepted_at L block_width p ((start, tag) :: merged))
      with ((if decide (covers L block_width p start) then tag else 0)
            + accepted_at L block_width p merged).
    change ((start, tag).1) with start.
    destruct (decide (covers L block_width p start));
      rewrite ?length_cons; lia.
Qed.

(** X5: an iteration adds to [accept_stats[p]] the number of accepted
    blocks whose output range holds [p].  With the double scan this is at
    most 2, and at most 1 for a position before [block_width/2]. *)
Theorem accept_stats_accounting (sv : list Z) (t : nat) (s s' : mstate)
    (p : Z) :
  0 < block_width -> scan_starts L block_width = Some sv ->
  sweep_ready d block_width sv s ->
  Z.of_nat (length (m_accept s)) = L ->
  sweep d n_proc block_width prop_df arrival t s = Some s' ->
  0 <= p < L ->
  m_accept s' !! Z.to_nat p =
    (fun a => a + accepted_at L block_width p (m_merged s'))
      <$> m_accept s !! Z.to_nat p /\
  0 <= accepted_at L block_width p (m_merged s')
    <= (if p <? block_width / 2 then 1 else 2).
Proof.
  intros Hbw Hsv Hready Hlen Hsweep Hp.
  assert (Forall (fun st => 0 <= st < L) sv) as Hrange
    by (by eapply scan_starts_range).
  pose proof Hsweep as Hsweep'.
  eapply sweep_merges_schedule in Hsweep' as [Hperm _]; [|done..].
  unfold sweep in Hsweep.
  destruct (sweep_start _ _ _ _ _ _) as [s1|] eqn:Hstart; [|done].
  simpl in Hsweep.
  assert (out_tags (m_nodes s1) /\ m_accept s1 = m_accept s /\
          m_merged s1 = []) as (Ht1 & Ha1 & Hm1).
  { destruct Hready as (_ & _ & _ & Hidle).
    unfold sweep_start in Hstart.
    destruct (m_theta s !! _) as [prev|]; [|done]. simpl in Hstart.
    destruct (m_mu s !! _) as [mp|]; [|done]. simpl in Hstart.
    destruct (m_sigmasq s !! _) as [sp|]; [|done]. simpl in Hstart.
    destruct (sync_all _ _ _ _ _ _ _ _) as [nodes1|] eqn:Hsync; [|done].
    simpl in Hstart. case_guard; [|done]. simpl in Hstart.
    destruct (shuffle _ _) as [start_vec g].
    apply first_batch_accept in Hstart; [done|]. simpl.
    eapply sync_all_tags; [exact Hsync|].
    unfold out_tags. eapply Forall_impl; [exact Hidle|].
    intros nd (Hout & _). rewrite Hout. constructor. }
  apply collect_accept in Hsweep as (new & Hm & Hnew & Ha); [|done].
  rewrite Hm1, app_nil_r in Hm. rewrite Ha1 in Ha. subst new.
  split.
  - rewrite Ha. apply accept_after_lookup; [done|done| |lia].
    rewrite Hperm. done.
  - pose proof (accepted_at_bounds p _ Hnew) as Hb.
    rewrite (writes_at_perm _ _ _ _ _ Hperm) in Hb.
    rewrite (writes_at_scan_starts _ _ _ _ Hbw Hp Hsv) in Hb.
    destruct (p <? block_width / 2); lia.
Qed.

End Accept.

Lemma accept_stats_accounting_witness :
  exists s0 s2 : @mstate toy_library,
    state20 = Some s0 /\
    @sweep toy_library d20 2 10 5 arrival0 1 s0 = Some s2 /\
    m_accept s2 !! 7%nat =
      (fun a => a + accepted_at 20 10 7 (m_merged s2)) <$> m_accept s0 !! 7%nat /\
    0 <= accepted_at 20 10 7 (m_merged s2) <= 2.
Proof.
  destruct state20 as [s0|] eqn:E0; [|vm_compute in E0; discriminate].
  destruct (@sweep toy_library d20 2 10 5 arrival0 1 s0) as [s2|] eqn:E2;
    [|vm_compute in E0; injection E0 as <-; vm_compute in E2; discriminate].
  assert (Forall (@node_idle toy_library d20 10) [node20]) as Hidle
    by (repeat constructor).
  destruct (@master_init_ready toy_library d20 cfg20 2 10 theta20 [0%Q]
              [1%Q] 0%nat [node20] s0 Hidle eq_refl E0)
    as (Hbw & sv & Hsv & Hready).
  exists s0, s2. split; [reflexivity|]. split; [exact E2|].
  apply (@accept_stats_accounting toy_library d20 2 10 5 arrival0 sv 1 s0 s2 7
           Hbw Hsv Hready).
  - vm_compute in E0. injection E0 as <-. reflexivity.
  - exact E2.
  - vm_compute. split; [discriminate|reflexivity].
Defined.

(** * [summarise_mcmc.py] *)

(** ** [find_maxima] *)

(** The slice [1:-1] of a sequence of at least two elements. *)
Lemma slice_inner {A} (l : list A) :
  (2 <= length l)%nat ->
  slice_lo (Slice 1 (-1)) l = 1 /\
  slice_len (Slice 1 (-1)) l = (length l - 2)%nat.
Proof.
  intros Hl. unfold slice_len, slice_lo, clip. simpl.
  destruct (Z.ltb_spec 1 0); lia.
Qed.

Lemma slice_inner_short {A} (l : list A) :
  (length l < 2)%nat -> slice_len (Slice 1 (-1)) l = 0%nat.
Proof.
  intros Hl. unfold slice_len, slice_lo, clip. simpl.
  destruct (Z.ltb_spec 1 0); lia.
Qed.

Lemma getslice_inner {A} (l : list A) :
  getslice (Slice 1 (-1)) l = take (length l - 2) (drop 1 l).
Proof.
  unfold getslice. destruct (decide (2 <= length l)%nat) as [Hl|Hl].
  - destruct (slice_inner l Hl) as [-> ->]. done.
  - rewrite slice_inner_short by lia.
    replace (length l - 2)%nat with 0%nat by lia. done.
Qed.

Lemma getslice_upto_m2 {A} (l : list A) :
  getslice (upto (-2)) l = take (length l - 2) l.
Proof.
  unfold getslice, upto, slice_len, slice_lo, clip. simpl.
  rewrite Z.min_l by lia. simpl. rewrite drop_0. f_equal. lia.
Qed.

Lemma getslice_from_2 {A} (l : list A) :
  getslice (from 2 l) l = drop 2 l.
Proof.
  unfold getslice, from, slice_len, slice_lo, clip. simpl.
  destruct (Z.ltb_spec (Z.of_nat (length l)) 0); [lia|].
  rewrite Z.min_id.
  destruct (decide (2 <= length l)%nat).
  - rewrite Z.min_l by lia. apply take_ge. rewrite length_drop. lia.
  - rewrite Z.min_r by lia. rewrite !drop_ge by lia. by rewrite take_nil.
Qed.

(** [a[1:-1] = v] on a vector of ones. *)
Lemma setslice_inner (n : nat) (v : list Z) :
  length v = (n - 2)%nat ->
  exists l, setslice (Slice 1 (-1)) v (replicate n 1) = Some l /\
            length l = n /\
            (forall i y, v !! i = Some y -> l !! S i = Some y) /\
            (n <> 0%nat -> l !! 0%nat = Some 1 /\ l !! (n - 1)%nat = Some 1).
Proof.
  intros Hv. unfold setslice.
  destruct (decide (2 <= n)%nat) as [Hn|Hn].
  - destruct (slice_inner (replicate n 1)) as [-> ->];
      [by rewrite length_replicate|].
    rewrite length_replicate, decide_True by done.
    eexists. split; [done|].
    split; [by rewrite length_inserts, length_replicate|]. split.
    + intros i y Hi. pose proof (lookup_lt_Some _ _ _ Hi).
      change (Z.to_nat 1) with 1%nat.
      replace (S i) with (1 + i)%nat by lia.
      rewrite list_lookup_inserts by (rewrite ?length_replicate; lia).
      rewrite <- Hi. f_equal. lia.
    + intros _. change (Z.to_nat 1) with 1%nat. split.
      * rewrite list_lookup_inserts_lt by lia.
        apply lookup_replicate_2. lia.
      * rewrite list_lookup_inserts_ge by lia.
        apply lookup_replicate_2. lia.
  - rewrite slice_inner_short by (rewrite length_replicate; lia).
    assert (v = []) as -> by (apply length_zero_iff_nil; lia).
    rewrite decide_True by done. simpl.
    eexists. split; [done|].
    split; [by rewrite length_replicate|]. split.
    + intros i y Hi. done.
    + intros Hn0. split; apply lookup_replicate_2; lia.
Qed.

Lemma interior_flags (x : list Q) :
  exists up down,
    setslice (Slice 1 (-1))
             (vgt (getslice (Slice 1 (-1)) x) (getslice (upto (-2)) x))
             (replicate (length x) 1) = Some up /\
    setslice (Slice 1 (-1))
             (vlt (getslice (from 2 x) x) (getslice (Slice 1 (-1)) x))
             (replicate (length x) 1) = Some down /\
    length up = length x /\ length down = length x /\
    (forall i a b c, x !! i = Some a -> x !! S i = Some b ->
       x !! S (S i) = Some c ->
       up !! S i = Some (b2z (Qltb a b)) /\
       down !! S i = Some (b2z (Qltb c b))) /\
    (x <> [] ->
     up !! 0%nat = Some 1 /\ up !! (length x - 1)%nat = Some 1 /\
     down !! 0%nat = Some 1 /\ down !! (length x - 1)%nat = Some 1).
Proof.
  rewrite getslice_inner, getslice_upto_m2, getslice_from_2.
  destruct (setslice_inner (length x)
              (vgt (take (length x - 2) (drop 1 x)) (take (length x - 2) x)))
    as (up & Hup & Hlu & Hui & Hub).
  { unfold vgt. rewrite length_zip_with, !length_take, length_drop. lia. }
  destruct (setslice_inner (length x)
              (vlt (drop 2 x) (take (length x - 2) (drop 1 x))))
    as (down & Hdown & Hld & Hdi & Hdb).
  { unfold vlt. rewrite length_zip_with, !length_take, !length_drop. lia. }
  exists up, down. split; [done|]. split; [done|].
  split; [done|]. split; [done|]. split.
  - intros i a b c Ha Hb Hc.
    pose proof (lookup_lt_Some _ _ _ Hc) as Hlt. split.
    + apply Hui. unfold vgt. rewrite lookup_zip_with.
      rewrite !lookup_take_lt by lia. rewrite lookup_drop. simpl.
      by rewrite Hb, Ha.
    + apply Hdi. unfold vlt. rewrite lookup_zip_with.
      rewrite !lookup_take_lt by lia. rewrite !lookup_drop. simpl.
      by rewrite Hc, Hb.
  - intros Hx. assert (length x <> 0%nat) as Hn by (by destruct x).
    destruct (Hub Hn), (Hdb Hn). done.
Qed.

(** [find_maxima(x)] with [boundary=False]. *)
Lemma find_maxima_false_spec (x : list Q) :
  exists m,
    find_maxima x false = Some m /\ length m = length x /\
    (forall i a b c, x !! i = Some a -> x !! S i = Some b ->
       x !! S (S i) = Some c ->
       m !! S i = Some (b2z (Qltb a b && Qltb c b))) /\
    (x <> [] ->
     m !! 0%nat = Some 1 /\ m !! (length x - 1)%nat = Some 1).
Proof.
  destruct (interior_flags x)
    as (up & down & Hup & Hdown & Hlu & Hld & Hin & Hb).
  unfold find_maxima. rewrite Hup, Hdown. simpl.
  eexists. split; [done|].
  split; [rewrite length_zip_with; lia|]. split.
  - intros i a b c Ha Hb' Hc.
    destruct (Hin i a b c Ha Hb' Hc) as [Hu Hd].
    rewrite lookup_zip_with, Hu. simpl. rewrite Hd. simpl.
    by destruct (Qltb a b), (Qltb c b).
  - intros Hx. destruct (Hb Hx) as (H1 & H2 & H3 & H4).
    rewrite !lookup_zip_with, H1, H2. simpl. by rewrite H3, H4.
Qed.

(** X6: [find_maxima(x)] with [boundary=False] never raises; it flags an
    inner position when its value is strictly above both neighbours, and
    it always flags the first and the last position. *)
Theorem find_maxima_flags (x : list Q) :
  exists m,
    find_maxima x false = Some m /\ length m = length x /\
    (forall i a b c, x !! i = Some a -> x !! S i = Some b ->
       x !! S (S i) = Some c ->
       m !! S i = Some (b2z (Qltb a b && Qltb c b))) /\
    (x <> [] ->
     m !! 0%nat = Some 1 /\ m !! (length x - 1)%nat = Some 1).
Proof. apply find_maxima_false_spec. Qed.

(** X7: with [boundary=True] the first position is flagged when it is
    above the second and the last when it is above the one before, the
    inner positions as before; a sequence of fewer than two elements raises
    (an index out of range). *)
Theorem find_maxima_boundary (x : list Q) :
  ((length x < 2)%nat -> find_maxima x true = None) /\
  ((2 <= length x)%nat ->
   exists m,
     find_maxima x true = Some m /\ length m = length x /\
     (forall i a b c, x !! i = Some a -> x !! S i = Some b ->
        x !! S (S i) = Some c ->
        m !! S i = Some (b2z (Qltb a b && Qltb c b))) /\
     (forall a b, x !! 0%nat = Some a -> x !! 1%nat = Some b ->
        m !! 0%nat = Some (b2z (Qltb b a))) /\
     (forall a b, x !! (length x - 2)%nat = Some a ->
        x !! (length x - 1)%nat = Some b ->
        m !! (length x - 1)%nat = Some (b2z (Qltb a b)))).
Proof.
  destruct (interior_flags x)
    as (up & down & Hup & Hdown & Hlu & Hld & Hin & Hb).
  unfold find_maxima. rewrite Hup, Hdown. simpl. split.
  - intros Hl. unfold getitem at 1.
    destruct x as [|x0 [|x1 x]]; simpl in *; done || lia.
  - intros Hl.
    destruct (lookup_lt_is_Some_2 x 0 ltac:(lia)) as [x0 H0].
    destruct (lookup_lt_is_Some_2 x 1 ltac:(lia)) as [x1 H1].
    destruct (lookup_lt_is_Some_2 x (length x - 1) ltac:(lia)) as [xl Hxl].
    destruct (lookup_lt_is_Some_2 x (length x - 2) ltac:(lia)) as [xl2 Hxl2].
    assert (getitem x 1 = Some x1) as ->
      by (rewrite getitem_inrange by lia; done).
    assert (getitem x 0 = Some x0) as ->
      by (rewrite getitem_inrange by lia; done).
    assert (getitem x (-1) = Some xl) as ->.
    { unfold getitem. simpl.
      destruct (Z.leb_spec (- Z.of_nat (length x)) (-1)); [|lia]. simpl.
      rewrite <- Hxl. f_equal. lia. }
    assert (getitem x (-2) = Some xl2) as ->.
    { unfold getitem. simpl.
      destruct (Z.leb_spec (- Z.of_nat (length x)) (-2)); [|lia]. simpl.
      rewrite <- Hxl2. f_equal. lia. }
    simpl. rewrite (setitem_inrange down 0) by lia. simpl.
    assert (setitem up (-1) (b2z (Qltb xl2 xl)) =
            Some (<[(length x - 1)%nat := b2z (Qltb xl2 xl)]> up)) as ->.
    { unfold setitem. simpl.
      destruct (Z.leb_spec (- Z.of_nat (length up)) (-1)); [|lia]. simpl.
      do 2 f_equal. lia. }
    simpl. destruct (Hb ltac:(by destruct x)) as (Hu0 & Hul & Hd0 & Hdl).
    change (Z.to_nat 0) with 0%nat.
    eexists. split; [done|].
    split; [rewrite length_zip_with, !length_insert; lia|].
    split; [|split].
    + intros i a b c Ha Hb' Hc.
      pose proof (lookup_lt_Some _ _ _ Hc) as Hlt.
      destruct (Hin i a b c Ha Hb' Hc) as [Hu Hd].
      rewrite lookup_zip_with.
      rewrite !list_lookup_insert_ne by lia. rewrite Hu. simpl.
      rewrite Hd. simpl.
      by destruct (Qltb a b), (Qltb c b).
    + intros a b Ha Hb'. simplify_eq. rewrite lookup_zip_with.
      rewrite (list_lookup_insert_ne up) by lia. rewrite Hu0. simpl.
      rewrite list_lookup_insert_eq by lia. simpl.
      by destruct (Qltb x1 x0).
    + intros a b Ha Hb'. simplify_eq. rewrite lookup_zip_with.
      rewrite list_lookup_insert_eq by lia. simpl.
      rewrite list_lookup_insert_ne by lia. rewrite Hdl. simpl.
      by destruct (Qltb xl2 xl).
Qed.

(** ** [greedy_maxima_search] *)

Lemma Forall2_perm_l {A B} (P : A -> B -> Prop) (l l' : list A) :
  l ≡ₚ l' -> forall k, Forall2 P l k ->
  exists k', k ≡ₚ k' /\ Forall2 P l' k'.
Proof.
  induction 1 as [|x l l' _ IH|x y l|l1 l2 l3 _ IH1 _ IH2]; intros k Hk.
  - apply Forall2_nil_inv_l in Hk as ->. by exists [].
  - apply Forall2_cons_inv_l in Hk as (b & k0 & Hb & Hk0 & ->).
    destruct (IH k0 Hk0) as (k' & Hp & Hf).
    exists (b :: k'). split; [by constructor|by constructor].
  - apply Forall2_cons_inv_l in Hk as (b & k0 & Hb & Hk0 & ->).
    apply Forall2_cons_inv_l in Hk0 as (b' & k1 & Hb' & Hk1 & ->).
    exists (b' :: b :: k1). split; [apply perm_swap|by repeat constructor].
  - destruct (IH1 k Hk) as (k1 & Hp1 & Hf1).
    destruct (IH2 k1 Hf1) as (k2 & Hp2 & Hf2).
    exists k2. split; [by etrans|done].
Qed.

Lemma take_idx_all {A} (c k : list A) :
  Forall2 (fun i y => getitem c i = Some y)
          (map Z.of_nat (seq 0 (length c))) k ->
  k = c.
Proof.
  intros Hf. apply list_eq_same_length with (length c).
  - done.
  - apply Forall2_length in Hf. by rewrite length_map, length_seq in Hf.
  - intros i y z Hi Hy Hz.
    eapply Forall2_lookup_r in Hf as (j & Hj & Hget); [|exact Hy].
    rewrite list_lookup_fmap, lookup_seq_lt in Hj by done.
    simpl in Hj. injection Hj as <-.
    rewrite getitem_inrange, Nat2Z.id in Hget by lia. congruence.
Qed.

Lemma take_idx_length {A} (l : list A) idx k :
  take_idx l idx = Some k -> length k = length idx.
Proof. intros Hk. apply mapM_Some in Hk. symmetry. by eapply Forall2_length. Qed.

Lemma setslice_all {A} (v l : list A) :
  length v = length l -> setslice (from 0 l) v l = Some v.
Proof.
  intros Hlen. unfold from. rewrite setslice_nonneg by lia.
  rewrite take_0, drop_ge by lia. by rewrite app_nil_r.
Qed.

Lemma zmin_elem_of (l : list Z) (m : Z) : zmin l = Some m -> m ∈ l.
Proof.
  destruct l as [|x l]; [done|]. simpl. intros [= <-].
  revert x. induction l as [|a l IH]; intros x; simpl.
  - by left.
  - destruct (Z.min_spec x a) as [[_ ->]|[_ ->]].
    + pose proof (IH x) as Hx. apply elem_of_cons in Hx as [Hx|Hx].
      * rewrite Hx. by left.
      * right. by right.
    + right. apply IH.
Qed.

Lemma zmin_le (l : list Z) (m v : Z) : zmin l = Some m -> v ∈ l -> m <= v.
Proof.
  intros Hm Hv. destruct (zmin_spec l) as (m' & Hm' & Hle).
  { intros ->. by apply elem_of_nil in Hv. }
  rewrite Hm in Hm'. injection Hm' as ->. by apply Hle.
Qed.

Lemma spaced_snoc (ms : Z) (l : list Z) (c : Z) :
  0 <= ms -> spaced ms l -> (forall p, p ∈ l -> ms < Z.abs (c - p)) ->
  spaced ms (l ++ [c]).
Proof.
  intros Hms Hl Hc i j a b Hij Ha Hb.
  apply lookup_snoc_Some in Ha as [[Hi Ha]|[-> <-]];
    apply lookup_snoc_Some in Hb as [[Hj Hb]|[-> <-]].
  - by eapply Hl.
  - pose proof (Hc a ltac:(by eapply list_elem_of_lookup_2)). lia.
  - pose proof (Hc b ltac:(by eapply list_elem_of_lookup_2)). lia.
  - done.
Qed.

Section GreedyProps.

Variable argsort : list Q -> list Z.

(** [np.argsort] returns a permutation of the indices. *)
Hypothesis argsort_perm : forall v,
  argsort v ≡ₚ map Z.of_nat (seq 0 (length v)).

Lemma ranked_perm (x : list Q) (c c' : list Z) :
  ranked argsort x c = Some c' -> c' ≡ₚ c.
Proof.
  unfold ranked. intros Hr.
  destruct (take_idx x c) as [vals|] eqn:Hvals; [|done]. simpl in Hr.
  destruct (take_idx c (argsort vals)) as [sorted|] eqn:Hs; [|done].
  simpl in Hr.
  pose proof (take_idx_length _ _ _ Hvals) as Hlv.
  pose proof (take_idx_length _ _ _ Hs) as Hls.
  pose proof (argsort_perm vals) as Hperm.
  apply mapM_Some in Hs.
  destruct (Forall2_perm_l _ _ _ Hperm _ Hs) as (k & Hk & Hf).
  rewrite Hlv in Hf. apply take_idx_all in Hf. subst k.
  rewrite setslice_all in Hr.
  - simpl in Hr. injection Hr as <-. by rewrite reverse_Permutation.
  - by rewrite (Permutation_length Hk).
Qed.

(** The loop over the candidates: the peaks found so far stay more than
    [min_spacing] apart, every candidate seen is within [min_spacing] of
    one of them, and the buffer is written only past them. *)
Lemma greedy_loop (ms : Z) (cs : list Z) :
  0 <= ms ->
  forall (peaks : list Z) (k : nat) (peaks' : list Z) (n' : Z),
  (1 <= k <= length peaks)%nat -> spaced ms (take k peaks) ->
  foldl (fun acc candidate => acc ← acc; greedy_step ms acc candidate)
        (Some (peaks, Z.of_nat k)) cs = Some (peaks', n') ->
  exists (k' : nat) (added : list Z),
    n' = Z.of_nat k' /\ (k <= k' <= length peaks')%nat /\
    take k' peaks' = take k peaks ++ added /\
    spaced ms (take k' peaks') /\
    (forall p, p ∈ added -> p ∈ cs) /\
    (forall q, q ∈ cs -> exists p, p ∈ take k' peaks' /\ Z.abs (q - p) <= ms).
Proof.
  intros Hms. induction cs as [|c cs IH]; intros peaks k peaks' n' Hk Hsp Hf.
  - simpl in Hf. injection Hf as <- <-. exists k, [].
    split; [done|]. split; [lia|]. split; [by rewrite app_nil_r|].
    split; [done|]. split; intros ? Hin; by apply elem_of_nil in Hin.
  - change (foldl (fun acc candidate => acc ← acc;
                                         greedy_step ms acc candidate)
                   (greedy_step ms (peaks, Z.of_nat k) c) cs
            = Some (peaks', n')) in Hf.
    destruct (greedy_step ms (peaks, Z.of_nat k) c) as [[peaks1 n1]|]
      eqn:Hstep; [|by rewrite foldl_bind_None in Hf].
    unfold greedy_step in Hstep.
    rewrite getslice_upto in Hstep by lia. rewrite Nat2Z.id in Hstep.
    destruct (zmin _) as [dist|] eqn:Hd; [|done].
    simpl in Hstep.
    destruct (Z.leb_spec dist ms) as [Hle|Hgt].
    + (* skipped *)
      injection Hstep as <- <-.
      destruct (IH _ _ _ _ Hk Hsp Hf)
        as (k' & added & -> & Hk' & Htake & Hsp' & Hadd & Hcov).
      exists k', added. split; [done|]. split; [done|]. split; [done|].
      split; [done|]. split.
      * intros p Hp. right. by apply Hadd.
      * intros q [->|Hq]%elem_of_cons; [|by apply Hcov].
        apply zmin_elem_of in Hd.
        apply list_elem_of_fmap in Hd as (p & -> & Hp).
        exists p. split; [|done]. rewrite Htake.
        apply elem_of_app. by left.
    + (* a new peak *)
      destruct (setitem peaks (Z.of_nat k) c) as [peaks2|] eqn:Hset;
        [|done].
      simpl in Hstep. injection Hstep as <- <-.
      assert (k < length peaks)%nat as Hlt.
      { unfold setitem in Hset.
        destruct (Z.leb_spec 0 (Z.of_nat k)),
                 (Z.ltb_spec (Z.of_nat k) (Z.of_nat (length peaks))),
                 (Z.ltb_spec (Z.of_nat k) 0);
          simpl in Hset; try lia.
        by rewrite andb_false_r in Hset. }
      rewrite setitem_inrange, Nat2Z.id in Hset by lia.
      injection Hset as <-.
      assert (take (S k) (<[k:=c]> peaks) = take k peaks ++ [c]) as Htk.
      { rewrite (take_S_r _ _ c) by (apply list_lookup_insert_eq; lia).
        by rewrite take_insert_ge by lia. }
      replace (Z.of_nat k + 1) with (Z.of_nat (S k)) in Hf by lia.
      destruct (IH (<[k:=c]> peaks) (S k) peaks' n') as
        (k' & added & -> & Hk' & Htake & Hsp' & Hadd & Hcov).
      * rewrite length_insert. lia.
      * rewrite Htk. apply spaced_snoc; [done|done|].
        intros p Hp. pose proof (zmin_le _ _ (Z.abs (c - p)) Hd) as Hm.
        assert (dist <= Z.abs (c - p)); [|lia].
        apply Hm. apply list_elem_of_fmap. by exists p.
      * exact Hf.
      * rewrite Htk, <- app_assoc in Htake.
        exists k', ([c] ++ added). split; [done|].
        split; [lia|].
        split; [done|]. split; [done|]. split.
        -- intros p [->%list_elem_of_singleton|Hp]%elem_of_app;
             [by left|right; by apply Hadd].
        -- intros q [->|Hq]%elem_of_cons; [|by apply Hcov].
           exists c. split.
           ++ rewrite Htake. apply elem_of_app. right. by left.
           ++ lia.
Qed.

End GreedyProps.

Lemma elem_of_where_nz (m : list Z) (p : Z) :
  p ∈ where_nz m <->
  exists (i : nat) (v : Z), p = Z.of_nat i /\ m !! i = Some v /\ v <> 0.
Proof.
  unfold where_nz. rewrite list_elem_of_omap. split.
  - intros ([i v] & Hin & Hv).
    apply (elem_of_lookup_imap_1 (fun i v => (i, v))) in Hin
      as (i' & v' & Heq & Hm). injection Heq as <- <-.
    destruct (Z.eqb_spec v 0); [done|]. injection Hv as <-.
    by exists i, v.
  - intros (i & v & -> & Hm & Hv). exists (i, v). split.
    + by apply (elem_of_lookup_imap_2 (fun i v => (i, v))).
    + simpl. by destruct (Z.eqb_spec v 0).
Qed.

Lemma spaced_singleton (ms a : Z) : spaced ms [a].
Proof.
  intros i j x y Hij Hi Hj.
  apply list_lookup_singleton_Some in Hi as [-> _].
  apply list_lookup_singleton_Some in Hj as [-> _]. done.
Qed.

Lemma StronglySorted_lookup_lt {A} (R : relation A) (l : list A)
    (i j : nat) (a b : A) :
  StronglySorted R l -> (i < j)%nat -> l !! i = Some a -> l !! j = Some b ->
  R a b.
Proof.
  intros Hl. revert i j. induction Hl as [|x l _ IH Hx]; intros i j Hij Ha Hb.
  - done.
  - destruct j as [|j]; [lia|]. simpl in Hb. destruct i as [|i].
    + simpl in Ha. injection Ha as <-.
      rewrite Forall_forall in Hx. apply Hx. by eapply list_elem_of_lookup_2.
    + simpl in Ha. eapply IH; [|done..]. lia.
Qed.

(** Sorted in ascending order, entries more than [ms] apart follow each
    other with gaps above [ms]. *)
Lemma spaced_sorted (ms : Z) (l : list Z) :
  0 <= ms -> spaced ms l ->
  StronglySorted (fun a b => a + ms < b) (merge_sort Z.le l).
Proof.
  intros Hms Hsp.
  assert (NoDup l) as Hnd.
  { apply NoDup_alt. intros i j a Hi Hj.
    destruct (decide (i = j)) as [|Hne]; [done|].
    pose proof (Hsp i j a a Hne Hi Hj). lia. }
  assert (forall a b, a ∈ l -> b ∈ l -> a <> b -> ms < Z.abs (a - b)) as Hel.
  { intros a b [i Hi]%list_elem_of_lookup [j Hj]%list_elem_of_lookup Hab.
    apply (Hsp i j a b); [|done..]. intros ->. congruence. }
  pose proof (merge_sort_Permutation Z.le l) as Hperm.
  pose proof (StronglySorted_merge_sort Z.le l) as Hs.
  rewrite <- Hperm in Hnd.
  assert (forall a, a ∈ merge_sort Z.le l -> a ∈ l) as Hin
    by (intros a; by rewrite Hperm).
  revert Hs Hnd Hin. generalize (merge_sort Z.le l). intros s Hs.
  induction Hs as [|a s _ IH Ha]; intros Hnd Hin; constructor.
  - apply IH; [by apply NoDup_cons in Hnd as [_ ?]|].
    intros b Hb. apply Hin. by right.
  - apply NoDup_cons in Hnd as [Hna _].
    rewrite Forall_forall in Ha |- *. intros b Hb.
    pose proof (Ha b Hb).
    assert (a <> b) by (intros ->; done).
    pose proof (Hel a b (Hin a ltac:(by left)) (Hin b ltac:(by right))
                  ltac:(done)).
    lia.
Qed.

(** Entries of [0 .. N-1] more than [ms] apart: there are at most
    [(N-1)/(ms+1) + 1] of them. *)
Lemma spaced_count (ms N : Z) (l : list Z) :
  0 <= ms -> spaced ms l -> Forall (fun p => 0 <= p < N) l ->
  Z.of_nat (length l) <= Z.max 0 ((N - 1) / (ms + 1) + 1).
Proof.
  intros Hms Hsp Hr.
  set (f := fun p : Z => p / (ms + 1)).
  assert (NoDup (f <$> l)) as Hnd.
  { apply NoDup_alt. intros i j q Hi Hj.
    rewrite list_lookup_fmap in Hi, Hj.
    destruct (l !! i) as [a|] eqn:Ha; [|done].
    destruct (l !! j) as [b|] eqn:Hb; [|done].
    simpl in Hi, Hj. destruct (decide (i = j)) as [|Hne]; [done|].
    pose proof (Hsp i j a b Hne Ha Hb) as Hab.
    injection Hi as Hi. injection Hj as Hj. subst q. unfold f in Hj.
    exfalso. revert Hj Hab. Z.div_mod_to_equations. nia. }
  assert (f <$> l ⊆+ seqZ 0 (Z.max 0 ((N - 1) / (ms + 1) + 1))) as Hsub.
  { apply NoDup_submseteq; [done|]. intros q Hq.
    apply list_elem_of_fmap in Hq as (p & -> & Hp).
    rewrite Forall_forall in Hr. pose proof (Hr p Hp) as Hpr.
    apply elem_of_seqZ. unfold f.
    assert (0 <= p / (ms + 1)) by (apply Z.div_pos; lia).
    assert (p / (ms + 1) <= (N - 1) / (ms + 1))
      by (apply Z.div_le_mono; lia).
    lia. }
  apply submseteq_length in Hsub.
  rewrite length_fmap, length_seqZ in Hsub. lia.
Qed.

Lemma getitem_nonneg_Some {A} (l : list A) (i : Z) (x : A) :
  0 <= i -> getitem l i = Some x ->
  i < Z.of_nat (length l) /\ l !! Z.to_nat i = Some x.
Proof.
  intros Hi. unfold getitem.
  destruct (Z.leb_spec 0 i), (Z.ltb_spec i (Z.of_nat (length l))),
           (Z.ltb_spec i 0); simpl; try lia; try done.
  by rewrite andb_false_r.
Qed.

Lemma setitem_nonneg_Some {A} (l l' : list A) (i : Z) (x : A) :
  0 <= i -> setitem l i x = Some l' ->
  i < Z.of_nat (length l) /\ l' = <[Z.to_nat i := x]> l.
Proof.
  intros Hi. unfold setitem.
  destruct (Z.leb_spec 0 i), (Z.ltb_spec i (Z.of_nat (length l))),
           (Z.ltb_spec i 0); simpl; try lia; try done.
  - by intros [= <-].
  - by rewrite andb_false_r.
Qed.

Section GreedySearch.

Variable argsort : list Q -> list Z.

(** [np.argsort] returns a permutation of the indices. *)
Hypothesis argsort_perm : forall v,
  argsort v ≡ₚ map Z.of_nat (seq 0 (length v)).

(** The candidates are positions of the sequence that [find_maxima] flags,
    at least [remove_boundary] away from both ends when it is positive. *)
Lemma candidates_spec (x : list Q) (rb : Z) (c : list Z) (p : Z) :
  candidates x rb = Some c ->
  p ∈ c <->
  (exists m (i : nat) (v : Z),
     find_maxima x false = Some m /\ p = Z.of_nat i /\
     m !! i = Some v /\ v <> 0) /\
  (0 < rb -> rb <= p < Z.of_nat (length x) - rb).
Proof.
  unfold candidates. intros Hc.
  destruct (find_maxima x false) as [m|] eqn:Hm; [|done]. simpl in Hc.
  injection Hc as <-.
  destruct (Z.ltb_spec 0 rb) as [Hrb|Hrb].
  - rewrite !list_elem_of_filter, elem_of_where_nz. split.
    + intros (H1 & H2 & i & v & -> & Hi & Hv).
      split; [by exists m, i, v|]. lia.
    + intros [(m' & i & v & Hm' & -> & Hi & Hv) Hr]. simplify_eq.
      specialize (Hr Hrb). split; [lia|]. split; [lia|]. by exists i, v.
  - rewrite elem_of_where_nz. split.
    + intros (i & v & -> & Hi & Hv). split; [by exists m, i, v|]. lia.
    + intros [(m' & i & v & Hm' & -> & Hi & Hv) _]. simplify_eq.
      by exists i, v.
Qed.

Lemma candidates_range (x : list Q) (rb : Z) (c : list Z) :
  candidates x rb = Some c ->
  Forall (fun p => 0 <= p < Z.of_nat (length x)) c.
Proof.
  intros Hc. apply Forall_forall. intros p Hp.
  apply (candidates_spec x rb c p Hc) in Hp
    as [(m & i & v & Hm & -> & Hi & _) _].
  destruct (find_maxima_false_spec x) as (m' & Hm' & Hlen & _).
  rewrite Hm in Hm'. injection Hm' as <-.
  apply lookup_lt_Some in Hi. lia.
Qed.

End GreedySearch.

Section GreedyTheorems.

Variable argsort : list Q -> list Z.

(** [np.argsort] returns a permutation of the indices. *)
Hypothesis argsort_perm : forall v,
  argsort v ≡ₚ map Z.of_nat (seq 0 (length v)).

(** What a search that returns has done: the peaks are the first [k]
    entries of the buffer, more than [min_spacing] apart, taken from the
    candidates, and every candidate is within [min_spacing] of one. *)
Lemma greedy_result (x : list Q) (ms rb : Z) (peaks : list Z) :
  0 <= ms ->
  greedy_maxima_search argsort x ms rb = Some peaks ->
  exists c found,
    candidates x rb = Some c /\
    peaks = merge_sort Z.le found /\ spaced ms found /\
    (forall p, p ∈ found -> p ∈ c) /\
    (forall q, q ∈ c -> exists p, p ∈ found /\ Z.abs (q - p) <= ms).
Proof.
  intros Hms Hg. unfold greedy_maxima_search in Hg.
  destruct (candidates x rb) as [c|] eqn:Hc; [|done]. simpl in Hg.
  destruct (ranked argsort x c) as [c1|] eqn:Hr; [|done]. simpl in Hg.
  pose proof (ranked_perm argsort argsort_perm _ _ _ Hr) as Hperm.
  repeat (case_guard; simpl in Hg; try done).
  destruct (getitem c1 0) as [c0|] eqn:Hc0; [|done]. simpl in Hg.
  set (size := Z.of_nat (length x) / ms + 2) in *.
  destruct (setitem _ 0 c0) as [peaks1|] eqn:Hp1; [|done]. simpl in Hg.
  apply getitem_nonneg_Some in Hc0 as [_ Hc0']; [|lia].
  apply setitem_nonneg_Some in Hp1 as [Hsz ->]; [|lia].
  change (Z.to_nat 0) with 0%nat in *.
  set (buf := <[0%nat:=c0]> (replicate (Z.to_nat size) 0)) in *.
  assert (take 1 buf = [c0]) as Ht1.
  { unfold buf. destruct (replicate (Z.to_nat size) 0); [simpl in Hsz; lia|].
    done. }
  assert (length buf = length (replicate (Z.to_nat size) 0)) as Hlb
    by (unfold buf; by rewrite length_insert).
  exists c.
  destruct (Z.ltb_spec 1 (Z.of_nat (length c1))) as [Hmany|Hone].
  - destruct (foldl _ _ c1) as [[peaks' n']|] eqn:Hloop; [|done].
    simpl in Hg. injection Hg as <-.
    destruct (greedy_loop ms c1 Hms buf 1 peaks' n') as
      (k' & added & -> & Hk' & Htake & Hsp & Hadd & Hcov).
    + lia.
    + rewrite Ht1. apply spaced_singleton.
    + exact Hloop.
    + rewrite getslice_upto by lia. rewrite Nat2Z.id.
      exists (take k' peaks'). split; [done|]. split; [done|].
      split; [done|]. split.
      * intros p Hp. rewrite Htake, Ht1 in Hp. rewrite <- Hperm.
        apply elem_of_cons in Hp as [->|Hp].
        -- by eapply list_elem_of_lookup_2.
        -- by apply Hadd.
      * intros q Hq. apply Hcov. by rewrite Hperm.
  - simpl in Hg. injection Hg as <-.
    rewrite getslice_upto by lia. change (Z.to_nat 1) with 1%nat.
    rewrite Ht1. exists [c0]. split; [done|]. split; [done|].
    split; [apply spaced_singleton|].
    assert (c1 = [c0]) as Hc1.
    { destruct c1 as [|a [|b c1]]; simpl in *; [done| |lia]. congruence. }
    split.
    + intros p Hp. by rewrite <- Hperm, Hc1.
    + intros q Hq. rewrite <- Hperm, Hc1 in Hq.
      apply list_elem_of_singleton in Hq as ->. exists c0.
      split; [by left|lia].
Qed.

(** X8: the peaks that [greedy_maxima_search] returns are in ascending
    order with gaps above [min_spacing], and each is a candidate: a
    position that [find_maxima] flags, at least [remove_boundary] away from
    both ends. *)
Theorem greedy_peaks_spaced (x : list Q) (ms rb : Z) (peaks : list Z) :
  0 <= ms ->
  greedy_maxima_search argsort x ms rb = Some peaks ->
  StronglySorted (fun a b => a + ms < b) peaks /\
  exists c, candidates x rb = Some c /\ forall p, p ∈ peaks -> p ∈ c.
Proof.
  intros Hms Hg.
  destruct (greedy_result x ms rb peaks Hms Hg)
    as (c & found & Hc & -> & Hsp & Hsub & _).
  split; [by apply spaced_sorted|].
  exists c. split; [done|]. intros p Hp. apply Hsub.
  by rewrite merge_sort_Permutation in Hp.
Qed.

(** X9: the search is greedy to the end: every candidate is within
    [min_spacing] of a returned peak, so no further candidate could be
    added. *)
Theorem greedy_peaks_maximal (x : list Q) (ms rb : Z) (peaks c : list Z)
    (q : Z) :
  0 <= ms ->
  greedy_maxima_search argsort x ms rb = Some peaks ->
  candidates x rb = Some c -> q ∈ c ->
  exists p, p ∈ peaks /\ Z.abs (q - p) <= ms.
Proof.
  intros Hms Hg Hc Hq.
  destruct (greedy_result x ms rb peaks Hms Hg)
    as (c' & found & Hc' & -> & _ & _ & Hcov).
  rewrite Hc in Hc'. injection Hc' as <-.
  destruct (Hcov q Hq) as (p & Hp & Hd). exists p.
  split; [by rewrite merge_sort_Permutation|done].
Qed.

Lemma take_idx_total {A} (l : list A) (idx : list Z) :
  Forall (fun i => 0 <= i < Z.of_nat (length l)) idx ->
  is_Some (take_idx l idx).
Proof.
  intros Hr. unfold take_idx. apply mapM_is_Some.
  eapply Forall_impl; [exact Hr|]. intros i Hi. simpl in *.
  rewrite getitem_inrange by done. apply lookup_lt_is_Some_2. lia.
Qed.

Lemma ranked_total (x : list Q) (c : list Z) :
  Forall (fun p => 0 <= p < Z.of_nat (length x)) c ->
  is_Some (ranked argsort x c).
Proof.
  intros Hr. unfold ranked.
  destruct (take_idx_total x c Hr) as [vals Hvals]. rewrite Hvals. simpl.
  pose proof (take_idx_length _ _ _ Hvals) as Hlv.
  destruct (take_idx_total c (argsort vals)) as [sorted Hs].
  { apply Forall_forall. intros i Hi. rewrite argsort_perm in Hi.
    apply list_elem_of_fmap in Hi as (j & -> & Hj).
    apply elem_of_seq in Hj. lia. }
  rewrite Hs. simpl. rewrite setslice_all; [by eexists|].
  rewrite (take_idx_length _ _ _ Hs).
  rewrite (Permutation_length (argsort_perm vals)).
  by rewrite length_map, length_seq.
Qed.

Lemma greedy_loop_total (ms N : Z) (cs : list Z) :
  0 <= ms -> Forall (fun p => 0 <= p < N) cs ->
  forall (peaks : list Z) (k : nat),
  (1 <= k <= length peaks)%nat -> spaced ms (take k peaks) ->
  Forall (fun p => 0 <= p < N) (take k peaks) ->
  Z.max 0 ((N - 1) / (ms + 1) + 1) <= Z.of_nat (length peaks) ->
  is_Some (foldl (fun acc candidate => acc ← acc;
                                       greedy_step ms acc candidate)
                 (Some (peaks, Z.of_nat k)) cs).
Proof.
  intros Hms Hcs. induction Hcs as [|c cs Hc _ IH];
    intros peaks k Hk Hsp Hr Hsize; [by eexists|].
  change (is_Some (foldl (fun acc candidate => acc ← acc;
                                               greedy_step ms acc candidate)
                         (greedy_step ms (peaks, Z.of_nat k) c) cs)).
  unfold greedy_step at 2.
  rewrite getslice_upto by lia. rewrite Nat2Z.id.
  destruct (zmin_spec (map (fun p => Z.abs (c - p)) (take k peaks)))
    as (dist & Hd & _).
  { intros Hnil. apply (f_equal length) in Hnil.
    rewrite length_map, length_take in Hnil. simpl in Hnil. lia. }
  rewrite Hd. simpl.
  destruct (Z.leb_spec dist ms) as [Hle|Hgt]; [by apply IH|].
  assert (spaced ms (take k peaks ++ [c])) as Hsp'.
  { apply spaced_snoc; [done|done|].
    intros p Hp. pose proof (zmin_le _ _ (Z.abs (c - p)) Hd) as Hm.
    assert (dist <= Z.abs (c - p)); [|lia].
    apply Hm. apply list_elem_of_fmap. by exists p. }
  assert (Forall (fun p => 0 <= p < N) (take k peaks ++ [c])) as Hr'
    by (apply Forall_app; split; [done|by constructor]).
  pose proof (spaced_count ms N _ Hms Hsp' Hr') as Hcount.
  rewrite length_app, length_take in Hcount. simpl in Hcount.
  rewrite setitem_inrange by lia. simpl. rewrite Nat2Z.id.
  assert (take (S k) (<[k:=c]> peaks) = take k peaks ++ [c]) as Htk.
  { rewrite (take_S_r _ _ c) by (apply list_lookup_insert_eq; lia).
    by rewrite take_insert_ge by lia. }
  replace (Z.of_nat k + 1) with (Z.of_nat (S k)) by lia.
  apply IH.
  - rewrite length_insert. lia.
  - by rewrite Htk.
  - by rewrite Htk.
  - by rewrite length_insert.
Qed.

(** X10: with a positive [min_spacing] and at least one candidate the
    search returns: the buffer of [size/min_spacing + 2] peaks is never
    written past its end. *)
Theorem greedy_returns (x : list Q) (ms rb : Z) (c : list Z) :
  1 <= ms -> candidates x rb = Some c -> c <> [] ->
  is_Some (greedy_maxima_search argsort x ms rb).
Proof.
  intros Hms Hc Hne. unfold greedy_maxima_search. rewrite Hc. simpl.
  pose proof (candidates_range x rb c Hc) as Hrange.
  destruct (ranked_total x c Hrange) as [c1 Hr]. rewrite Hr. simpl.
  pose proof (ranked_perm argsort argsort_perm _ _ _ Hr) as Hperm.
  rewrite <- Hperm in Hrange.
  set (N := Z.of_nat (length x)) in *.
  assert (0 <= N / ms) as Hq by (apply Z.div_pos; lia).
  rewrite !option_guard_True by lia. simpl.
  assert (exists c0, c1 !! 0%nat = Some c0) as [c0 Hc0].
  { destruct c1 as [|c0 c1]; [|by exists c0].
    apply Permutation_nil_l in Hperm. done. }
  assert (getitem c1 0 = Some c0) as ->.
  { rewrite getitem_inrange; [done|]. apply lookup_lt_Some in Hc0. lia. }
  simpl.
  rewrite setitem_inrange by (rewrite length_replicate; lia). simpl.
  change (Z.to_nat 0) with 0%nat.
  set (buf := <[0%nat:=c0]> (replicate (Z.to_nat (N / ms + 2)) 0)).
  assert (length buf = Z.to_nat (N / ms + 2)) as Hlb
    by (unfold buf; by rewrite length_insert, length_replicate).
  assert (take 1 buf = [c0]) as Ht1.
  { unfold buf. destruct (Z.to_nat (N / ms + 2)) eqn:E; [lia|]. done. }
  destruct (Z.ltb_spec 1 (Z.of_nat (length c1))); [|simpl; by eexists].
  destruct (greedy_loop_total ms N c1 ltac:(lia) Hrange buf 1)
    as [[peaks' n'] Hloop].
  - lia.
  - rewrite Ht1. apply spaced_singleton.
  - rewrite Ht1. constructor; [|done].
    rewrite Forall_forall in Hrange. apply Hrange.
    by eapply list_elem_of_lookup_2.
  - rewrite Hlb.
    assert ((N - 1) / (ms + 1) <= N / ms); [|lia].
    assert (0 <= N) by lia. Z.div_mod_to_equations. nia.
  - change (Z.of_nat 1) with 1 in Hloop. rewrite Hloop. simpl. by eexists.
Qed.

(** X11: a sequence in which no inner position is strictly above both its
    neighbours has no candidate once the boundary is removed, and the
    search raises (at [candidates[0]]). *)
Theorem greedy_needs_candidate (x : list Q) (ms rb : Z) :
  1 <= rb ->
  (forall i a b c, x !! i = Some a -> x !! S i = Some b ->
     x !! S (S i) = Some c -> Qltb a b && Qltb c b = false) ->
  greedy_maxima_search argsort x ms rb = None.
Proof.
  intros Hrb Hflat. unfold greedy_maxima_search.
  destruct (candidates x rb) as [c|] eqn:Hc; [|done]. simpl.
  assert (c = []) as ->.
  { destruct c as [|p c]; [done|]. exfalso.
    pose proof (proj1 (candidates_spec x rb _ p Hc) ltac:(by left))
      as [(m & i & v & Hm & -> & Hi & Hv) Hr].
    specialize (Hr ltac:(lia)).
    destruct (find_maxima_false_spec x) as (m' & Hm' & _ & Hin & _).
    rewrite Hm in Hm'. injection Hm' as <-.
    destruct i as [|i]; [lia|].
    destruct (lookup_lt_is_Some_2 x i ltac:(lia)) as [a Ha].
    destruct (lookup_lt_is_Some_2 x (S i) ltac:(lia)) as [b Hb].
    destruct (lookup_lt_is_Some_2 x (S (S i)) ltac:(lia)) as [c' Hc'].
    rewrite (Hin i a b c' Ha Hb Hc'), (Hflat i a b c' Ha Hb Hc') in Hi.
    injection Hi as <-. done. }
  destruct (ranked argsort x []) as [c1|] eqn:Hr; [|done]. simpl.
  assert (c1 = []) as ->.
  { unfold ranked in Hr. simpl in Hr.
    destruct (take_idx [] (argsort [])) as [sorted|]; [|done]. simpl in Hr.
    destruct (setslice _ sorted []) as [c2|] eqn:Hset; [|done].
    simpl in Hr. injection Hr as <-.
    apply setslice_length in Hset. by destruct c2. }
  repeat (case_guard; simpl; try done).
Qed.

End GreedyTheorems.

(** The stable sort is an instance of [np.argsort]. *)
Lemma argsort_stable_perm (v : list Q) :
  argsort_stable v ≡ₚ map Z.of_nat (seq 0 (length v)).
Proof.
  unfold argsort_stable. rewrite merge_sort_Permutation.
  apply reflexive_eq, list_eq. intros i.
  rewrite list_lookup_fmap, list_lookup_imap, list_lookup_fmap.
  destruct (v !! i) as [q|] eqn:Hq; simpl.
  - rewrite lookup_seq_lt by (by eapply lookup_lt_Some). done.
  - rewrite lookup_seq_ge; [done|]. by apply lookup_ge_None.
Qed.

Lemma greedy_peaks_spaced_witness :
  greedy_maxima_search argsort_stable (qs [1; 3; 2; 5; 4; 6; 1; 0; 3; 2]) 2 1
    = Some [1; 5; 8] /\
  StronglySorted (fun a b => a + 2 < b) [1; 5; 8].
Proof.
  assert (greedy_maxima_search argsort_stable
            (qs [1; 3; 2; 5; 4; 6; 1; 0; 3; 2]) 2 1 = Some [1; 5; 8]) as E
    by (vm_compute; reflexivity).
  split; [exact E|].
  apply (greedy_peaks_spaced argsort_stable argsort_stable_perm
           (qs [1; 3; 2; 5; 4; 6; 1; 0; 3; 2]) 2 1 [1; 5; 8]); [lia|exact E].
Defined.

Lemma greedy_peaks_maximal_witness :
  exists p, p ∈ [1; 5; 8] /\ Z.abs (3 - p) <= 2.
Proof.
  apply (greedy_peaks_maximal argsort_stable argsort_stable_perm
           (qs [1; 3; 2; 5; 4; 6; 1; 0; 3; 2]) 2 1 [1; 5; 8] [1; 3; 5; 8] 3).
  - lia.
  - vm_compute. reflexivity.
  - vm_compute. reflexivity.
  - right. left.
Defined.

Lemma greedy_returns_witness :
  is_Some (greedy_maxima_search argsort_stable
             (qs [1; 3; 2; 5; 4; 6; 1; 0; 3; 2]) 2 1).
Proof.
  apply (greedy_returns argsort_stable argsort_stable_perm
           (qs [1; 3; 2; 5; 4; 6; 1; 0; 3; 2]) 2 1 [1; 3; 5; 8]).
  - lia.
  - vm_compute. reflexivity.
  - discriminate.
Defined.

Lemma greedy_needs_candidate_witness :
  greedy_maxima_search argsort_stable (qs [1; 2; 3; 3; 4]) 2 1 = None.
Proof.
  apply (greedy_needs_candidate argsort_stable (qs [1; 2; 3; 3; 4]) 2 1).
  - lia.
  - intros i a b c Ha Hb Hc.
    do 3 (destruct i as [|i]; [vm_compute in Ha, Hb, Hc;
            injection Ha as <-; injection Hb as <-; injection Hc as <-;
            reflexivity|]).
    vm_compute in Hc. destruct i; discriminate.
Defined.

(** ** [summarise]: running mean, squared deviations and detection rate *)

Lemma qsum_snoc (l : list Q) (v : Q) : (qsum (l ++ [v]) == qsum l + v)%Q.
Proof.
  induction l as [|a l IH]; simpl; [ring|]. rewrite IH. ring.
Qed.

Lemma qlen_snoc {A} (l : list A) (v : A) : (qlen (l ++ [v]) == qlen l + 1)%Q.
Proof.
  unfold qlen. rewrite length_app. simpl.
  rewrite Nat2Z.inj_add, inject_Z_plus. reflexivity.
Qed.

Lemma qlen_pos {A} (l : list A) : l <> [] -> (0 < qlen l)%Q.
Proof.
  intros Hl. unfold qlen. change 0%Q with (inject_Z 0). rewrite <- Zlt_Qlt.
  destruct l; [done|]. simpl. lia.
Qed.

(** The sum of the squared deviations from [m]. *)
Lemma qsum_sq_dev (col : list Q) (m : Q) :
  (qsum (map (fun v => (v - m) * (v - m)) col) ==
   qsum (map (fun v => v * v) col) - 2 * m * qsum col + qlen col * m * m)%Q.
Proof.
  induction col as [|a col IH]; simpl.
  - unfold qlen. simpl. ring.
  - rewrite IH. change (a :: col) with ([a] ++ col).
    unfold qlen. rewrite length_app. simpl length.
    rewrite Nat2Z.inj_add, inject_Z_plus. simpl. ring.
Qed.

Lemma lro_summaries_snoc (n : nat) (baseline : list Q)
    (lros : list (list Q)) (l : list Q) :
  lro_summaries n baseline (lros ++ [l]) =
  lro_update baseline (lro_summaries n baseline lros) (length lros) l.
Proof.
  unfold lro_summaries. rewrite length_app. simpl length.
  rewrite seq_app. simpl.
  rewrite zip_with_app by (by rewrite length_seq).
  by rewrite foldl_app.
Qed.

(** The state of the loop at one position [i], after the draws whose
    values at [i] are [col]. *)
Lemma lro_summaries_inv (n : nat) (baseline : list Q) (i : nat) (b : Q) :
  length baseline = n -> baseline !! i = Some b ->
  forall (lros : list (list Q)) (col : list Q),
  Forall (fun l => length l = n) lros ->
  Forall2 (fun l v => l !! i = Some v) lros col ->
  exists m s p mi si pi,
    lro_summaries n baseline lros = (m, s, p) /\
    length m = n /\ length s = n /\ length p = n /\
    m !! i = Some mi /\ s !! i = Some si /\ p !! i = Some pi /\
    (qlen col * mi == qsum col)%Q /\
    (si == qsum (map (fun v => v * v) col) - mi * qsum col)%Q /\
    (qlen col * pi ==
     qlen (filter (fun v => Qltb b v = true) col))%Q.
Proof.
  intros Hbl Hb lros. pose proof (lookup_lt_Some _ _ _ Hb) as Hi.
  induction lros as [|l lros IH] using rev_ind; intros col Hlen Hcol.
  - apply Forall2_nil_inv_l in Hcol as ->.
    exists (replicate n 0%Q), (replicate n 0%Q), (replicate n 0%Q),
           0%Q, 0%Q, 0%Q.
    rewrite !length_replicate.
    repeat split; try (apply lookup_replicate_2; lia); try done.
  - apply Forall_app in Hlen as [Hlen Hl].
    apply Forall_cons in Hl as [Hl _].
    apply Forall2_app_inv_l in Hcol as (col' & vs & Hcol' & Hv & ->).
    apply Forall2_cons_inv_l in Hv as (v & vs' & Hv & Hnil & ->).
    apply Forall2_nil_inv_l in Hnil as ->.
    destruct (IH col' Hlen Hcol')
      as (m & s & p & mi & si & pi & Hsum & Hlm & Hls & Hlp & Hmi & Hsi
          & Hpi & H1 & H2 & H3).
    rewrite lro_summaries_snoc, Hsum. unfold lro_update.
    assert (length lros = length col') as HT by (by eapply Forall2_length).
    set (T := inject_Z (Z.of_nat (length lros))).
    assert (qlen col' = T) as HqT by (unfold qlen, T; by rewrite HT).
    assert (0 <= T)%Q as HT0.
    { unfold T. change 0%Q with (inject_Z 0). rewrite <- Zle_Qle. lia. }
    rewrite HqT in H1, H3.
    set (mi' := (mi + (v - mi) / (T + 1))%Q).
    eexists _, _, _, mi', (si + (v - mi) * (v - mi'))%Q,
      (pi * (T / (T + 1)) + inject_Z (b2z (Qltb b v)) / (T + 1))%Q.
    split; [done|].
    unfold vadd, vsub, vmul, vgt.
    repeat rewrite ?length_zip_with, ?length_map.
    split; [lia|]. split; [lia|]. split; [lia|].
    assert ((T + 1) * mi' == T * mi + v)%Q as Hm'
      by (unfold mi'; field; lra).
    split; [|split; [|split; [|split; [|split]]]].
    + repeat (rewrite ?lookup_zip_with, ?list_lookup_fmap, ?Hmi, ?Hv; simpl).
      done.
    + repeat (rewrite ?lookup_zip_with, ?list_lookup_fmap, ?Hmi, ?Hsi, ?Hv;
              simpl).
      done.
    + repeat (rewrite ?lookup_zip_with, ?list_lookup_fmap, ?Hpi, ?Hv, ?Hb;
              simpl).
      done.
    + rewrite qlen_snoc, qsum_snoc, HqT, Hm', H1. reflexivity.
    + rewrite map_app, !qsum_snoc. simpl. rewrite qsum_snoc, H2, <- H1.
      unfold mi'. field. lra.
    + rewrite qlen_snoc, HqT, filter_app, filter_cons, filter_nil.
      assert ((T + 1) * (pi * (T / (T + 1))
                         + inject_Z (b2z (Qltb b v)) / (T + 1))
              == T * pi + inject_Z (b2z (Qltb b v)))%Q as ->
        by (field; lra).
      rewrite H3. destruct (Qltb b v) eqn:E.
      * rewrite decide_True by done. rewrite qlen_snoc. reflexivity.
      * rewrite decide_False by congruence. rewrite app_nil_r.
        change (inject_Z (b2z false)) with 0%Q. ring.
Qed.

(** X12: at every position, after the loop over the draws of [summarise],
    [mean_lro] is the mean of the local relative occupancies of the draws,
    [se_lro] (before the final division and square root) is the sum of
    their squared deviations from that mean, and [p_local_concentration]
    is the fraction of the draws above the baseline. *)
Theorem lro_running_summaries (n : nat) (baseline : list Q) (i : nat)
    (b : Q) (lros : list (list Q)) (col : list Q) :
  length baseline = n -> baseline !! i = Some b ->
  Forall (fun l => length l = n) lros ->
  Forall2 (fun l v => l !! i = Some v) lros col ->
  lros <> [] ->
  exists mi si pi,
    (lro_summaries n baseline lros).1.1 !! i = Some mi /\
    (lro_summaries n baseline lros).1.2 !! i = Some si /\
    (lro_summaries n baseline lros).2 !! i = Some pi /\
    (mi == mean col)%Q /\
    (si == qsum (map (fun v => (v - mean col) * (v - mean col)) col))%Q /\
    (pi == qlen (filter (fun v => Qltb b v = true) col) / qlen col)%Q.
Proof.
  intros Hbl Hb Hlen Hcol Hne.
  destruct (lro_summaries_inv n baseline i b Hbl Hb lros col Hlen Hcol)
    as (m & s & p & mi & si & pi & Hsum & _ & _ & _ & Hmi & Hsi & Hpi
        & H1 & H2 & H3).
  rewrite Hsum. simpl. exists mi, si, pi.
  split; [done|]. split; [done|]. split; [done|].
  assert (col <> []) as Hcne.
  { intros ->. apply Forall2_nil_inv_r in Hcol. done. }
  pose proof (qlen_pos col Hcne) as Hpos.
  assert (mi == mean col)%Q as Hmean.
  { unfold mean. rewrite <- H1. field. lra. }
  split; [done|]. split.
  - rewrite qsum_sq_dev, H2, <- Hmean, <- H1. ring.
  - rewrite <- H3. field. lra.
Qed.

(** ** The localization index *)

Lemma bcast_same (a b : list Q) :
  length a = length b -> bcast a b = Some (a, b).
Proof. intros Hl. unfold bcast. by rewrite decide_True. Qed.

Lemma qsum_vmul_zeros_l (n : nat) (y : list Q) :
  (qsum (vmul (replicate n 0%Q) y) == 0)%Q.
Proof.
  unfold vmul. revert y. induction n as [|n IH]; intros [|b y]; simpl;
    try reflexivity.
  rewrite IH. ring.
Qed.

Lemma qsum_vmul_comm (a b : list Q) :
  (qsum (vmul a b) == qsum (vmul b a))%Q.
Proof.
  unfold vmul. revert b. induction a as [|u a IH]; intros [|v b]; simpl;
    try reflexivity.
  rewrite IH. ring.
Qed.

(** Changing one weight. *)
Lemma qsum_vmul_insert_l (w y : list Q) (k : nat) (a wk yk : Q) :
  w !! k = Some wk -> y !! k = Some yk ->
  (qsum (vmul (<[k:=a]> w) y) == qsum (vmul w y) + (a - wk) * yk)%Q.
Proof.
  unfold vmul. revert y k. induction w as [|u w IH]; intros [|v y] [|k]; simpl;
    try done.
  - intros [= ->] [= ->]. ring.
  - intros Hw Hy. rewrite (IH y k Hw Hy). ring.
Qed.

Lemma qsum_vmul_nonneg (w y : list Q) :
  Forall (fun v => 0 <= v)%Q w -> Forall (fun v => 0 <= v)%Q y ->
  (0 <= qsum (vmul w y))%Q.
Proof.
  intros Hw. revert y. unfold vmul.
  induction Hw as [|u w Hu _ IH]; intros y Hy; [simpl; lra|].
  destruct Hy as [|v y Hv Hy]; simpl; [lra|].
  specialize (IH y Hy). pose proof (Qmult_le_0_compat _ _ Hu Hv). lra.
Qed.

Lemma localization_index_same (x p : list Q) :
  length x = length p ->
  localization_index x p =
  Some (1 - qsum (vmul p (map (fun v => Qabs (v - qsum (vmul x p))) x))
            / (inject_Z (Z.max (Z.of_nat (length x)) (Z.of_nat (length p))
                         / 1) / 4))%Q.
Proof.
  intros Hlen. unfold localization_index, mean_abs_dev.
  by rewrite bcast_same.
Qed.

(** X13: for weights that are not negative the localization index is at
    most 1, and it is 1 when the whole weight is on one position. *)
Theorem localization_index_max (x p : list Q) :
  length x = length p -> x <> [] -> Forall (fun v => 0 <= v)%Q p ->
  exists l,
    localization_index x p = Some l /\ (l <= 1)%Q /\
    (forall k : nat, (k < length x)%nat ->
       p = <[k := 1%Q]> (replicate (length x) 0%Q) -> (l == 1)%Q).
Proof.
  intros Hlen Hx Hp. rewrite localization_index_same by done.
  eexists. split; [done|].
  set (c := qsum (vmul x p)).
  set (m := qsum (vmul p (map (fun v => Qabs (v - c)) x))).
  assert (0 < inject_Z (Z.max (Z.of_nat (length x)) (Z.of_nat (length p))
                        / 1) / 4)%Q as Hn.
  { rewrite Z.div_1_r. apply Qlt_shift_div_l; [lra|].
    rewrite Qmult_0_l. apply inject_Z_pos. destruct x; [done|]. simpl. lia. }
  assert (0 <= m)%Q as Hm.
  { unfold m. apply qsum_vmul_nonneg; [done|].
    apply Forall_map, Forall_forall. intros v _. apply Qabs_nonneg. }
  split.
  - assert (0 <= m / (inject_Z (Z.max (Z.of_nat (length x))
                                      (Z.of_nat (length p)) / 1) / 4))%Q.
    { apply Qle_shift_div_l; [done|]. lra. }
    lra.
  - intros k Hk Hspike.
    destruct (lookup_lt_is_Some_2 x k Hk) as [xk Hxk].
    assert (c == xk)%Q as Hc.
    { unfold c. rewrite qsum_vmul_comm, Hspike.
      rewrite (qsum_vmul_insert_l _ _ k 1 0 xk);
        [|apply lookup_replicate_2; lia|done].
      rewrite qsum_vmul_zeros_l. ring. }
    assert (m == 0)%Q as Hm0.
    { unfold m. rewrite Hspike.
      rewrite (qsum_vmul_insert_l _ _ k 1 0 (Qabs (xk - c)));
        [|apply lookup_replicate_2; lia|by rewrite list_lookup_fmap, Hxk].
      rewrite qsum_vmul_zeros_l.
      assert (xk - c == 0)%Q as -> by (rewrite Hc; ring).
      change (Qabs 0) with 0%Q. ring. }
    rewrite Hm0. unfold Qdiv at 1. rewrite Qmult_0_l. ring.
Qed.

(** X14: for positions [0 .. n-1] and two weights of one half on the first
    and the last position, the localization index is [2/n - 1]: above the
    value -1 that the description of the function gives as its minimum for
    this case. *)
Theorem localization_index_two_spikes (n : Z) :
  2 <= n ->
  let x := map inject_Z (prange 0 n) in
  let p := <[0%nat := (1 # 2)%Q]>
             (<[Z.to_nat (n - 1) := (1 # 2)%Q]>
                (replicate (Z.to_nat n) 0%Q)) in
  exists l, localization_index x p = Some l /\
            (l == 2 / inject_Z n - 1)%Q /\ (-1 < l)%Q.
Proof.
  intros Hn x p.
  assert (length x = Z.to_nat n) as Hlx.
  { unfold x, prange. rewrite !length_map, length_seq. f_equal. lia. }
  assert (length p = Z.to_nat n) as Hlp
    by (unfold p; by rewrite !length_insert, length_replicate).
  rewrite localization_index_same by congruence.
  eexists. split; [done|].
  assert (x !! 0%nat = Some 0%Q) as Hx0.
  { unfold x, prange. rewrite !list_lookup_fmap, lookup_seq_lt by lia. done. }
  assert (x !! Z.to_nat (n - 1) = Some (inject_Z (n - 1))) as Hxl.
  { unfold x, prange. rewrite !list_lookup_fmap, lookup_seq_lt by lia.
    simpl. do 2 f_equal. lia. }
  set (N := inject_Z n).
  assert (2 <= N)%Q as HN.
  { unfold N. change 2%Q with (inject_Z 2). by rewrite <- Zle_Qle. }
  assert (inject_Z (n - 1) == N - 1)%Q as HN1.
  { unfold N. unfold Z.sub. rewrite inject_Z_plus. reflexivity. }
  assert (forall y y0 yl, y !! 0%nat = Some y0 ->
            y !! Z.to_nat (n - 1) = Some yl ->
            qsum (vmul p y) == (1 # 2) * y0 + (1 # 2) * yl)%Q as Hsum.
  { intros y y0 yl Hy0 Hyl. unfold p.
    rewrite (qsum_vmul_insert_l _ _ 0 (1 # 2) 0 y0);
      [|rewrite list_lookup_insert_ne by lia; apply lookup_replicate_2; lia
       |done].
    rewrite (qsum_vmul_insert_l _ _ (Z.to_nat (n - 1)) (1 # 2) 0 yl);
      [|apply lookup_replicate_2; lia|done].
    rewrite qsum_vmul_zeros_l. ring. }
  assert (qsum (vmul x p) == (N - 1) / 2)%Q as Hc.
  { rewrite qsum_vmul_comm, (Hsum x _ _ Hx0 Hxl), HN1. field. }
  set (c := qsum (vmul x p)) in *.
  rewrite (Hsum _ (Qabs (0 - c)) (Qabs (inject_Z (n - 1) - c)))
    by (by rewrite list_lookup_fmap, ?Hx0, ?Hxl).
  rewrite HN1, Hc.
  assert (Qabs (0 - (N - 1) / 2) == (N - 1) / 2)%Q as ->.
  { assert (0 - (N - 1) / 2 == - ((N - 1) / 2))%Q as -> by ring.
    rewrite Qabs_opp. apply Qabs_pos.
    apply Qle_shift_div_l; lra. }
  assert (Qabs (N - 1 - (N - 1) / 2) == (N - 1) / 2)%Q as ->.
  { assert (N - 1 - (N - 1) / 2 == (N - 1) / 2)%Q as -> by field.
    apply Qabs_pos. apply Qle_shift_div_l; lra. }
  rewrite Z.div_1_r, Hlx, Hlp, Z.max_id, Z2Nat.id by lia. fold N.
  assert (1 - ((1 # 2) * ((N - 1) / 2) + (1 # 2) * ((N - 1) / 2)) / (N / 4)
          == 2 / N - 1)%Q as Hval by (field; lra).
  split; [exact Hval|]. rewrite Hval.
  assert (0 < 2 / N)%Q by (apply Qlt_shift_div_l; lra). lra.
Qed.

Lemma lro_running_summaries_witness :
  exists mi pi,
    (lro_summaries 2 (qs [2; 2]) [qs [1; 2]; qs [3; 2]; qs [5; 2]]).1.1
      !! 0%nat = Some mi /\
    (lro_summaries 2 (qs [2; 2]) [qs [1; 2]; qs [3; 2]; qs [5; 2]]).2
      !! 0%nat = Some pi /\
    (mi == 3)%Q /\ (pi == 2 # 3)%Q.
Proof.
  destruct (lro_running_summaries 2 (qs [2; 2]) 0 2
              [qs [1; 2]; qs [3; 2]; qs [5; 2]] (qs [1; 3; 5]))
    as (mi & si & pi & Hmi & _ & Hpi & Hmean & _ & Hfrac).
  - reflexivity.
  - reflexivity.
  - repeat constructor.
  - repeat constructor.
  - discriminate.
  - exists mi, pi. split; [exact Hmi|]. split; [exact Hpi|].
    split; [rewrite Hmean|rewrite Hfrac]; reflexivity.
Defined.

Lemma localization_index_max_witness :
  exists l, localization_index (qs [0; 1; 2; 3]) (qs [0; 0; 1; 0]) = Some l /\
            (l == 1)%Q.
Proof.
  destruct (localization_index_max (qs [0; 1; 2; 3]) (qs [0; 0; 1; 0]))
    as (l & Hl & _ & Hspike).
  - reflexivity.
  - discriminate.
  - repeat constructor; discriminate.
  - exists l. split; [exact Hl|]. apply (Hspike 2%nat); [simpl; lia|].
    reflexivity.
Defined.

Lemma localization_index_two_spikes_witness :
  exists l,
    localization_index (qs [0; 1; 2; 3]) [(1 # 2)%Q; 0%Q; 0%Q; (1 # 2)%Q]
      = Some l /\ (l == - (1 # 2))%Q.
Proof.
  destruct (localization_index_two_spikes 4) as (l & Hl & Hval & _); [lia|].
  exists l. split; [exact Hl|]. rewrite Hval. reflexivity.
Defined.

(** ** [load_data] and [initialize]: the regions *)

Lemma setitem_length {A} (l l' : list A) (i : Z) (x : A) :
  setitem l i x = Some l' -> length l' = length l.
Proof.
  unfold setitem. intros Hs.
  repeat case_match; simplify_eq; by rewrite length_insert.
Qed.

Lemma setitem_out_of_range {A} (l : list A) (i : Z) (x : A) :
  Z.of_nat (length l) <= i -> setitem l i x = None.
Proof.
  intros Hi. unfold setitem.
  destruct (Z.leb_spec 0 i), (Z.ltb_spec i (Z.of_nat (length l))),
           (Z.ltb_spec i 0); simpl; try lia; try done.
  by rewrite andb_false_r.
Qed.

Lemma setitem_nonneg_Some' {A} (l l' : list A) (i : Z) (x : A) :
  0 <= i -> setitem l i x = Some l' ->
  i < Z.of_nat (length l) /\ l' = <[Z.to_nat i := x]> l.
Proof.
  intros Hi. unfold setitem.
  destruct (Z.leb_spec 0 i), (Z.ltb_spec i (Z.of_nat (length l))),
           (Z.ltb_spec i 0); simpl; try lia; try done.
  - by intros [= <-].
  - by rewrite andb_false_r.
Qed.

Lemma zmax_elem_of (l : list Z) (m : Z) : zmax l = Some m -> m ∈ l.
Proof.
  destruct l as [|x l]; [done|]. simpl. intros [= <-].
  revert x. induction l as [|a l IH]; intros x; simpl.
  - by left.
  - destruct (Z.max_spec x a) as [[_ ->]|[_ ->]].
    + right. apply IH.
    + pose proof (IH x) as Hx. apply elem_of_cons in Hx as [Hx|Hx].
      * rewrite Hx. by left.
      * right. by right.
Qed.

Lemma zmin_elem_of_list (l : list Z) (m : Z) : zmin l = Some m -> m ∈ l.
Proof.
  destruct l as [|x l]; [done|]. simpl. intros [= <-].
  revert x. induction l as [|a l IH]; intros x; simpl.
  - by left.
  - destruct (Z.min_spec x a) as [[_ ->]|[_ ->]].
    + pose proof (IH x) as Hx. apply elem_of_cons in Hx as [Hx|Hx].
      * rewrite Hx. by left.
      * right. by right.
    + right. apply IH.
Qed.

(** A fold that stops at the first exception: an element on which every
    state that keeps the invariant fails makes the fold fail. *)
Lemma foldl_bind_fail {A B} (f : A -> B -> option A) (Inv : A -> Prop)
    (x0 : B) (l : list B) :
  (forall a x a', Inv a -> f a x = Some a' -> Inv a') ->
  (forall a, Inv a -> f a x0 = None) ->
  x0 ∈ l -> forall a, Inv a ->
  foldl (fun acc x => a ← acc; f a x) (Some a) l = None.
Proof.
  intros Hpres Hfail. induction l as [|x l IH]; intros Hin a Ha.
  - by apply elem_of_nil in Hin.
  - simpl. destruct (f a x) as [a'|] eqn:Hfa;
      [|by rewrite foldl_bind_None].
    apply elem_of_cons in Hin as [->|Hin].
    + rewrite Hfail in Hfa; done.
    + apply IH; [done|]. by eapply Hpres.
Qed.

Lemma build_regions_length (rt : list Z) (ids : list Z) :
  forall acc acc',
  foldl (fun acc r => acc ← acc; build_regions rt acc r) (Some acc) ids =
    Some acc' ->
  length acc'.1 = length acc.1 /\ length acc'.2 = length acc.2.
Proof.
  induction ids as [|r ids IH]; intros acc acc' Hf; simpl in Hf.
  - by simplify_eq.
  - destruct (build_regions rt acc r) as [acc1|] eqn:Hb;
      [|by rewrite foldl_bind_None in Hf].
    apply IH in Hf as [H1 H2]. rewrite H1, H2.
    unfold build_regions in Hb. simplify_option_eq.
    split; by eapply setitem_length.
Qed.

(** What [load_data] returns: the labels shifted to start at 0, their
    distinct values, and tables of [max + 1] entries. *)
Lemma load_data_shape (chrom : Z) (tpl reads : list Q) (regions : list Z)
    (d : data) :
  load_data chrom tpl reads regions = Some d ->
  exists hi,
    zmax (region_types d) = Some hi /\
    (forall r, r ∈ region_types d -> 0 <= r <= hi) /\
    0 ∈ region_types d /\
    region_ids d = unique (region_types d) /\
    length (region_list d) = Z.to_nat (hi + 1) /\
    length (region_sizes d) = Z.to_nat (hi + 1) /\
    length (y d) = length (region_types d) /\
    exists acc,
      foldl (fun acc r => acc ← acc; build_regions (region_types d) acc r)
            (Some (replicate (Z.to_nat (hi + 1)) None,
                   replicate (Z.to_nat (hi + 1)) 1))
            (unique (region_types d)) = Some acc /\
      region_list d = acc.1 /\ region_sizes d = acc.2.
Proof.
  unfold load_data. intros Hload.
  set (m := Z.min (Z.of_nat (length regions)) (Z.of_nat (length reads)))
    in Hload.
  rewrite !getslice_upto in Hload by lia.
  destruct (zmin (take (Z.to_nat m) regions)) as [lo|] eqn:Hlo; [|done].
  simpl in Hload. set (rt := map (fun r => r - lo) _) in Hload.
  destruct (zmax rt) as [hi|] eqn:Hhi; [|done]. simpl in Hload.
  destruct (foldl _ _ (unique rt)) as [[rl rs]|] eqn:Hfold; [|done].
  simpl in Hload. injection Hload as <-. simpl.
  exists hi. split; [done|].
  assert (forall v, v ∈ take (Z.to_nat m) regions -> lo <= v) as Hmin.
  { intros v Hv. destruct (zmin_spec (take (Z.to_nat m) regions))
      as (lo' & Hlo' & Hle); [by intros Hnil; rewrite Hnil in Hv;
                               apply elem_of_nil in Hv|].
    rewrite Hlo in Hlo'. injection Hlo' as <-. by apply Hle. }
  assert (forall v, v ∈ rt -> v <= hi) as Hmax.
  { intros v Hv. destruct (zmax_spec rt) as (hi' & Hhi' & Hle);
      [by intros Hnil; rewrite Hnil in Hv; apply elem_of_nil in Hv|].
    rewrite Hhi in Hhi'. injection Hhi' as <-. by apply Hle. }
  split.
  { intros r Hr. split; [|by apply Hmax].
    apply list_elem_of_fmap in Hr as (v & -> & Hv). apply Hmin in Hv. lia. }
  split.
  { apply zmin_elem_of_list in Hlo. apply list_elem_of_fmap.
    exists lo. split; [lia|done]. }
  split; [done|].
  pose proof (build_regions_length _ _ _ _ Hfold) as [H1 H2].
  simpl in H1, H2. rewrite length_replicate in H1. rewrite length_replicate in H2.
  split; [done|]. split; [done|]. split.
  { unfold rt. rewrite length_map, !length_take. lia. }
  exists (rl, rs). by repeat split.
Qed.

(** X15: [load_data] makes tables with one entry per label value up to the
    largest, [initialize] vectors with one entry per distinct label.  When
    the labels skip a value the two differ, and [initialize] raises (an
    index out of range) when it draws the parameters of the last region. *)
Theorem gapped_labels_fail `{Library} (cfg : config) (chrom : Z)
    (tpl reads : list Q) (regions : list Z) (d : data)
    (em_coef : list Q) (em_params : list Q * list Q) (g : rng) :
  initialize_params_from_em cfg = false ->
  load_data chrom tpl reads regions = Some d ->
  (length (region_ids d) < length (region_list d))%nat ->
  initialize d cfg em_coef em_params g = None.
Proof.
  intros Hem Hload Hgap.
  destruct (load_data_shape _ _ _ _ _ Hload)
    as (hi & Hhi & Hrange & _ & Hids & Hrl & _).
  unfold initialize. rewrite Hem.
  set (n := length (region_ids d)) in *.
  set (theta := if initialize_theta_from_em cfg then _ else _).
  rewrite (foldl_bind_fail (init_region d cfg theta)
             (fun acc => length acc.1.2 = n) hi); [done| | | |].
  - intros [[mu sig] g0] r [[mu' sig'] g'] Hinv Hstep. simpl in *.
    unfold init_region in Hstep.
    destruct (getitem (region_list d) r); [|done]. simpl in Hstep.
    destruct (getitem (region_sizes d) r); [|done]. simpl in Hstep.
    destruct (rgamma _ _ _) as [gam g1].
    destruct (setitem sig r _) as [sig1|] eqn:Hset; [|done].
    simpl in Hstep. destruct (randn g1) as [zz g2].
    destruct (setitem mu r _); [|done]. simpl in Hstep.
    injection Hstep as _ <- _. rewrite <- Hinv. by eapply setitem_length.
  - intros [[mu sig] g0] Hinv. simpl in Hinv. unfold init_region.
    destruct (getitem (region_list d) hi); [|done]. simpl.
    destruct (getitem (region_sizes d) hi); [|done]. simpl.
    destruct (rgamma _ _ _) as [gam g1].
    rewrite setitem_out_of_range; [done|]. lia.
  - rewrite Hids, elem_of_unique. by apply zmax_elem_of.
  - simpl. by rewrite length_replicate.
Qed.

Lemma gapped_labels_fail_witness :
  exists d, load_data 1 (qs [1; 2; 1]) (qs [3; 1; 4]) [0; 2; 2] = Some d /\
            @initialize toy_library d cfg20 [] ([], []) 0%nat = None.
Proof.
  destruct (load_data 1 (qs [1; 2; 1]) (qs [3; 1; 4]) [0; 2; 2]) as [d|] eqn:E;
    [|vm_compute in E; discriminate].
  exists d. split; [reflexivity|].
  apply (@gapped_labels_fail toy_library cfg20 1 (qs [1; 2; 1])
           (qs [3; 1; 4]) [0; 2; 2] d [] ([], []) 0%nat).
  - reflexivity.
  - exact E.
  - vm_compute in E. injection E as <-. simpl. lia.
Defined.

Lemma where_eq_snoc (l : list Z) (x r : Z) :
  where_eq (l ++ [x]) r =
  where_eq l r ++ (if x =? r then [Z.of_nat (length l)] else []).
Proof.
  unfold where_eq. rewrite imap_app, omap_app. f_equal. simpl.
  rewrite Nat.add_0_r. by destruct (x =? r).
Qed.

Lemma elem_of_where_eq (l : list Z) (r i : Z) :
  i ∈ where_eq l r <-> exists k : nat, i = Z.of_nat k /\ l !! k = Some r.
Proof.
  unfold where_eq. rewrite list_elem_of_omap. split.
  - intros ([k v] & Hin & Hv).
    apply (elem_of_lookup_imap_1 (fun i x => (i, x))) in Hin
      as (k' & v' & Heq & Hl). injection Heq as <- <-.
    destruct (Z.eqb_spec v r) as [->|]; [|done]. injection Hv as <-.
    by exists k.
  - intros (k & -> & Hl). exists (k, r). split.
    + by apply (elem_of_lookup_imap_2 (fun i x => (i, x))).
    + simpl. by rewrite Z.eqb_refl.
Qed.

Lemma length_where_eq (l : list Z) (r : Z) :
  length (where_eq l r) = length (filter (fun v => v = r) l).
Proof.
  induction l as [|x l IH] using rev_ind; [done|].
  rewrite where_eq_snoc, filter_app, !length_app, IH. f_equal.
  rewrite filter_cons, filter_nil.
  destruct (Z.eqb_spec x r); [by rewrite decide_True|by rewrite decide_False].
Qed.

Lemma NoDup_where_eq (l : list Z) (r : Z) : NoDup (where_eq l r).
Proof.
  induction l as [|x l IH] using rev_ind; [constructor|].
  rewrite where_eq_snoc. apply NoDup_app. split; [done|]. split.
  - intros i Hi Hi'. apply elem_of_where_eq in Hi as (k & -> & Hk).
    apply lookup_lt_Some in Hk.
    destruct (x =? r); [|by apply elem_of_nil in Hi'].
    apply list_elem_of_singleton in Hi'. lia.
  - destruct (x =? r); [apply NoDup_singleton|constructor].
Qed.

(** The positions with one label lie between the first and the last of
    them, so there are at most [hi + 1 - lo]. *)
Lemma where_eq_bounds (l : list Z) (r lo hi : Z) :
  zmin (where_eq l r) = Some lo -> zmax (where_eq l r) = Some hi ->
  lo ∈ where_eq l r /\ hi ∈ where_eq l r /\
  (forall i, i ∈ where_eq l r -> lo <= i <= hi) /\
  Z.of_nat (length (where_eq l r)) <= hi + 1 - lo.
Proof.
  intros Hlo Hhi.
  pose proof (zmin_elem_of_list _ _ Hlo) as Hlo_in.
  pose proof (zmax_elem_of _ _ Hhi) as Hhi_in.
  assert (forall i, i ∈ where_eq l r -> lo <= i <= hi) as Hb.
  { intros i Hi.
    destruct (zmin_spec (where_eq l r)) as (lo' & Hlo' & Hle);
      [by intros Hnil; rewrite Hnil in Hi; apply elem_of_nil in Hi|].
    destruct (zmax_spec (where_eq l r)) as (hi' & Hhi' & Hge);
      [by intros Hnil; rewrite Hnil in Hi; apply elem_of_nil in Hi|].
    simplify_eq. split; [by apply Hle|by apply Hge]. }
  split; [done|]. split; [done|]. split; [done|].
  assert (where_eq l r ⊆+ seqZ lo (hi + 1 - lo)) as Hsub.
  { apply NoDup_submseteq; [apply NoDup_where_eq|].
    intros i Hi. apply elem_of_seqZ. specialize (Hb i Hi). lia. }
  apply submseteq_length in Hsub. rewrite length_seqZ in Hsub.
  specialize (Hb lo Hlo_in). lia.
Qed.

Lemma getitem_insert_ne {A} (l : list A) (i j : Z) (x : A) :
  0 <= i -> 0 <= j -> i <> j ->
  getitem (<[Z.to_nat i := x]> l) j = getitem l j.
Proof.
  intros Hi Hj Hij. unfold getitem. rewrite length_insert.
  destruct (Z.leb_spec 0 j); [|lia].
  destruct (Z.ltb_spec j (Z.of_nat (length l))); simpl.
  - apply list_lookup_insert_ne. lia.
  - destruct (Z.ltb_spec j 0); [lia|]. by rewrite andb_false_r.
Qed.

(** The loop that fills [region_list] and [region_sizes]: the entries of
    the labels visited hold their slice and their size, the others are
    left as they were. *)
Lemma build_regions_fold (rt : list Z) (ids : list Z) :
  NoDup ids -> Forall (fun r => 0 <= r) ids ->
  forall acc acc',
  foldl (fun acc r => acc ← acc; build_regions rt acc r) (Some acc) ids =
    Some acc' ->
  (forall r, r ∈ ids ->
     exists lo hi,
       zmin (where_eq rt r) = Some lo /\ zmax (where_eq rt r) = Some hi /\
       getitem acc'.1 r = Some (Some (Slice lo (hi + 1))) /\
       getitem acc'.2 r = Some (Z.of_nat (length (where_eq rt r)))) /\
  (forall r, 0 <= r -> r ∉ ids ->
     getitem acc'.1 r = getitem acc.1 r /\
     getitem acc'.2 r = getitem acc.2 r).
Proof.
  intros Hnd Hpos. induction ids as [|r0 ids IH]; intros acc acc' Hf.
  - simpl in Hf. injection Hf as <-. split; [|done].
    intros r Hr. by apply elem_of_nil in Hr.
  - simpl in Hf. apply NoDup_cons in Hnd as [Hr0 Hnd].
    apply Forall_cons in Hpos as [Hr0pos Hpos].
    destruct (build_regions rt acc r0) as [acc1|] eqn:Hb;
      [|by rewrite foldl_bind_None in Hf].
    destruct (IH Hnd Hpos acc1 acc' Hf) as [Hin Hout].
    unfold build_regions in Hb.
    destruct (zmin _) as [lo|] eqn:Hlo; [|done]. simpl in Hb.
    destruct (zmax _) as [hi|] eqn:Hhi; [|done]. simpl in Hb.
    destruct (setitem acc.1 r0 _) as [rl|] eqn:Hrl; [|done]. simpl in Hb.
    destruct (setitem acc.2 r0 _) as [rs|] eqn:Hrs; [|done]. simpl in Hb.
    injection Hb as <-.
    apply setitem_nonneg_Some' in Hrl as [Hrl1 ->]; [|done].
    apply setitem_nonneg_Some' in Hrs as [Hrs1 ->]; [|done].
    split.
    + intros r [->|Hr]%elem_of_cons; [|by apply Hin].
      exists lo, hi. split; [done|]. split; [done|].
      destruct (Hout r0 Hr0pos Hr0) as [-> ->]. simpl.
      split; by apply getitem_setitem.
    + intros r Hr Hnotin. apply not_elem_of_cons in Hnotin as [Hne Hnotin].
      destruct (Hout r Hr Hnotin) as [-> ->]. simpl.
      split; by apply getitem_insert_ne.
Qed.

Lemma NoDup_unique (l : list Z) : NoDup (unique l).
Proof.
  unfold unique. rewrite merge_sort_Permutation. apply NoDup_remove_dups.
Qed.

(** X16: for every region id, [region_list] holds the slice from the first
    to the last position with that label, and [region_sizes] the number of
    positions with it: at most the length of the slice, and less when the
    label's positions are not contiguous. *)
Theorem load_data_regions (chrom : Z) (tpl reads : list Q)
    (regions : list Z) (d : data) (r : Z) :
  load_data chrom tpl reads regions = Some d ->
  r ∈ region_ids d ->
  exists lo hi,
    getitem (region_list d) r = Some (Some (Slice lo (hi + 1))) /\
    getitem (region_sizes d) r =
      Some (Z.of_nat (length (filter (fun v => v = r) (region_types d)))) /\
    0 <= lo <= hi /\
    region_types d !! Z.to_nat lo = Some r /\
    region_types d !! Z.to_nat hi = Some r /\
    (forall k : nat, region_types d !! k = Some r ->
       lo <= Z.of_nat k <= hi) /\
    Z.of_nat (length (filter (fun v => v = r) (region_types d)))
      <= hi + 1 - lo.
Proof.
  intros Hload Hr.
  destruct (load_data_shape _ _ _ _ _ Hload)
    as (top & _ & Hrange & _ & Hids & _ & _ & _ & acc & Hfold & -> & ->).
  rewrite Hids in Hr.
  destruct (build_regions_fold (region_types d) (unique (region_types d))
              (NoDup_unique _)) with (2 := Hfold) as [Hin _].
  { apply Forall_forall. intros v Hv. rewrite elem_of_unique in Hv.
    by apply Hrange. }
  destruct (Hin r Hr) as (lo & hi & Hlo & Hhi & Hrl & Hrs).
  destruct (where_eq_bounds _ _ _ _ Hlo Hhi) as (Hlo_in & Hhi_in & Hb & Hc).
  exists lo, hi. split; [done|].
  rewrite <- length_where_eq. split; [done|].
  apply elem_of_where_eq in Hlo_in as (klo & -> & Hklo).
  apply elem_of_where_eq in Hhi_in as (khi & -> & Hkhi).
  rewrite !Nat2Z.id.
  assert (forall k : nat, region_types d !! k = Some r ->
            Z.of_nat klo <= Z.of_nat k <= Z.of_nat khi) as Hb'.
  { intros k Hk. apply Hb. apply elem_of_where_eq. by exists k. }
  split; [specialize (Hb' klo Hklo); lia|].
  split; [done|]. split; [done|]. split; [exact Hb'|exact Hc].
Qed.

Lemma load_data_regions_witness :
  exists d lo hi,
    load_data 1 (qs [1; 2; 1]) (qs [3; 1; 4; 1; 5]) [7; 8; 7; 7; 8] = Some d /\
    getitem (region_list d) 1 = Some (Some (Slice lo (hi + 1))) /\
    getitem (region_sizes d) 1 = Some 2 /\
    2 <= hi + 1 - lo.
Proof.
  destruct (load_data 1 (qs [1; 2; 1]) (qs [3; 1; 4; 1; 5]) [7; 8; 7; 7; 8])
    as [d|] eqn:E; [|vm_compute in E; discriminate].
  destruct (load_data_regions 1 (qs [1; 2; 1]) (qs [3; 1; 4; 1; 5])
              [7; 8; 7; 7; 8] d 1 E)
    as (lo & hi & Hrl & Hrs & _ & _ & _ & _ & Hle).
  - vm_compute in E. injection E as <-. vm_compute. right. left.
  - exists d, lo, hi. split; [reflexivity|]. split; [exact Hrl|].
    vm_compute in E. injection E as <-. split; [exact Hrs|exact Hle].
Defined.

Lemma sum_indicator (ids : list Z) (a : Z) :
  NoDup ids -> a ∈ ids ->
  foldr Z.add 0 (map (fun r => if decide (a = r) then 1 else 0) ids) = 1.
Proof.
  induction 1 as [|r ids Hr Hnd IH]; intros Ha.
  - by apply elem_of_nil in Ha.
  - simpl. apply elem_of_cons in Ha as [->|Ha].
    + rewrite decide_True by done.
      assert (foldr Z.add 0
                (map (fun r0 => if decide (r = r0) then 1 else 0) ids) = 0)
        as ->; [|done].
      clear IH Hnd. induction ids as [|b ids IH]; [done|]. simpl.
      apply not_elem_of_cons in Hr as [Hne Hr].
      rewrite decide_False by done. by rewrite IH.
    + assert (a <> r) as Hne by (intros Heq; subst; contradiction).
      rewrite decide_False by done. specialize (IH Ha). lia.
Qed.

(** Every label of [l] is counted once, under its own value. *)
Lemma sum_counts (ids l : list Z) :
  NoDup ids -> (forall v, v ∈ l -> v ∈ ids) ->
  foldr Z.add 0
    (map (fun r => Z.of_nat (length (filter (fun v => v = r) l))) ids)
  = Z.of_nat (length l).
Proof.
  intros Hnd. induction l as [|a l IH]; intros Hin.
  - clear. induction ids as [|r ids IHi]; [done|]. simpl in *. lia.
  - assert (forall ids',
      foldr Z.add 0
        (map (fun r => Z.of_nat (length (filter (fun v => v = r) (a :: l))))
             ids') =
      foldr Z.add 0 (map (fun r => if decide (a = r) then 1 else 0) ids')
      + foldr Z.add 0
          (map (fun r => Z.of_nat (length (filter (fun v => v = r) l))) ids'))
      as ->.
    { induction ids' as [|r ids' IHi]; [done|]. simpl.
      rewrite IHi, filter_cons. destruct (decide (a = r)); simpl; lia. }
    rewrite sum_indicator by (done || apply Hin; by left).
    rewrite IH by (intros v Hv; apply Hin; by right). simpl. lia.
Qed.

(** X17: the sizes of the regions add up to the number of positions. *)
Theorem region_sizes_sum (chrom : Z) (tpl reads : list Q)
    (regions : list Z) (d : data) :
  load_data chrom tpl reads regions = Some d ->
  exists sizes,
    mapM (getitem (region_sizes d)) (region_ids d) = Some sizes /\
    foldr Z.add 0 sizes = chrom_length d.
Proof.
  intros Hload.
  destruct (load_data_shape _ _ _ _ _ Hload)
    as (top & _ & Hrange & _ & Hids & _ & _ & Hly & acc & Hfold & _ & Hrs).
  destruct (build_regions_fold (region_types d) (unique (region_types d))
              (NoDup_unique _)) with (2 := Hfold) as [Hin _].
  { apply Forall_forall. intros v Hv. rewrite elem_of_unique in Hv.
    by apply Hrange. }
  exists (map (fun r => Z.of_nat (length (filter (fun v => v = r)
                                                 (region_types d))))
              (region_ids d)).
  split.
  - apply mapM_Some, Forall2_fmap_r, Forall_Forall2_diag, Forall_forall.
    intros r Hr. rewrite Hids in Hr.
    destruct (Hin r Hr) as (lo & hi & _ & _ & _ & Hsz).
    by rewrite Hrs, Hsz, length_where_eq.
  - rewrite Hids, sum_counts.
    + unfold chrom_length. by rewrite Hly.
    + apply NoDup_unique.
    + intros v Hv. by apply elem_of_unique.
Qed.

Lemma foldl_bind_total {A B} (f : A -> B -> option A) (Inv : A -> Prop)
    (l : list B) :
  (forall a x, x ∈ l -> Inv a -> exists a', f a x = Some a' /\ Inv a') ->
  forall a, Inv a ->
  exists a', foldl (fun acc x => a ← acc; f a x) (Some a) l = Some a' /\
             Inv a'.
Proof.
  induction l as [|x l IH]; intros Hstep a Ha; [by exists a|].
  simpl. destruct (Hstep a x ltac:(by left) Ha) as (a1 & -> & Ha1).
  apply IH; [|done]. intros a' x' Hx'. apply Hstep. by right.
Qed.

Section InitializeProps.

Context `{Library}.
Variables (d : data) (cfg : config).

(** X18: when the tables of [data] have an entry for every region id,
    [initialize] without EM parameters returns; the vectors [mu] and
    [sigmasq] have one entry per region id, every entry of [sigmasq] is
    positive, and [theta] is [log(y + 1)] unless it is read from the EM
    output. *)
Theorem initialize_sigmasq_positive (em_coef : list Q)
    (em_params : list Q * list Q) (g : rng) :
  initialize_params_from_em cfg = false ->
  (0 < a0 cfg)%Q -> (0 < b0 cfg)%Q ->
  let n := length (region_ids d) in
  length (region_list d) = n -> length (region_sizes d) = n ->
  Forall (fun r => 0 <= r < Z.of_nat n) (region_ids d) ->
  Forall (fun s => 0 <= s) (region_sizes d) ->
  exists theta mu sigmasq g',
    initialize d cfg em_coef em_params g = Some (theta, mu, sigmasq, g') /\
    length mu = n /\ length sigmasq = n /\
    Forall (fun v => 0 < v)%Q sigmasq /\
    (initialize_theta_from_em cfg = false ->
     theta = map (fun v => ln (v + 1)%Q) (y d)).
Proof.
  intros Hem Ha Hb n Hrl Hrs Hids Hsizes. unfold initialize. rewrite Hem.
  fold n. set (theta := if initialize_theta_from_em cfg then _ else _).
  destruct (foldl_bind_total (init_region d cfg theta)
              (fun acc => length acc.1.1 = n /\ length acc.1.2 = n /\
                          Forall (fun v => 0 < v)%Q acc.1.2)
              (region_ids d))
    with (a := (replicate n 0%Q, replicate n 1%Q, g))
    as ([[mu sig] g'] & Hfold & Hlmu & Hlsig & Hpos).
  - intros [[mu sig] g0] r Hr (Hlmu & Hlsig & Hpos). simpl in *.
    rewrite Forall_forall in Hids. specialize (Hids r Hr).
    unfold init_region.
    destruct (lookup_lt_is_Some_2 (region_list d) (Z.to_nat r) ltac:(lia))
      as [region Hregion].
    destruct (lookup_lt_is_Some_2 (region_sizes d) (Z.to_nat r) ltac:(lia))
      as [sz Hsz].
    rewrite !getitem_inrange by lia. rewrite Hregion, Hsz. simpl.
    assert (0 <= sz) as Hsz0.
    { rewrite Forall_forall in Hsizes. apply Hsizes.
      by eapply list_elem_of_lookup_2. }
    assert (0 <= inject_Z sz)%Q as Hszq
      by (change 0%Q with (inject_Z 0); by rewrite <- Zle_Qle).
    destruct (rgamma _ _ g0) as [gam g1] eqn:Hgam.
    assert (0 < gam)%Q as Hgpos.
    { change gam with (gam, g1).1. rewrite <- Hgam. apply rgamma_pos.
      - unfold init_shape_sigmasq.
        assert (inject_Z sz / (2 # 10) == 5 * inject_Z sz)%Q as -> by field.
        lra.
      - assert (0 < init_rate_sigmasq cfg sz (region_values region theta))%Q
          as Hrate.
        { unfold init_rate_sigmasq. pose proof (var_nonneg
            (region_values region theta)) as Hv.
          assert (0 <= var (region_values region theta) * inject_Z sz / 2)%Q.
          { apply Qle_shift_div_l; [lra|]. rewrite Qmult_0_l.
            by apply Qmult_le_0_compat. }
          lra. }
        apply Qlt_shift_div_l; [done|]. lra. }
    rewrite setitem_inrange by lia. simpl.
    destruct (randn g1) as [zz g2].
    rewrite setitem_inrange by lia. simpl.
    eexists. split; [done|]. simpl. rewrite !length_insert.
    split; [done|]. split; [done|].
    apply Forall_insert; [done|].
    apply Qlt_shift_div_l; [done|]. lra.
  - simpl. rewrite !length_replicate. split; [done|]. split; [done|].
    apply Forall_replicate. lra.
  - rewrite Hfold. simpl. exists theta, mu, sig, g'.
    split; [done|]. split; [done|]. split; [done|]. split; [done|].
    intros Hth. unfold theta. by rewrite Hth.
Qed.

End InitializeProps.

Lemma initialize_sigmasq_positive_witness :
  exists theta mu sigmasq g',
    @initialize toy_library d20 cfg20 [] ([], []) 0%nat
      = Some (theta, mu, sigmasq, g') /\
    Forall (fun v => 0 < v)%Q sigmasq.
Proof.
  destruct (@initialize_sigmasq_positive toy_library d20 cfg20 [] ([], [])
              0%nat)
    as (theta & mu & sigmasq & g' & Hinit & _ & _ & Hpos & _).
  - reflexivity.
  - reflexivity.
  - reflexivity.
  - reflexivity.
  - reflexivity.
  - repeat constructor; discriminate.
  - repeat constructor; discriminate.
  - exists theta, mu, sigmasq, g'. split; [exact Hinit|exact Hpos].
Defined.

Lemma region_sizes_sum_witness :
  exists d sizes,
    load_data 1 (qs [1; 2; 1]) (qs [3; 1; 4; 1; 5]) [7; 8; 7; 7; 8] = Some d /\
    mapM (getitem (region_sizes d)) (region_ids d) = Some sizes /\
    foldr Z.add 0 sizes = 5.
Proof.
  destruct (load_data 1 (qs [1; 2; 1]) (qs [3; 1; 4; 1; 5]) [7; 8; 7; 7; 8])
    as [d|] eqn:E; [|vm_compute in E; discriminate].
  destruct (region_sizes_sum 1 (qs [1; 2; 1]) (qs [3; 1; 4; 1; 5])
              [7; 8; 7; 7; 8] d E) as (sizes & Hs & Hsum).
  exists d, sizes. split; [reflexivity|]. split; [exact Hs|].
  rewrite Hsum. vm_compute in E. injection E as <-. reflexivity.
Defined.

(** ** The shapes of the two draws of [sigmasq] *)

Section InitShape.

Context `{Library}.
Variables (d : data) (cfg : config).

(** The body of the loop of [initialize] for region [r]: the gamma variate
    is drawn with shape [region_sizes[r]/.2 + a0], and only entry [r] of
    [sigmasq] changes. *)
Lemma init_region_draw (theta mu sigmasq : list Q) (g : rng) (r n : Z)
    (region : option pyslice) :
  getitem (region_list d) r = Some region ->
  getitem (region_sizes d) r = Some n ->
  0 <= r < Z.of_nat (length sigmasq) -> 0 <= r < Z.of_nat (length mu) ->
  exists mu' sigmasq' g',
    init_region d cfg theta (mu, sigmasq, g) r = Some (mu', sigmasq', g') /\
    length mu' = length mu /\ length sigmasq' = length sigmasq /\
    getitem sigmasq' r =
      Some (1 / (rgamma (init_shape_sigmasq cfg n)
                   (1 / init_rate_sigmasq cfg n (region_values region theta))
                   g).1)%Q /\
    (forall j, 0 <= j -> j <> r -> getitem sigmasq' j = getitem sigmasq j).
Proof.
  intros Hreg Hn Hr1 Hr2. unfold init_region. rewrite Hreg, Hn. simpl.
  destruct (rgamma _ _ g) as [gam g1]. simpl.
  rewrite setitem_inrange by done. simpl.
  destruct (randn g1) as [z g2]. rewrite setitem_inrange by done. simpl.
  eexists _, _, _. split; [done|]. rewrite !length_insert.
  split; [done|]. split; [done|].
  split; [by apply getitem_setitem|].
  intros j Hj Hne. apply getitem_insert_ne; lia.
Qed.

(** The loop of [initialize] over distinct region ids: every region's
    [sigmasq] is the draw of its own pass. *)
Lemma init_fold_draws (theta : list Q) (ids : list Z) :
  forall (mu sigmasq : list Q) (g : rng),
  NoDup ids ->
  Forall (fun r => 0 <= r < Z.of_nat (length sigmasq) /\
                   r < Z.of_nat (length mu) /\
                   r < Z.of_nat (length (region_list d)) /\
                   r < Z.of_nat (length (region_sizes d))) ids ->
  exists mu' sigmasq' g',
    foldl (fun acc r => acc ← acc; init_region d cfg theta acc r)
          (Some (mu, sigmasq, g)) ids = Some (mu', sigmasq', g') /\
    (forall r, r ∈ ids ->
       exists region n g_r,
         getitem (region_list d) r = Some region /\
         getitem (region_sizes d) r = Some n /\
         getitem sigmasq' r =
           Some (1 / (rgamma (init_shape_sigmasq cfg n)
                        (1 / init_rate_sigmasq cfg n
                               (region_values region theta)) g_r).1)%Q) /\
    (forall j, 0 <= j -> j ∉ ids -> getitem sigmasq' j = getitem sigmasq j).
Proof.
  induction ids as [|r ids IH]; intros mu sigmasq g Hnd Hids.
  - exists mu, sigmasq, g. split; [done|]. split; [|done].
    intros r Hr. by apply elem_of_nil in Hr.
  - apply NoDup_cons in Hnd as [Hr Hnd].
    apply Forall_cons in Hids as [(Hr1 & Hr2 & Hr3 & Hr4) Hids].
    destruct (lookup_lt_is_Some_2 (region_list d) (Z.to_nat r) ltac:(lia))
      as [region Hregion].
    destruct (lookup_lt_is_Some_2 (region_sizes d) (Z.to_nat r) ltac:(lia))
      as [n Hn].
    rewrite <- getitem_inrange in Hregion by lia.
    rewrite <- getitem_inrange in Hn by lia.
    destruct (init_region_draw theta mu sigmasq g r n region Hregion Hn)
      as (mu1 & sig1 & g1 & Hstep & Hl1 & Hl2 & Hdraw & Hframe);
      [lia..|].
    destruct (IH mu1 sig1 g1 Hnd) as (mu' & sig' & g' & Hfold & Hin & Hout).
    { rewrite Hl1, Hl2. done. }
    exists mu', sig', g'. split.
    { remember (init_region d cfg theta) as F eqn:HF. simpl.
      by rewrite Hstep. }
    split.
    + intros r' [->|Hr']%elem_of_cons.
      * exists region, n, g. split; [done|]. split; [done|].
        rewrite Hout by (done || lia). done.
      * by apply Hin.
    + intros j Hj Hnin. apply not_elem_of_cons in Hnin as [Hne Hnin].
      rewrite Hout by done. by apply Hframe.
Qed.

(** C10: without EM parameters, [initialize] returns [sigmasq[r]] as one
    over a gamma variate drawn with shape [region_sizes[r]/.2 + a0], which
    is [5 region_sizes[r] + a0]; the update of [master] draws
    [sigmasq[t,r]] from a gamma variate of shape [region_sizes[r]/2 + a0];
    for a region that is not empty the two shapes differ. *)
Theorem init_shape_differs (em_coef : list Q) (em_params : list Q * list Q)
    (g : rng) (r : Z) (t : nat) (pmean : list Q) (s : mstate) (pm : Q)
    (row sig_row mu_row : list Q) :
  initialize_params_from_em cfg = false ->
  let k := length (region_ids d) in
  length (region_list d) = k -> length (region_sizes d) = k ->
  Forall (fun r => 0 <= r < Z.of_nat k) (region_ids d) ->
  NoDup (region_ids d) -> r ∈ region_ids d ->
  getitem pmean r = Some pm ->
  m_theta s !! t = Some row ->
  m_sigmasq s !! t = Some sig_row -> m_mu s !! t = Some mu_row ->
  0 <= r < Z.of_nat (length sig_row) -> 0 <= r < Z.of_nat (length mu_row) ->
  exists region n,
    getitem (region_list d) r = Some region /\
    getitem (region_sizes d) r = Some n /\
    (exists theta mu sigmasq g' g_r,
       initialize d cfg em_coef em_params g = Some (theta, mu, sigmasq, g') /\
       getitem sigmasq r =
         Some (1 / (rgamma (init_shape_sigmasq cfg n)
                      (1 / init_rate_sigmasq cfg n
                             (region_values region theta)) g_r).1)%Q) /\
    (exists s' sig_row',
       gibbs_region d cfg t pmean s r = Some s' /\
       m_sigmasq s' !! t = Some sig_row' /\
       getitem sig_row' r =
         Some (rate_sigmasq cfg n (region_values region row) pm
               / (rgamma (shape_sigmasq cfg n) 1 (m_rng s)).1)%Q) /\
    (init_shape_sigmasq cfg n == 5 * inject_Z n + a0 cfg)%Q /\
    (shape_sigmasq cfg n == inject_Z n / 2 + a0 cfg)%Q /\
    (0 < n -> ~ (init_shape_sigmasq cfg n == shape_sigmasq cfg n)%Q).
Proof.
  intros Hem k Hrl Hrs Hids Hnd Hr Hpm Hrow Hsig Hmu Hr1 Hr2.
  set (theta := if initialize_theta_from_em cfg then map ln em_coef
                else map (fun v => ln (v + 1)%Q) (y d)).
  destruct (init_fold_draws theta (region_ids d) (replicate k 0%Q)
              (replicate k 1%Q) g Hnd)
    as (mu & sigmasq & g' & Hfold & Hin & _).
  { rewrite !length_replicate, Hrl, Hrs. eapply Forall_impl; [exact Hids|].
    simpl. intros r' Hr'. lia. }
  destruct (Hin r Hr) as (region & n & g_r & Hregion & Hn & Hdraw).
  exists region, n. split; [done|]. split; [done|]. split.
  { exists theta, mu, sigmasq, g', g_r. split; [|done].
    unfold initialize. rewrite Hem. fold k. fold theta. by rewrite Hfold. }
  split.
  { unfold gibbs_region. rewrite Hregion, Hn, Hpm, Hrow. simpl.
    destruct (rgamma (shape_sigmasq cfg n) 1 (m_rng s)) as [gam g1]. simpl.
    rewrite Hsig. simpl. rewrite setitem_inrange by done. simpl.
    destruct (randn g1) as [z g2]. rewrite Hmu. simpl.
    rewrite setitem_inrange by done. simpl.
    eexists _, _. split; [done|]. simpl.
    split; [apply list_lookup_insert_eq; by eapply lookup_lt_Some|].
    by apply getitem_setitem. }
  destruct (init_shape_neq cfg n) as [Heq Hne].
  split; [done|]. split; [reflexivity|done].
Qed.

End InitShape.

Lemma init_shape_differs_witness :
  exists theta mu sigmasq g',
    @initialize toy_library d20 cfg20 [] ([], []) 0%nat
      = Some (theta, mu, sigmasq, g') /\
    ~ (init_shape_sigmasq cfg20 20 == shape_sigmasq cfg20 20)%Q.
Proof.
  edestruct (@init_shape_differs toy_library d20 cfg20 [] ([], []) 0%nat 0
               1%nat [(-11 # 20)%Q]
               (@MState toy_library [theta20; theta20] [[0%Q]; [0%Q]]
                  [[1%Q]; [0%Q]] [0] [] [0; 10; 5; 15] 0%nat [node20]
                  0%nat 0%nat []))
    as (region & n & Hreg & Hn & (theta & mu & sigmasq & g' & g_r & Hinit & _)
        & _ & _ & _ & Hne).
  - reflexivity.
  - reflexivity.
  - reflexivity.
  - constructor; [simpl; lia|constructor].
  - constructor; [|constructor]. intros Hin. inversion Hin.
  - by left.
  - reflexivity.
  - reflexivity.
  - reflexivity.
  - reflexivity.
  - simpl. lia.
  - simpl. lia.
  - injection Hn as <-. exists theta, mu, sigmasq, g'.
    split; [exact Hinit|]. apply Hne. lia.
Defined.

(** ** [load_data] on vectors of different lengths *)




(** ** [condense_detections] *)

Lemma Qltb_true (a b : Q) : Qltb a b = true <-> (a < b)%Q.
Proof.
  unfold Qltb. rewrite negb_true_iff, <- not_true_iff_false, Qle_bool_iff.
  split; [apply Qnot_le_lt|apply Qlt_not_le].
Qed.

Lemma Qltb_false (a b : Q) : Qltb a b = false <-> (b <= a)%Q.
Proof.
  unfold Qltb. by rewrite negb_false_iff, Qle_bool_iff.
Qed.

Lemma diff_zip (x : list Q) : diff x = zip_with Qminus (drop 1 x) x.
Proof.
  unfold diff, vsub. unfold from. rewrite getslice_nonneg by lia.
  unfold getslice, upto, slice_len, slice_lo, clip.
  simpl sl_start. simpl sl_stop.
  change (-1 <? 0) with true. change (0 <? 0) with false. cbv iota.
  rewrite Z.min_l by lia. change (Z.to_nat 0) with 0%nat.
  change (Z.to_nat 1) with 1%nat. rewrite drop_0.
  replace (Z.to_nat (Z.of_nat (length x) - 1)) with (length x - 1)%nat by lia.
  replace (Z.to_nat ((-1 + Z.of_nat (length x)) `max` 0 - 0))
    with (length x - 1)%nat by lia.
  apply list_eq. intros i. rewrite !lookup_zip_with.
  destruct (decide (i < length x - 1)%nat) as [Hi|Hi].
  - by rewrite !lookup_take_lt by done.
  - rewrite (lookup_ge_None_2 (take _ (drop 1 x)))
      by (rewrite length_take, length_drop; lia).
    rewrite (lookup_ge_None_2 (drop 1 x)) by (rewrite length_drop; lia).
    done.
Qed.

Lemma diff_lookup (x : list Q) (i : nat) (d : Q) :
  diff x !! i = Some d <->
  exists a b, x !! i = Some a /\ x !! S i = Some b /\ d = (b - a)%Q.
Proof.
  rewrite diff_zip, lookup_zip_with_Some, lookup_drop.
  change (1 + i)%nat with (S i). split.
  - intros (b & a & -> & Hb & Ha). by exists a, b.
  - intros (a & b & Ha & Hb & ->). by exists b, a.
Qed.

Lemma length_diff (x : list Q) : length (diff x) = (length x - 1)%nat.
Proof. rewrite diff_zip, length_zip_with, length_drop. lia. Qed.

(** [np.min(np.where(l)[0])] is the first position flagged in [l]. *)
Lemma zmin_where_first (l : list Z) :
  (exists v, v ∈ l /\ v <> 0) ->
  exists (i : nat) v, zmin (where_nz l) = Some (Z.of_nat i) /\
    l !! i = Some v /\ v <> 0 /\
    forall (j : nat) w, (j < i)%nat -> l !! j = Some w -> w = 0.
Proof.
  intros (v & [k Hk]%list_elem_of_lookup & Hv).
  assert (Z.of_nat k ∈ where_nz l) as Hin
    by (apply elem_of_where_nz; by exists k, v).
  destruct (zmin_spec (where_nz l)) as (m & Hm & Hle).
  { intros E. rewrite E in Hin. by apply elem_of_nil in Hin. }
  pose proof (zmin_elem_of _ _ Hm) as Hmin.
  apply elem_of_where_nz in Hmin as (i & u & -> & Hi & Hu).
  exists i, u. repeat split; [done..|].
  intros j w Hj Hw. destruct (decide (w = 0)) as [|Hne]; [done|].
  assert (Z.of_nat j ∈ where_nz l) as Hjin
    by (apply elem_of_where_nz; by exists j, w).
  apply Hle in Hjin. lia.
Qed.

(** [np.min(np.r_[np.where(l)[0], len(l)])]: the first position flagged,
    or the length when there is none. *)
Lemma zmin_where_last (l : list Z) :
  exists (j : nat),
    zmin (where_nz l ++ [Z.of_nat (length l)]) = Some (Z.of_nat j) /\
    (j <= length l)%nat /\
    (forall (i : nat) w, (i < j)%nat -> l !! i = Some w -> w = 0) /\
    ((j < length l)%nat -> exists v, l !! j = Some v /\ v <> 0).
Proof.
  destruct (zmin_spec (where_nz l ++ [Z.of_nat (length l)]))
    as (m & Hm & Hle).
  { by destruct (where_nz l). }
  pose proof (zmin_elem_of _ _ Hm) as Hmin.
  assert (forall (i : nat) w, l !! i = Some w -> w <> 0 -> m <= Z.of_nat i)
    as Hfirst.
  { intros i w Hi Hw. apply Hle, elem_of_app. left.
    apply elem_of_where_nz. by exists i, w. }
  apply elem_of_app in Hmin as [Hmin|Hmin].
  - apply elem_of_where_nz in Hmin as (j & v & -> & Hj & Hv).
    exists j. apply lookup_lt_Some in Hj as Hlt.
    repeat split; [done|lia| |by exists v].
    intros i w Hi Hw. destruct (decide (w = 0)) as [|Hne]; [done|].
    pose proof (Hfirst i w Hw Hne). lia.
  - apply list_elem_of_singleton in Hmin as ->.
    exists (length l). repeat split; [done|lia| |lia].
    intros i w Hi Hw. destruct (decide (w = 0)) as [|Hne]; [done|].
    pose proof (Hfirst i w Hw Hne). lia.
Qed.

Lemma qsum_Forall2 (l k : list Q) :
  Forall2 Qeq l k -> (qsum l == qsum k)%Q.
Proof.
  induction 1 as [|a b l k Hab _ IH]; simpl; [reflexivity|].
  by rewrite Hab, IH.
Qed.

Lemma qsum_app (l k : list Q) : (qsum (l ++ k) == qsum l + qsum k)%Q.
Proof.
  induction l as [|a l IH]; simpl; [ring|]. rewrite IH. ring.
Qed.

Lemma qsum_ge (lo : Q) (l : list Q) :
  (forall v, v ∈ l -> (lo <= v)%Q) -> (lo * qlen l <= qsum l)%Q.
Proof.
  induction l as [|a l IH]; intros Hl.
  - change (lo * 0 <= 0)%Q. lra.
  - assert (qlen (a :: l) == qlen l + 1)%Q as Hq.
    { unfold qlen. simpl length. rewrite Nat2Z.inj_succ, <- Z.add_1_r.
      by rewrite inject_Z_plus. }
    rewrite Hq. simpl. pose proof (Hl a ltac:(left)) as Ha.
    assert (lo * qlen l <= qsum l)%Q as IH'
      by (apply IH; intros v Hv; apply Hl; by right).
    lra.
Qed.

Lemma qsum_le (hi : Q) (l : list Q) :
  (forall v, v ∈ l -> (v <= hi)%Q) -> (qsum l <= hi * qlen l)%Q.
Proof.
  induction l as [|a l IH]; intros Hl.
  - change (0 <= hi * 0)%Q. lra.
  - assert (qlen (a :: l) == qlen l + 1)%Q as Hq.
    { unfold qlen. simpl length. rewrite Nat2Z.inj_succ, <- Z.add_1_r.
      by rewrite inject_Z_plus. }
    rewrite Hq. simpl. pose proof (Hl a ltac:(left)) as Ha.
    assert (qsum l <= hi * qlen l)%Q as IH'
      by (apply IH; intros v Hv; apply Hl; by right).
    lra.
Qed.

Lemma mean_ge (lo : Q) (l : list Q) :
  l <> [] -> (forall v, v ∈ l -> (lo <= v)%Q) -> (lo <= mean l)%Q.
Proof.
  intros Hne Hl. unfold mean. apply Qle_shift_div_l; [by apply qlen_pos|].
  by apply qsum_ge.
Qed.

Lemma mean_le (hi : Q) (l : list Q) :
  l <> [] -> (forall v, v ∈ l -> (v <= hi)%Q) -> (mean l <= hi)%Q.
Proof.
  intros Hne Hl. unfold mean. apply Qle_shift_div_r; [by apply qlen_pos|].
  by apply qsum_le.
Qed.

Lemma mean_singleton (v : Q) : (mean [v] == v)%Q.
Proof. unfold mean, qlen. simpl. field. Qed.

Lemma inject_Z_le2 (a b : Z) : a + 2 <= b -> (inject_Z a + 2 <= inject_Z b)%Q.
Proof.
  intros H. change 2%Q with (inject_Z 2). rewrite <- inject_Z_plus.
  by rewrite <- Zle_Qle.
Qed.

(** The centres of two groups that are apart are at least two apart. *)
Lemma centres_apart (g h : list Z) (c e : Q) :
  g <> [] -> h <> [] -> centre_of g c -> centre_of h e ->
  (forall a b, a ∈ g -> b ∈ h -> a + 2 <= b) ->
  (c + 2 <= e)%Q.
Proof.
  unfold centre_of. intros Hg Hh -> -> Hgap.
  apply (mean_ge (mean (map inject_Z g) + 2)).
  { by destruct h. }
  intros v [b [-> Hb]]%list_elem_of_fmap.
  assert (mean (map inject_Z g) <= inject_Z b - 2)%Q; [|lra].
  apply mean_le. { by destruct g. }
  intros u [a [-> Ha]]%list_elem_of_fmap.
  pose proof (inject_Z_le2 a b (Hgap a b Ha Hb)). lra.
Qed.

Lemma separated_snoc (gs : list (list Z)) (g : list Z) :
  separated gs ->
  (forall h a b, last gs = Some h -> a ∈ h -> b ∈ g -> a + 2 <= b) ->
  separated (gs ++ [g]).
Proof.
  intros Hsep Hlast i g1 h1 a b Hi Hsi Ha Hb.
  destruct (decide (S i < length gs)%nat) as [Hlt|Hge].
  - rewrite lookup_app_l in Hi by lia. rewrite lookup_app_l in Hsi by lia.
    by apply (Hsep i g1 h1).
  - apply lookup_lt_Some in Hsi as Hlen. rewrite length_app in Hlen.
    simpl in Hlen. assert (S i = length gs) as Hi' by lia.
    rewrite lookup_app_l in Hi by lia.
    rewrite lookup_app_r in Hsi by lia.
    replace (S i - length gs)%nat with 0%nat in Hsi by lia.
    injection Hsi as <-. apply (Hlast g1); [|done..].
    rewrite last_lookup. by replace (pred (length gs)) with i by lia.
Qed.

Lemma adjacent_run_singleton (r : Z) : adjacent_run [r].
Proof.
  split; [done|]. intros i a b _ Hb. by destruct i.
Qed.

Lemma condense_inv_shift1 gs r rest x n :
  condense_inv gs (r :: rest) x n ->
  (forall b, b ∈ rest -> r + 2 <= b) ->
  condense_inv (gs ++ [[r]]) rest x n.
Proof.
  intros (Hx & Hn & Hruns & Hsep & Hfront & Hsorted) Hr.
  repeat split.
  - by rewrite <- app_assoc.
  - by rewrite <- app_assoc.
  - apply Forall_app. split; [done|].
    constructor; [apply adjacent_run_singleton|constructor].
  - apply separated_snoc; [done|].
    intros h a b Hh Ha ->%list_elem_of_singleton.
    apply (Hfront h); [done..|by left].
  - intros g a b Hg Ha Hb. rewrite last_snoc in Hg. injection Hg as <-.
    apply list_elem_of_singleton in Ha as ->. by apply Hr.
  - by apply StronglySorted_inv in Hsorted as [? _].
Qed.

Lemma condense_inv_shift pre : forall gs rest x n,
  condense_inv gs (pre ++ rest) x n ->
  (forall (i : nat) a b, (i < length pre)%nat ->
     (pre ++ rest) !! i = Some a -> (pre ++ rest) !! S i = Some b ->
     a + 2 <= b) ->
  condense_inv (gs ++ map (fun r => [r]) pre) rest x n.
Proof.
  induction pre as [|r pre IH]; intros gs rest x n Hinv Hgap.
  - simpl. by rewrite app_nil_r.
  - simpl in Hinv.
    assert (forall b, b ∈ pre ++ rest -> r + 2 <= b) as Hr.
    { intros b Hb.
      destruct Hinv as (_ & _ & _ & _ & _ & Hsorted).
      apply StronglySorted_inv in Hsorted as [Hs _].
      destruct (pre ++ rest) as [|b0 l] eqn:E; [by apply elem_of_nil in Hb|].
      assert (r + 2 <= b0) as H0.
      { apply (Hgap 0%nat r b0); simpl; [lia|done|by rewrite E]. }
      apply elem_of_cons in Hb as [->|Hb]; [done|].
      apply StronglySorted_inv in Hs as [_ Hall].
      rewrite Forall_forall in Hall. specialize (Hall b Hb). lia. }
    apply condense_inv_shift1 in Hinv; [|done].
    apply IH in Hinv.
    + simpl. by rewrite <- app_assoc in Hinv.
    + intros i a b Hi Ha Hb. apply (Hgap (S i)); simpl in *; [lia|done..].
Qed.

Lemma centre_of_single (r : Z) (c : Q) :
  centre_of [r] c <-> (c == inject_Z r)%Q.
Proof. unfold centre_of. simpl. by rewrite mean_singleton. Qed.

Lemma count_of_single (r : Z) (k : Q) : count_of [r] k <-> (k == 1)%Q.
Proof. done. Qed.

(** Under the invariant, the entries of [x] behind the groups are the
    remaining positions. *)
Lemma condense_inv_rest gs rest x n (k : nat) (c : Q) :
  condense_inv gs rest x n ->
  x !! (length gs + k)%nat = Some c ->
  exists r, rest !! k = Some r /\ (c == inject_Z r)%Q.
Proof.
  intros (Hx & _) Hc.
  destruct (Forall2_lookup_r _ _ _ _ _ Hx Hc) as (g & Hg & Hgc).
  rewrite lookup_app_r in Hg by lia.
  replace (length gs + k - length gs)%nat with k in Hg by lia.
  rewrite list_lookup_fmap in Hg.
  destruct (rest !! k) as [r|]; [|done]. injection Hg as <-.
  exists r. split; [done|]. by apply centre_of_single.
Qed.

(** Under the invariant, the centres of the groups and the first of the
    remaining positions are at least two apart. *)
Lemma condense_inv_settled gs rest x n (i : nat) (a b : Q) :
  condense_inv gs rest x n -> (i < length gs)%nat ->
  x !! i = Some a -> x !! S i = Some b -> (a + 2 <= b)%Q.
Proof.
  intros (Hx & _ & Hruns & Hsep & Hfront & _) Hi Ha Hb.
  destruct (Forall2_lookup_r _ _ _ _ _ Hx Ha) as (g & Hg & Hga).
  destruct (Forall2_lookup_r _ _ _ _ _ Hx Hb) as (h & Hh & Hhb).
  rewrite lookup_app_l in Hg by done.
  rewrite Forall_forall in Hruns.
  pose proof (Hruns g (list_elem_of_lookup_2 _ _ _ Hg)) as [Hgne _].
  destruct (decide (S i < length gs)%nat) as [Hlt|Hge].
  - rewrite lookup_app_l in Hh by done.
    pose proof (Hruns h (list_elem_of_lookup_2 _ _ _ Hh)) as [Hhne _].
    apply (centres_apart g h); [done..|].
    intros u v. by apply (Hsep i).
  - rewrite lookup_app_r in Hh by lia.
    replace (S i - length gs)%nat with 0%nat in Hh by lia.
    rewrite list_lookup_fmap in Hh.
    destruct (rest !! 0%nat) as [r|] eqn:Hr; [|done]. injection Hh as <-.
    apply (centres_apart g [r]); [done..|].
    intros u v Hu ->%list_elem_of_singleton.
    apply (Hfront g); [|done|by eapply list_elem_of_lookup_2].
    rewrite last_lookup. by replace (pred (length gs)) with i by lia.
Qed.

Lemma getslice_app_upto {A} (a b : list A) :
  getslice (upto (Z.of_nat (length a))) (a ++ b) = a.
Proof.
  rewrite getslice_upto by lia. rewrite Nat2Z.id. by rewrite take_app_length.
Qed.

Lemma getslice_app_mid {A} (a b c : list A) :
  getslice (Slice (Z.of_nat (length a)) (Z.of_nat (length a + length b)))
           (a ++ b ++ c) = b.
Proof.
  rewrite getslice_nonneg by lia. rewrite Nat2Z.id, drop_app_length.
  replace (Z.to_nat (Z.of_nat (length a + length b) - Z.of_nat (length a)))
    with (length b) by lia.
  by rewrite take_app_length.
Qed.

Lemma getslice_app_from {A} (a b l : list A) :
  l = a ++ b -> getslice (from (Z.of_nat (length a)) l) l = b.
Proof.
  intros ->. unfold from. rewrite getslice_nonneg by lia.
  rewrite Nat2Z.id, drop_app_length. apply take_ge.
  rewrite length_app. lia.
Qed.

Lemma singles_lookup (rest : list Z) (xt : list Q) (i : nat) (c : Q) :
  Forall2 centre_of (map (fun r => [r]) rest) xt -> xt !! i = Some c ->
  exists r, rest !! i = Some r /\ (c == inject_Z r)%Q.
Proof.
  intros Hx Hc.
  destruct (Forall2_lookup_r _ _ _ _ _ Hx Hc) as (g & Hg & Hgc).
  rewrite list_lookup_fmap in Hg.
  destruct (rest !! i) as [r|]; [|done]. injection Hg as <-.
  exists r. split; [done|]. by apply centre_of_single.
Qed.

(** The comparisons of [np.diff(x)] on entries that are integers. *)
Lemma diff_flags (rest : list Z) (xt : list Q) (f : Q -> bool)
    (fz : Z -> bool) (i : nat) (v : Z) :
  (forall a b ca cb, (ca == inject_Z a)%Q -> (cb == inject_Z b)%Q ->
     f (cb - ca)%Q = fz (b - a)) ->
  Forall2 centre_of (map (fun r => [r]) rest) xt ->
  map (fun d => b2z (f d)) (diff xt) !! i = Some v ->
  exists a b, rest !! i = Some a /\ rest !! S i = Some b /\
    v = b2z (fz (b - a)).
Proof.
  intros Hf Hx Hv. rewrite list_lookup_fmap in Hv.
  destruct (diff xt !! i) as [d|] eqn:Hd; [|done]. injection Hv as <-.
  apply diff_lookup in Hd as (ca & cb & Ha & Hb & ->).
  destruct (singles_lookup _ _ _ _ Hx Ha) as (a & Hra & Hca).
  destruct (singles_lookup _ _ _ _ Hx Hb) as (b & Hrb & Hcb).
  exists a, b. repeat split; [done..|]. by rewrite (Hf a b).
Qed.

Lemma flag_lt2 (a b : Z) (ca cb : Q) :
  (ca == inject_Z a)%Q -> (cb == inject_Z b)%Q ->
  Qltb (cb - ca) 2 = (b - a <? 2).
Proof.
  intros Ha Hb. destruct (Z.ltb_spec (b - a) 2) as [H|H].
  - apply Qltb_true. rewrite Ha, Hb.
    assert (inject_Z b <= inject_Z (a + 1))%Q as Hle
      by (rewrite <- Zle_Qle; lia).
    rewrite inject_Z_plus in Hle. change (inject_Z 1) with 1%Q in Hle. lra.
  - apply Qltb_false. rewrite Ha, Hb.
    pose proof (inject_Z_le2 a b ltac:(lia)). lra.
Qed.

Lemma flag_gt1 (a b : Z) (ca cb : Q) :
  (ca == inject_Z a)%Q -> (cb == inject_Z b)%Q ->
  Qltb 1 (cb - ca) = (1 <? b - a).
Proof.
  intros Ha Hb. destruct (Z.ltb_spec 1 (b - a)) as [H|H].
  - apply Qltb_true. rewrite Ha, Hb.
    pose proof (inject_Z_le2 a b ltac:(lia)). lra.
  - apply Qltb_false. rewrite Ha, Hb.
    assert (inject_Z b <= inject_Z (a + 1))%Q
      by (rewrite <- Zle_Qle; lia).
    rewrite inject_Z_plus in *. change (inject_Z 1) with 1%Q in *. lra.
Qed.

(** [x *= n] followed by [x /= n] gives back the centres. *)
Lemma centres_rescaled (G : list (list Z)) : forall (xs ns : list Q),
  Forall (fun g => g <> []) G ->
  Forall2 centre_of G xs -> Forall2 count_of G ns ->
  Forall2 centre_of G (vdiv (vmul xs ns) ns).
Proof.
  induction G as [|g G IH]; intros xs ns Hne Hx Hn.
  - apply Forall2_nil_inv_l in Hx as ->. constructor.
  - apply Forall2_cons_inv_l in Hx as (c & xs' & Hc & Hx & ->).
    apply Forall2_cons_inv_l in Hn as (k & ns' & Hk & Hn & ->).
    apply Forall_cons in Hne as [Hg Hne].
    simpl. constructor; [|by apply IH].
    unfold centre_of, count_of in *. rewrite <- Hc.
    pose proof (qlen_pos g Hg). field. rewrite Hk. lra.
Qed.

(** The sum of [x*n] and of [n] over positions that are one group each. *)
Lemma singles_sums (run : list Z) : forall (xr nr : list Q),
  Forall2 centre_of (map (fun r => [r]) run) xr ->
  Forall2 count_of (map (fun r => [r]) run) nr ->
  (qsum (vmul xr nr) == qsum (map inject_Z run))%Q /\
  (qsum nr == qlen run)%Q.
Proof.
  induction run as [|r run IH]; intros xr nr Hx Hn.
  - apply Forall2_nil_inv_l in Hx as ->.
    apply Forall2_nil_inv_l in Hn as ->. by split.
  - change (map (fun r => [r]) (r :: run))
      with ([r] :: map (fun r => [r]) run) in Hx, Hn.
    apply Forall2_cons_inv_l in Hx as (c & xs' & Hc & Hx & ->).
    apply Forall2_cons_inv_l in Hn as (k & ns' & Hk & Hn & ->).
    destruct (IH _ _ Hx Hn) as [IH1 IH2].
    apply (proj1 (centre_of_single r c)) in Hc.
    apply (proj1 (count_of_single r k)) in Hk.
    change (qsum (vmul (c :: xs') (k :: ns')))
      with (c * k + qsum (vmul xs' ns'))%Q.
    change (qsum (map inject_Z (r :: run)))
      with (inject_Z r + qsum (map inject_Z run))%Q.
    change (qsum (k :: ns')) with (k + qsum ns')%Q.
    rewrite IH1, IH2, Hc, Hk. split; [ring|].
    unfold qlen. simpl length. rewrite Nat2Z.inj_succ, <- Z.add_1_r.
    rewrite inject_Z_plus. change (inject_Z 1) with 1%Q. ring.
Qed.

Lemma condense_pieces {A} (a b c : list A) (first last : Z) :
  first = Z.of_nat (length a) -> last = Z.of_nat (length a + length b) ->
  getslice (upto first) (a ++ b ++ c) = a /\
  getslice (Slice first last) (a ++ b ++ c) = b /\
  getslice (from last (a ++ b ++ c)) (a ++ b ++ c) = c.
Proof.
  intros -> ->. repeat split.
  - apply getslice_app_upto.
  - apply getslice_app_mid.
  - rewrite <- length_app. apply getslice_app_from. by rewrite app_assoc.
Qed.

Lemma sorted_lookup_le (l : list Z) (i j : nat) (a b : Z) :
  StronglySorted Z.le l -> (i <= j)%nat ->
  l !! i = Some a -> l !! j = Some b -> a <= b.
Proof.
  intros Hs Hij Ha Hb. destruct (decide (i = j)) as [->|Hne].
  - rewrite Ha in Hb. injection Hb as ->. lia.
  - apply (StronglySorted_lookup_lt Z.le l i j); [done|lia|done..].
Qed.

Lemma singles_nonempty (l : list Z) :
  Forall (fun g : list Z => g <> []) (map (fun r => [r]) l).
Proof. apply Forall_fmap, Forall_forall. by intros r _. Qed.

(** One pass of the loop when the first close pair starts right behind
    the condensed groups: the run of adjacent positions that starts there
    becomes a group. *)
Lemma condense_merge_front gs rest x n :
  condense_inv gs rest x n -> rest <> [] ->
  zmin (where_nz (map (fun d => b2z (Qltb d 2)) (diff x)))
    = Some (Z.of_nat (length gs)) ->
  exists run post x' n',
    condense_step x n = Some (x', n') /\ rest = run ++ post /\ run <> [] /\
    condense_inv (gs ++ [run]) post x' n'.
Proof.
  intros (Hx & Hn & Hruns & Hsep & Hfront & Hsorted) Hne Hfirst.
  apply Forall2_app_inv_l in Hx as (xg & xt & Hxg & Hxt & ->).
  apply Forall2_app_inv_l in Hn as (ng & nt & Hng & Hnt & ->).
  pose proof (Forall2_length _ _ _ Hxg) as Lxg.
  pose proof (Forall2_length _ _ _ Hng) as Lng.
  pose proof (Forall2_length _ _ _ Hxt) as Lxt. rewrite length_map in Lxt.
  pose proof (Forall2_length _ _ _ Hnt) as Lnt. rewrite length_map in Lnt.
  assert (0 < length rest)%nat as Hpos by (destruct rest; [done|simpl; lia]).
  unfold condense_step. rewrite Hfirst. cbn [mbind option_bind].
  rewrite Lxg. rewrite (getslice_app_from xg xt) by done.
  set (flags := map (fun d => b2z (Qltb 1 d)) (diff xt)).
  assert (length flags = (length rest - 1)%nat) as Lflags
    by (unfold flags; rewrite length_map, length_diff; lia).
  destruct (zmin_where_last flags) as (j & Hj & Hjle & Hbefore & Hat).
  rewrite Lflags in Hj, Hjle, Hat.
  replace (Z.of_nat (length xt) - 1) with (Z.of_nat (length rest - 1))
    by lia.
  rewrite Hj. cbn [mbind option_bind].
  (* the run and what follows it *)
  assert (forall (i : nat) a b, (i < j)%nat ->
            rest !! i = Some a -> rest !! S i = Some b -> b <= a + 1) as F1.
  { intros i a b Hi Ha Hb.
    destruct (lookup_lt_is_Some_2 flags i) as [v Hv]; [lia|].
    pose proof (Hbefore i v Hi Hv) as ->.
    destruct (diff_flags rest xt (fun d => Qltb 1 d) (fun z => 1 <? z)
                i 0 flag_gt1 Hxt Hv) as (a' & b' & Ha' & Hb' & Hv').
    rewrite Ha in Ha'. rewrite Hb in Hb'. injection Ha' as <-.
    injection Hb' as <-. destruct (Z.ltb_spec 1 (b - a)); [done|lia]. }
  assert ((j < length rest - 1)%nat ->
          exists a b, rest !! j = Some a /\ rest !! S j = Some b /\
                      a + 2 <= b) as F2.
  { intros Hlt. destruct (Hat Hlt) as (v & Hv & Hv0).
    destruct (diff_flags rest xt (fun d => Qltb 1 d) (fun z => 1 <? z)
                j v flag_gt1 Hxt Hv) as (a & b & Ha & Hb & Hv').
    exists a, b. repeat split; [done..|].
    destruct (Z.ltb_spec 1 (b - a)); [lia|]. by subst v. }
  set (run := take (S j) rest). set (post := drop (S j) rest).
  assert (rest = run ++ post) as Hrest by (symmetry; apply take_drop).
  assert (length run = S j) as Lrun
    by (unfold run; rewrite length_take; lia).
  rewrite Hrest, fmap_app in Hxt, Hnt.
  apply Forall2_app_inv_l in Hxt as (xr & xp & Hxr & Hxp & ->).
  apply Forall2_app_inv_l in Hnt as (nr & np & Hnr & Hnp & ->).
  pose proof (Forall2_length _ _ _ Hxr) as Lxr. rewrite length_map in Lxr.
  pose proof (Forall2_length _ _ _ Hnr) as Lnr. rewrite length_map in Lnr.
  pose proof (Forall2_length _ _ _ Hxp) as Lxp. rewrite length_map in Lxp.
  pose proof (Forall2_length _ _ _ Hnp) as Lnp. rewrite length_map in Lnp.
  assert (vmul (xg ++ xr ++ xp) (ng ++ nr ++ np)
          = vmul xg ng ++ vmul xr nr ++ vmul xp np) as ->.
  { unfold vmul. rewrite !zip_with_app by lia. done. }
  destruct (condense_pieces (vmul xg ng) (vmul xr nr) (vmul xp np)
              (Z.of_nat (length xg)) (Z.of_nat (length xg) + Z.of_nat j + 1))
    as (-> & -> & ->).
  { unfold vmul. rewrite length_zip_with. lia. }
  { unfold vmul. rewrite !length_zip_with. lia. }
  destruct (condense_pieces ng nr np
              (Z.of_nat (length xg)) (Z.of_nat (length xg) + Z.of_nat j + 1))
    as (-> & -> & ->); [lia..|].
  assert (vdiv (vmul xg ng ++ [qsum (vmul xr nr)] ++ vmul xp np)
               (ng ++ [qsum nr] ++ np)
          = vdiv (vmul xg ng) ng ++ [qsum (vmul xr nr) / qsum nr]%Q
            ++ vdiv (vmul xp np) np) as ->.
  { unfold vdiv, vmul. rewrite zip_with_app; [done|].
    rewrite length_zip_with. lia. }
  assert (run <> []) as Hrun by (intros E; by rewrite E in Lrun).
  destruct (singles_sums run xr nr Hxr Hnr) as [Hs1 Hs2].
  eexists run, post, _, _. split; [reflexivity|]. split; [done|].
  split; [done|]. repeat split.
  - rewrite <- app_assoc. apply Forall2_app; [|apply Forall2_app].
    + apply centres_rescaled; [|done..].
      eapply Forall_impl; [exact Hruns|]. by intros g [? _].
    + constructor; [|constructor]. unfold centre_of, mean.
      rewrite Hs1, Hs2. unfold qlen. by rewrite length_map.
    + apply centres_rescaled; [apply singles_nonempty|done..].
  - rewrite <- app_assoc. apply Forall2_app; [done|]. apply Forall2_app; [|done].
    constructor; [done|constructor].
  - apply Forall_app. split; [done|]. constructor; [|constructor].
    split; [done|]. intros i a b Ha Hb. unfold run in Ha, Hb.
    apply lookup_take_Some in Ha as [Ha _].
    apply lookup_take_Some in Hb as [Hb Hi].
    split.
    + apply (sorted_lookup_le rest i (S i)); [done|lia|done..].
    + apply (F1 i); [lia|done..].
  - apply separated_snoc; [done|]. intros h a b Hh Ha Hb.
    apply (Hfront h); [done..|]. rewrite Hrest. apply elem_of_app. by left.
  - intros g a b Hg Ha Hb. rewrite last_snoc in Hg. injection Hg as <-.
    apply list_elem_of_lookup in Ha as [p Hp].
    apply list_elem_of_lookup in Hb as [q Hq].
    unfold run in Hp. apply lookup_take_Some in Hp as [Hp Hpj].
    unfold post in Hq. rewrite lookup_drop in Hq.
    apply lookup_lt_Some in Hq as Hqlt.
    destruct F2 as (a0 & b0 & Ha0 & Hb0 & Hgap); [lia|].
    pose proof (sorted_lookup_le rest p j a a0 Hsorted ltac:(lia) Hp Ha0).
    pose proof (sorted_lookup_le rest (S j) (S j + q) b0 b Hsorted
                  ltac:(lia) Hb0 Hq).
    lia.
  - rewrite Hrest in Hsorted. by apply StronglySorted_app_1_r in Hsorted.
Qed.

Lemma concat_singles (l : list Z) : concat (map (fun r => [r]) l) = l.
Proof. induction l as [|a l IH]; simpl; [done|]. by rewrite IH. Qed.

Lemma condense_inv_length gs rest x n :
  condense_inv gs rest x n -> length x = (length gs + length rest)%nat.
Proof.
  intros (Hx & _). apply Forall2_length in Hx.
  by rewrite length_app, length_map in Hx.
Qed.

(** Under the invariant, the test [np.diff(x) < 2] behind the groups is the
    test on the positions. *)
Lemma condense_inv_flag gs rest x n (k : nat) (d : Q) :
  condense_inv gs rest x n ->
  diff x !! (length gs + k)%nat = Some d ->
  exists a b, rest !! k = Some a /\ rest !! S k = Some b /\
    Qltb d 2 = (b - a <? 2).
Proof.
  intros Hinv (ca & cb & Ha & Hb & ->)%diff_lookup.
  replace (S (length gs + k)) with (length gs + S k)%nat in Hb by lia.
  destruct (condense_inv_rest _ _ _ _ _ _ Hinv Ha) as (a & Hra & Hca).
  destruct (condense_inv_rest _ _ _ _ _ _ Hinv Hb) as (b & Hrb & Hcb).
  exists a, b. repeat split; [done..|]. by apply flag_lt2.
Qed.

(** One pass of the loop keeps the invariant and condenses at least one of
    the remaining positions. *)
Lemma condense_step_inv gs rest x n :
  condense_inv gs rest x n ->
  existsb (fun d => Qltb d 2) (diff x) = true ->
  exists gs' rest' x' n',
    condense_step x n = Some (x', n') /\
    condense_inv gs' rest' x' n' /\
    (length rest' < length rest)%nat /\
    concat gs' ++ rest' = concat gs ++ rest.
Proof.
  intros Hinv Hany.
  apply existsb_exists in Hany as (d0 & Hd0 & Hlt0).
  destruct (zmin_where_first (map (fun d => b2z (Qltb d 2)) (diff x)))
    as (i & v & Hfirst & Hi & Hv & Hbefore).
  { exists 1. split; [|done]. apply list_elem_of_fmap. exists d0.
    rewrite Hlt0. split; [done|]. by apply list_elem_of_In. }
  rewrite list_lookup_fmap in Hi.
  destruct (diff x !! i) as [d|] eqn:Hd; [|done]. injection Hi as <-.
  assert (Qltb d 2 = true) as Hlt by (by destruct (Qltb d 2)).
  pose proof (lookup_lt_Some _ _ _ Hd) as Hilt. rewrite length_diff in Hilt.
  pose proof (condense_inv_length _ _ _ _ Hinv) as Lx.
  assert (length gs <= i)%nat as Hge.
  { destruct (decide (length gs <= i)%nat) as [|Hn]; [done|]. exfalso.
    apply diff_lookup in Hd as (a & b & Ha & Hb & ->).
    pose proof (condense_inv_settled _ _ _ _ i a b Hinv ltac:(lia) Ha Hb).
    apply Qltb_true in Hlt. lra. }
  set (k := (i - length gs)%nat).
  assert (rest = take k rest ++ drop k rest) as Hrest
    by (symmetry; apply take_drop).
  assert (length (take k rest) = k) as Lpre
    by (rewrite length_take; lia).
  assert (condense_inv (gs ++ map (fun r => [r]) (take k rest))
                       (drop k rest) x n) as Hinv1.
  { apply condense_inv_shift; [by rewrite <- Hrest|].
    rewrite <- Hrest. intros i' a b Hi' Ha Hb. rewrite Lpre in Hi'.
    destruct (lookup_lt_is_Some_2 (diff x) (length gs + i')) as [d' Hd'].
    { rewrite length_diff. lia. }
    destruct (condense_inv_flag _ _ _ _ _ _ Hinv Hd')
      as (a' & b' & Ha' & Hb' & Hflag).
    rewrite Ha in Ha'. rewrite Hb in Hb'. injection Ha' as <-.
    injection Hb' as <-.
    assert (b2z (Qltb d' 2) = 0) as H0.
    { apply (Hbefore (length gs + i')%nat); [lia|].
      by rewrite list_lookup_fmap, Hd'. }
    rewrite Hflag in H0. destruct (Z.ltb_spec (b - a) 2); [done|lia]. }
  destruct (condense_merge_front _ _ _ _ Hinv1)
    as (run & post & x' & n' & Hstep & Hsplit & Hrun & Hinv').
  { intros E. apply (f_equal length) in E. rewrite length_drop in E.
    simpl in E. lia. }
  { rewrite length_app, length_map, Lpre. rewrite Hfirst.
    do 2 f_equal. lia. }
  exists (((gs ++ map (fun r => [r]) (take k rest)) ++ [run])), post, x', n'.
  split; [done|]. split; [done|]. split.
  - apply (f_equal length) in Hsplit.
    rewrite length_drop, length_app in Hsplit.
    destruct run; [done|]. simpl in Hsplit. lia.
  - rewrite !concat_app, concat_singles. simpl. rewrite app_nil_r.
    rewrite <- !app_assoc, <- Hsplit. by rewrite take_drop.
Qed.

Lemma condense_loop_done (fuel : nat) (x n : list Q) :
  existsb (fun d => Qltb d 2) (diff x) = false ->
  condense_loop fuel x n = Some (x, n).
Proof. intros H. destruct fuel; simpl; by rewrite H. Qed.

(** The loop returns, within as many passes as there are positions left,
    with every position in a condensed group. *)
Lemma condense_loop_inv (fuel : nat) : forall gs rest x n,
  condense_inv gs rest x n -> (length rest <= fuel)%nat ->
  exists gs' x' n',
    condense_loop fuel x n = Some (x', n') /\
    condense_inv gs' [] x' n' /\
    concat gs' = concat gs ++ rest.
Proof.
  induction fuel as [|fuel IH]; intros gs rest x n Hinv Hfuel.
  - destruct (existsb (fun d => Qltb d 2) (diff x)) eqn:Hany.
    { destruct (condense_step_inv _ _ _ _ Hinv Hany)
        as (? & ? & ? & ? & _ & _ & Hlt & _). lia. }
    destruct rest; [|simpl in Hfuel; lia].
    exists gs, x, n. rewrite app_nil_r.
    split; [by apply condense_loop_done|done].
  - destruct (existsb (fun d => Qltb d 2) (diff x)) eqn:Hany.
    + destruct (condense_step_inv _ _ _ _ Hinv Hany)
        as (gs1 & rest1 & x1 & n1 & Hstep & Hinv1 & Hlt & Hcat).
      destruct (IH gs1 rest1 x1 n1 Hinv1 ltac:(lia))
        as (gs' & x' & n' & Hloop & Hinv' & Hcat').
      exists gs', x', n'. split; [|split; [done|congruence]].
      simpl. rewrite Hany, Hstep. done.
    + exists (gs ++ map (fun r => [r]) rest), x, n.
      split; [by apply condense_loop_done|]. split.
      * apply condense_inv_shift; [by rewrite app_nil_r|].
        rewrite app_nil_r. intros i a b _ Ha Hb.
        pose proof (condense_inv_length _ _ _ _ Hinv) as Lx.
        apply lookup_lt_Some in Hb as Hilt.
        destruct (lookup_lt_is_Some_2 (diff x) (length gs + i)) as [d Hd].
        { rewrite length_diff. lia. }
        destruct (condense_inv_flag _ _ _ _ _ _ Hinv Hd)
          as (a' & b' & Ha' & Hb' & Hflag).
        rewrite Ha in Ha'. rewrite Hb in Hb'. injection Ha' as <-.
        injection Hb' as <-.
        assert (Qltb d 2 = false) as H0.
        { destruct (Qltb d 2) eqn:E; [|done].
          assert (existsb (fun d => Qltb d 2) (diff x) = true) as Ht.
          { apply existsb_exists. exists d. split; [|done].
            apply list_elem_of_In. by eapply list_elem_of_lookup_2. }
          congruence. }
        rewrite Hflag in H0. destruct (Z.ltb_spec (b - a) 2); [done|lia].
      * by rewrite concat_app, concat_singles.
Qed.

Lemma condense_loop_mono (fuel : nat) : forall x n r,
  condense_loop fuel x n = Some r ->
  forall fuel', (fuel <= fuel')%nat -> condense_loop fuel' x n = Some r.
Proof.
  induction fuel as [|fuel IH]; intros x n r Hr fuel' Hle.
  - simpl in Hr. destruct (existsb _ _) eqn:Hany; [done|].
    injection Hr as <-. by apply condense_loop_done.
  - destruct fuel' as [|fuel']; [lia|]. simpl in *.
    destruct (existsb _ _) eqn:Hany; [|done].
    destruct (condense_step x n) as [[x1 n1]|]; [|done]. simpl in *.
    apply (IH _ _ _ Hr). lia.
Qed.

Lemma condense_inv_init (ds : list Z) :
  Sorted Z.le ds ->
  condense_inv [] ds (map (fun v => v + 0)%Q (map inject_Z ds))
    (replicate (length (map (fun v => v + 0)%Q (map inject_Z ds))) 1%Q).
Proof.
  intros Hs. repeat split.
  - simpl. induction ds as [|r ds IH]; simpl; constructor.
    + apply centre_of_single. ring.
    + apply IH. by apply Sorted_inv in Hs as [? _].
  - simpl. rewrite !length_map. clear Hs.
    induction ds as [|r ds IH]; simpl; by constructor.
  - constructor.
  - by intros [|i] g h a b Hg.
  - by intros g a b Hg.
  - by apply (Sorted_StronglySorted Z.le).
Qed.

(** X19.  On integer positions in ascending order, as [np.where] gives
    them, [condense_detections] returns, after at most as many passes as
    there are positions, and what it returns are the maximal runs of
    adjacent positions: the positions split, in order, into groups [gs];
    inside a group neighbours are at most one apart, between one group and
    the next all positions are at least two apart; the centre returned for
    a group is the mean of its positions and the count is their number. *)
Theorem condense_detections_groups (ds : list Z) :
  Sorted Z.le ds ->
  exists gs x n,
    (forall fuel, (length ds <= fuel)%nat ->
       condense_detections fuel (map inject_Z ds) = Some (x, n)) /\
    concat gs = ds /\
    Forall adjacent_run gs /\ separated gs /\
    Forall2 centre_of gs x /\ Forall2 count_of gs n.
Proof.
  intros Hs.
  destruct (condense_loop_inv (length ds) [] ds _ _
              (condense_inv_init ds Hs) ltac:(done))
    as (gs & x & n & Hloop & (Hx & Hn & Hruns & Hsep & _) & Hcat).
  exists gs, x, n. simpl in Hx, Hn. rewrite app_nil_r in Hx, Hn.
  repeat split; [|done..].
  intros fuel Hfuel. unfold condense_detections.
  by apply (condense_loop_mono (length ds)).
Qed.

Lemma condense_detections_groups_witness :
  exists gs x n,
    (forall fuel, (length [3; 4; 5; 9; 12; 13] <= fuel)%nat ->
       condense_detections fuel (map inject_Z [3; 4; 5; 9; 12; 13])
       = Some (x, n)) /\
    concat gs = [3; 4; 5; 9; 12; 13] /\
    Forall adjacent_run gs /\ separated gs /\
    Forall2 centre_of gs x /\ Forall2 count_of gs n.
Proof.
  apply (condense_detections_groups [3; 4; 5; 9; 12; 13]).
  repeat first [apply Sorted_cons | apply Sorted_nil | apply HdRel_cons
               | apply HdRel_nil | lia].
Defined.

Lemma Forall2_Qeq_refl (l : list Q) : Forall2 Qeq l l.
Proof. induction l; by constructor. Qed.

Lemma rescale_eq (xs : list Q) : forall ns,
  length xs = length ns -> Forall (fun k => ~ (k == 0)%Q) ns ->
  Forall2 Qeq (vdiv (vmul xs ns) ns) xs.
Proof.
  induction xs as [|c xs IH]; intros [|k ns] Hlen Hns; simpl in *;
    try done.
  apply Forall_cons in Hns as [Hk Hns].
  constructor; [by field|]. apply IH; [lia|done].
Qed.

(** A pass of the loop whose first close pair is more than one apart
    merges nothing: it returns the state it was given. *)
Lemma condense_step_stuck (x n : list Q) (i : nat) (a b : Q) :
  length x = length n -> Forall (fun k => ~ (k == 0)%Q) n ->
  x !! i = Some a -> x !! S i = Some b ->
  (1 < b - a)%Q -> (b - a < 2)%Q ->
  (forall (j : nat) c e, (j < i)%nat ->
     x !! j = Some c -> x !! S j = Some e -> (2 <= e - c)%Q) ->
  exists x' n', condense_step x n = Some (x', n') /\
    Forall2 Qeq x' x /\ Forall2 Qeq n' n.
Proof.
  intros Hlen Hnz Ha Hb Hgt Hlt Hbefore.
  assert (diff x !! i = Some (b - a)%Q) as Hd
    by (apply diff_lookup; by exists a, b).
  destruct (zmin_where_first (map (fun d => b2z (Qltb d 2)) (diff x)))
    as (i0 & v & Hfirst & Hi0 & Hv & Hzero).
  { exists 1. split; [|done]. apply list_elem_of_fmap. exists (b - a)%Q.
    split; [|by eapply list_elem_of_lookup_2].
    by rewrite (proj2 (Qltb_true _ _) Hlt). }
  assert (i0 = i) as ->.
  { destruct (lt_eq_lt_dec i0 i) as [[Hl|]|Hl]; [|done|]; exfalso.
    - rewrite list_lookup_fmap in Hi0.
      destruct (diff x !! i0) as [d|] eqn:Hd0; [|done]. injection Hi0 as <-.
      apply diff_lookup in Hd0 as (c & e & Hc & He & ->).
      pose proof (Hbefore i0 c e Hl Hc He) as Hge.
      apply Qltb_false in Hge. rewrite Hge in Hv. done.
    - specialize (Hzero i 1 Hl). rewrite list_lookup_fmap, Hd in Hzero.
      simpl in Hzero. rewrite (proj2 (Qltb_true _ _) Hlt) in Hzero.
      by specialize (Hzero eq_refl). }
  clear Hi0 Hv Hzero.
  destruct (lookup_lt_is_Some_2 n i) as [k Hk].
  { rewrite <- Hlen. by eapply lookup_lt_Some. }
  assert (~ (k == 0)%Q) as Hk0.
  { rewrite Forall_forall in Hnz. apply Hnz.
    by eapply list_elem_of_lookup_2. }
  assert (exists xa xc, x = xa ++ [a] ++ b :: xc /\ length xa = i)
    as (xa & xc & -> & Lxa).
  { exists (take i x), (drop (S (S i)) x). split.
    - rewrite <- (take_drop_middle x i a Ha) at 1. simpl. do 2 f_equal.
      by apply drop_S.
    - rewrite length_take. apply lookup_lt_Some in Ha. lia. }
  assert (exists na nc, n = na ++ [k] ++ nc /\ length na = i)
    as (na & nc & -> & Lna).
  { exists (take i n), (drop (S i) n). split.
    - by rewrite <- (take_drop_middle n i k Hk) at 1.
    - rewrite length_take. apply lookup_lt_Some in Hk. lia. }
  subst i. unfold condense_step. rewrite Hfirst. cbn [mbind option_bind].
  rewrite (getslice_app_from xa ([a] ++ b :: xc)) by done.
  set (flags := map (fun d => b2z (Qltb 1 d)) (diff ([a] ++ b :: xc))).
  assert (flags !! 0%nat = Some 1) as Hf0.
  { unfold flags. rewrite diff_zip. simpl.
    by rewrite (proj2 (Qltb_true _ _) Hgt). }
  assert (length flags = length (b :: xc)) as Lflags.
  { unfold flags. rewrite length_map, length_diff. simpl. lia. }
  destruct (zmin_where_last flags) as (j & Hj & _ & Hzero & _).
  assert (j = 0%nat) as ->.
  { destruct j as [|j]; [done|]. specialize (Hzero 0%nat 1 ltac:(lia) Hf0).
    done. }
  replace (Z.of_nat (length ([a] ++ b :: xc)) - 1)
    with (Z.of_nat (length flags)) by (rewrite Lflags; simpl; lia).
  rewrite Hj. cbn [mbind option_bind].
  rewrite !length_app in Hlen. simpl in Hlen.
  assert (vmul (xa ++ [a] ++ b :: xc) (na ++ [k] ++ nc)
          = vmul xa na ++ [a * k]%Q ++ vmul (b :: xc) nc) as ->.
  { unfold vmul. rewrite zip_with_app by lia. done. }
  destruct (condense_pieces (vmul xa na) [(a * k)%Q] (vmul (b :: xc) nc)
              (Z.of_nat (length xa)) (Z.of_nat (length xa) + Z.of_nat 0 + 1))
    as (-> & -> & ->).
  { unfold vmul. rewrite length_zip_with. lia. }
  { unfold vmul. rewrite !length_zip_with. simpl. lia. }
  destruct (condense_pieces na [k] nc
              (Z.of_nat (length xa)) (Z.of_nat (length xa) + Z.of_nat 0 + 1))
    as (-> & -> & ->); [simpl; lia..|].
  eexists _, _. split; [reflexivity|]. split.
  - unfold vdiv at 1. unfold vmul at 1.
    rewrite zip_with_app by (rewrite length_zip_with; lia).
    apply Forall2_app.
    + apply rescale_eq; [lia|].
      apply Forall_app in Hnz as [? _]. done.
    + change (zip_with Qdiv ([qsum [(a * k)%Q]] ++ vmul (b :: xc) nc)
                ([qsum [k]] ++ nc))
        with ((qsum [(a * k)%Q] / qsum [k])%Q
                :: vdiv (vmul (b :: xc) nc) nc).
      constructor.
      * simpl. field. intros E. apply Hk0. rewrite <- E. ring.
      * apply rescale_eq; [simpl in *; lia|].
        apply Forall_app in Hnz as [_ Hnz].
        by apply Forall_cons in Hnz as [_ ?].
  - apply Forall2_app; [apply Forall2_Qeq_refl|].
    constructor; [simpl; ring|apply Forall2_Qeq_refl].
Qed.

Lemma condense_loop_stuck (fuel : nat) : forall (x n : list Q) (i : nat)
    (a b : Q),
  length x = length n -> Forall (fun k => ~ (k == 0)%Q) n ->
  x !! i = Some a -> x !! S i = Some b ->
  (1 < b - a)%Q -> (b - a < 2)%Q ->
  (forall (j : nat) c e, (j < i)%nat ->
     x !! j = Some c -> x !! S j = Some e -> (2 <= e - c)%Q) ->
  condense_loop fuel x n = None.
Proof.
  induction fuel as [|fuel IH]; intros x n i a b Hlen Hnz Ha Hb Hgt Hlt Hbef.
  - simpl.
    assert (existsb (fun d => Qltb d 2) (diff x) = true) as ->; [|done].
    apply existsb_exists. exists (b - a)%Q. split; [|by apply Qltb_true].
    apply list_elem_of_In, (list_elem_of_lookup_2 _ i), diff_lookup.
    by exists a, b.
  - simpl.
    assert (existsb (fun d => Qltb d 2) (diff x) = true) as ->.
    { apply existsb_exists. exists (b - a)%Q. split; [|by apply Qltb_true].
      apply list_elem_of_In, (list_elem_of_lookup_2 _ i), diff_lookup.
      by exists a, b. }
    destruct (condense_step_stuck x n i a b Hlen Hnz Ha Hb Hgt Hlt Hbef)
      as (x' & n' & -> & Hx & Hn). simpl.
    destruct (Forall2_lookup_r _ _ _ _ _ Hx Ha) as (a' & Ha' & Haa).
    destruct (Forall2_lookup_r _ _ _ _ _ Hx Hb) as (b' & Hb' & Hbb).
    apply (IH x' n' i a' b'); [| |done|done| | |].
    + apply Forall2_length in Hx, Hn. lia.
    + rewrite Forall_forall. intros k' [p Hp]%list_elem_of_lookup.
      destruct (Forall2_lookup_l _ _ _ _ _ Hn Hp) as (k & Hk & Hkk).
      rewrite Forall_forall in Hnz.
      pose proof (Hnz k (list_elem_of_lookup_2 _ _ _ Hk)) as Hk0.
      by rewrite Hkk.
    + by rewrite Haa, Hbb.
    + by rewrite Haa, Hbb.
    + intros j c' e' Hj Hc' He'.
      destruct (Forall2_lookup_l _ _ _ _ _ Hx Hc') as (c & Hc & Hcc).
      destruct (Forall2_lookup_l _ _ _ _ _ Hx He') as (e & He & Hee).
      rewrite Hcc, Hee. by apply (Hbef j).
Qed.

(** X20.  When the first two neighbours less than two apart are more than
    one apart, a pass of [condense_detections] merges nothing and gives
    back the centres and counts it started from, so the loop goes on
    without end: no number of passes returns. *)
Theorem condense_detections_hangs (detections : list Q) (i : nat)
    (a b : Q) :
  detections !! i = Some a -> detections !! S i = Some b ->
  (1 < b - a)%Q -> (b - a < 2)%Q ->
  (forall (j : nat) c e, (j < i)%nat ->
     detections !! j = Some c -> detections !! S j = Some e ->
     (2 <= e - c)%Q) ->
  (exists x' n',
     condense_step (map (fun v => v + 0)%Q detections)
       (replicate (length detections) 1%Q) = Some (x', n') /\
     Forall2 Qeq x' detections /\
     Forall2 Qeq n' (replicate (length detections) 1%Q)) /\
  forall fuel, condense_detections fuel detections = None.
Proof.
  intros Ha Hb Hgt Hlt Hbef.
  set (x := map (fun v => v + 0)%Q detections).
  assert (Forall2 Qeq x detections) as Hx.
  { unfold x. clear. induction detections; simpl; constructor; [ring|done]. }
  assert (forall p c, detections !! p = Some c ->
            exists c', x !! p = Some c' /\ (c' == c)%Q) as Hlook.
  { intros p c Hc. destruct (Forall2_lookup_r _ _ _ _ _ Hx Hc)
      as (c' & ? & ?). by exists c'. }
  destruct (Hlook _ _ Ha) as (a' & Ha' & Haa).
  destruct (Hlook _ _ Hb) as (b' & Hb' & Hbb).
  assert (length x = length (replicate (length detections) 1%Q)) as Hlen
    by (unfold x; by rewrite length_map, length_replicate).
  assert (Forall (fun k => ~ (k == 0)%Q) (replicate (length detections) 1%Q))
    as Hnz by (apply Forall_replicate; lra).
  assert (forall (j : nat) c e, (j < i)%nat ->
            x !! j = Some c -> x !! S j = Some e -> (2 <= e - c)%Q) as Hbef'.
  { intros j c' e' Hj Hc' He'.
    destruct (Forall2_lookup_l _ _ _ _ _ Hx Hc') as (c & Hc & Hcc).
    destruct (Forall2_lookup_l _ _ _ _ _ Hx He') as (e & He & Hee).
    rewrite Hcc, Hee. by apply (Hbef j). }
  split.
  - destruct (condense_step_stuck x _ i a' b' Hlen Hnz Ha' Hb')
      as (x' & n' & Hstep & Hx' & Hn'); [by rewrite Haa, Hbb..|done|].
    exists x', n'. split; [done|]. split; [|done].
    clear -Hx Hx'. revert Hx' Hx. generalize x. clear x.
    intros x Hx'. revert detections.
    induction Hx' as [|u w l k Huw _ IH]; intros ds Hds.
    + done.
    + apply Forall2_cons_inv_l in Hds as (d & ds' & Hd & Hds & ->).
      constructor; [by rewrite Huw|by apply IH].
  - intros fuel. unfold condense_detections. fold x.
    replace (length x) with (length detections)
      by (unfold x; by rewrite length_map).
    apply (condense_loop_stuck fuel x _ i a' b'); try done;
      by rewrite Haa, Hbb.
Qed.

Lemma condense_detections_hangs_witness :
  (exists x' n',
     condense_step (map (fun v => v + 0)%Q [0%Q; (3 # 2)%Q])
       (replicate (length [0%Q; (3 # 2)%Q]) 1%Q) = Some (x', n') /\
     Forall2 Qeq x' [0%Q; (3 # 2)%Q] /\
     Forall2 Qeq n' (replicate (length [0%Q; (3 # 2)%Q]) 1%Q)) /\
  forall fuel, condense_detections fuel [0%Q; (3 # 2)%Q] = None.
Proof.
  apply (condense_detections_hangs [0%Q; (3 # 2)%Q] 0 0%Q (3 # 2)%Q);
    [reflexivity|reflexivity|reflexivity|reflexivity|].
  intros j c e Hj. lia.
Defined.
